(** * Maze generation and maze solving: a shallow embedding

    The development follows the Python sources

    - [backup/maze copy.py]: the direction flags, [_neighbors], the three
      generators [generate_maze_dfs], [generate_maze_prim],
      [generate_maze_wilson], [render_ascii] and [to_edges];
    - [solve_maze.py]: [dijkstra_solve] and the text that [save_text_maze]
      writes;
    - [backup/solve_maze copy.py]: [solve_maze_dijkstra] and
      [mark_path_in_maze].

    Python integers are [Z]; a list indexed by an integer follows Python's
    rule (a negative index counts from the end, anything else out of range
    raises [IndexError]); dictionaries and sets are [gmap] and [gset]; a
    string is the list of its characters; exceptions are an explicit
    outcome; [while] loops take fuel and the theorems show how much fuel is
    enough.  Plotting, the animation and the command lines are left out. *)

From Stdlib Require Import ZArith Lia Ascii.
From stdpp Require Import gmap list sorting.

Local Open Scope Z_scope.

(** ** Outcomes of a Python computation *)

Inductive exn : Set := ValueError | RuntimeError | IndexError | KeyError.

Inductive outcome (A : Type) : Type :=
| Ret (a : A)
| Raise (e : exn)
| OutOfFuel.

Arguments Ret {A} a.
Arguments Raise {A} e.
Arguments OutOfFuel {A}.

#[global] Instance outcome_ret : MRet outcome := fun A a => Ret a.

#[global] Instance outcome_bind : MBind outcome := fun A B k m =>
  match m with
  | Ret a => k a
  | Raise e => Raise e
  | OutOfFuel => OutOfFuel
  end.

(** A cell is a pair [(x, y)] of integers. *)
Abbreviation cell := (Z * Z)%type (only parsing).

(** ** Python list indexing *)

Module Py.

(** [l[i]] *)
Definition getitem {A} (l : list A) (i : Z) : outcome A :=
  let n := Z.of_nat (length l) in
  let j := if i <? 0 then i + n else i in
  if (0 <=? j) && (j <? n) then
    match l !! Z.to_nat j with
    | Some a => Ret a
    | None => Raise IndexError
    end
  else Raise IndexError.

(** [l[i] = v] *)
Definition setitem {A} (l : list A) (i : Z) (v : A) : outcome (list A) :=
  let n := Z.of_nat (length l) in
  let j := if i <? 0 then i + n else i in
  if (0 <=? j) && (j <? n) then Ret (<[Z.to_nat j := v]> l)
  else Raise IndexError.

(** [g[y][x]] *)
Definition getitem2 {A} (g : list (list A)) (x y : Z) : outcome A :=
  row ← getitem g y; getitem row x.

(** [g[y][x] = v]: the row object is fetched, then updated in place *)
Definition setitem2 {A} (g : list (list A)) (x y : Z) (v : A)
  : outcome (list (list A)) :=
  row ← getitem g y; row' ← setitem row x v; setitem g y row'.

(** [range(n)] *)
Definition range (n : Z) : list Z := seqZ 0 n.

End Py.

(** ** The random source

    The generators draw from Python's global Mersenne Twister through
    [random.randrange] and [random.choice]; both reduce to one call of
    [_randbelow n], which returns a number in [0, n).  The twister itself is
    left abstract: a generator state is the infinite sequence of raw draws
    that remain, and [_randbelow n] reduces the next one modulo [n].  Every
    run of the real generator is the run of the model on some such sequence,
    so what holds for all sequences holds for all seeds. *)

Definition rng : Type := nat → nat.

Module Random.

Definition advance (r : rng) : rng := fun i => r (S i).

Definition randbelow (n : Z) (r : rng) : Z * rng :=
  (Z.of_nat (r O) mod n, advance r).

(** [random.randrange(n)] *)
Definition randrange (n : Z) (r : rng) : outcome (Z * rng) :=
  if n <=? 0 then Raise ValueError else Ret (randbelow n r).

(** [random.choice(seq)] *)
Definition choice {A} (l : list A) (r : rng) : outcome (A * rng) :=
  match l with
  | [] => Raise IndexError
  | _ =>
      let '(i, r') := randbelow (Z.of_nat (length l)) r in
      a ← Py.getitem l i; Ret (a, r')
  end.

End Random.

(** ** Direction system *)

(** [class Dir(IntFlag)]: a direction is an integer flag. *)
Module Dir.
Definition N : Z := 1.
Definition S : Z := 2.
Definition W : Z := 4.
Definition E : Z := 8.
End Dir.

(** The three dictionaries keyed by direction; a key that is absent gives
    [None]. *)
Definition DX (d : Z) : option Z :=
  if decide (d = Dir.E) then Some 1
  else if decide (d = Dir.W) then Some (-1)
  else if decide (d = Dir.N) then Some 0
  else if decide (d = Dir.S) then Some 0
  else None.

Definition DY (d : Z) : option Z :=
  if decide (d = Dir.E) then Some 0
  else if decide (d = Dir.W) then Some 0
  else if decide (d = Dir.N) then Some (-1)
  else if decide (d = Dir.S) then Some 1
  else None.

Definition OPPOSITE (d : Z) : option Z :=
  if decide (d = Dir.E) then Some Dir.W
  else if decide (d = Dir.W) then Some Dir.E
  else if decide (d = Dir.N) then Some Dir.S
  else if decide (d = Dir.S) then Some Dir.N
  else None.

(** [D[k]] on a dictionary: [KeyError] when the key is absent. *)
Definition subscript {A} (o : option A) : outcome A :=
  match o with
  | Some a => Ret a
  | None => Raise KeyError
  end.

(** [_neighbors(x, y, w, h)]: the in-bounds neighbours, in the order in which
    the generator yields them. *)
Definition _neighbors (x y w h : Z) : list (Z * Z * Z) :=
  (if 0 <? y then [(x, y - 1, Dir.N)] else []) ++
  (if y <? h - 1 then [(x, y + 1, Dir.S)] else []) ++
  (if 0 <? x then [(x - 1, y, Dir.W)] else []) ++
  (if x <? w - 1 then [(x + 1, y, Dir.E)] else []).

Definition Grid : Type := list (list Z).

(** [[[v for _ in range(width)] for _ in range(height)]] *)
Definition fresh {A} (width height : Z) (v : A) : list (list A) :=
  (fun _ => (fun _ => v) <$> Py.range width) <$> Py.range height.

(** The cells of a [w] by [h] grid in row-major order: the order of
    [for y in range(h): for x in range(w)]. *)
Definition cells (w h : Z) : list cell :=
  y ← Py.range h; x ← Py.range w; [(x, y)].

(** [g[y][x] |= rhs]: the target is loaded first, then the right-hand side
    is evaluated, then the result is stored. *)
Definition ior (g : Grid) (x y : Z) (rhs : outcome Z) : outcome Grid :=
  row ← Py.getitem g y; old ← Py.getitem row x; bits ← rhs;
  row' ← Py.setitem row x (Z.lor old bits); Py.setitem g y row'.

(** ** Generators *)

Section Generators.

(** [seeded s] is the generator state that [random.seed(s)] installs. *)
Variable seeded : Z → rng.

(** [if seed is not None: random.seed(seed)], on the global state [g] *)
Definition reseed (seed : option Z) (g : rng) : rng :=
  match seed with
  | Some s => seeded s
  | None => g
  end.

(** [[(nx, ny, d) for (nx, ny, d) in ns if not visited[ny][nx]]] *)
Fixpoint unvisited (visited : list (list bool)) (ns : list (Z * Z * Z))
  : outcome (list (Z * Z * Z)) :=
  match ns with
  | [] => Ret []
  | (nx, ny, d) :: ns' =>
      v ← Py.getitem2 visited nx ny;
      rest ← unvisited visited ns';
      Ret (if v : bool then rest else (nx, ny, d) :: rest)
  end.

(** *** Recursive backtracker

    The stack is kept with its top at the head of the list. *)
Fixpoint dfs_loop (fuel : nat) (width height : Z) (grid : Grid)
    (visited : list (list bool)) (stack : list cell) (r : rng)
  : outcome Grid :=
  match stack with
  | [] => Ret grid
  | (x, y) :: below =>
      match fuel with
      | O => OutOfFuel
      | S fuel' =>
          options ← unvisited visited (_neighbors x y width height);
          match options with
          | [] => dfs_loop fuel' width height grid visited below r
          | _ :: _ =>
              '(nx, ny, d, r') ← Random.choice options r;
              match OPPOSITE d with
              | None => Raise RuntimeError
              | Some od =>
                  grid1 ← ior grid x y (Ret d);
                  grid2 ← ior grid1 nx ny (Ret od);
                  visited' ← Py.setitem2 visited nx ny true;
                  dfs_loop fuel' width height grid2 visited'
                    ((nx, ny) :: stack) r'
              end
          end
      end
  end.

Definition generate_maze_dfs (fuel : nat) (width height : Z)
    (seed : option Z) (g : rng) : outcome Grid :=
  if (width <=? 0) || (height <=? 0) then Raise ValueError
  else
    let r0 := reseed seed g in
    let grid := fresh width height 0 in
    let visited := fresh width height false in
    '(x, r1) ← Random.randrange width r0;
    '(y, r2) ← Random.randrange height r1;
    visited ← Py.setitem2 visited x y true;
    dfs_loop fuel width height grid visited [(x, y)] r2.

(** *** Randomized Prim *)

Definition fedge : Type := Z * Z * Z * Z * Z.

(** [frontier.pop(i)] *)
Definition pop_at {A} (l : list A) (i : Z) : outcome (A * list A) :=
  a ← Py.getitem l i;
  Ret (a, delete (Z.to_nat (if i <? 0 then i + Z.of_nat (length l) else i)) l).

(** [for fx, fy, fd in ns: if not in_maze[fy][fx]: frontier.append(...)] *)
Fixpoint extend_frontier (in_maze : list (list bool)) (nx ny : Z)
    (ns : list (Z * Z * Z)) (frontier : list fedge)
  : outcome (list fedge) :=
  match ns with
  | [] => Ret frontier
  | (fx, fy, fd) :: ns' =>
      v ← Py.getitem2 in_maze fx fy;
      extend_frontier in_maze nx ny ns'
        (if v : bool then frontier else frontier ++ [(nx, ny, fx, fy, fd)])
  end.

Fixpoint prim_loop (fuel : nat) (width height : Z) (grid : Grid)
    (in_maze : list (list bool)) (frontier : list fedge) (r : rng)
  : outcome Grid :=
  match frontier with
  | [] => Ret grid
  | _ :: _ =>
      match fuel with
      | O => OutOfFuel
      | S fuel' =>
          '(i, r') ← Random.randrange (Z.of_nat (length frontier)) r;
          '(x, y, nx, ny, d, frontier') ← pop_at frontier i;
          absorbed ← Py.getitem2 in_maze nx ny;
          if absorbed : bool
          then prim_loop fuel' width height grid in_maze frontier' r'
          else
            match OPPOSITE d with
            | None => Raise RuntimeError
            | Some od =>
                in_maze' ← Py.setitem2 in_maze nx ny true;
                grid1 ← ior grid x y (Ret d);
                grid2 ← ior grid1 nx ny (Ret od);
                frontier'' ← extend_frontier in_maze' nx ny
                               (_neighbors nx ny width height) frontier';
                prim_loop fuel' width height grid2 in_maze' frontier'' r'
            end
      end
  end.

Definition generate_maze_prim (fuel : nat) (width height : Z)
    (seed : option Z) (g : rng) : outcome Grid :=
  if (width <=? 0) || (height <=? 0) then Raise ValueError
  else
    let r0 := reseed seed g in
    let grid := fresh width height 0 in
    let in_maze := fresh width height false in
    '(x, r1) ← Random.randrange width r0;
    '(y, r2) ← Random.randrange height r1;
    in_maze ← Py.setitem2 in_maze x y true;
    let frontier :=
      (fun n : Z * Z * Z => let '(nx, ny, d) := n in (x, y, nx, ny, d))
        <$> _neighbors x y width height in
    prim_loop fuel width height grid in_maze frontier r2.

(** *** Wilson *)

(** [list(remaining_cells())] over the cells [cs] *)
Fixpoint remaining_cells (in_maze : list (list bool)) (cs : list cell)
  : outcome (list cell) :=
  match cs with
  | [] => Ret []
  | (xx, yy) :: cs' =>
      v ← Py.getitem2 in_maze xx yy;
      rest ← remaining_cells in_maze cs';
      Ret (if v : bool then rest else (xx, yy) :: rest)
  end.

(** [for px, py in ps: visited_in_walk.pop((px, py), None)] *)
Definition forget (ps : list cell) (visited_in_walk : gmap cell nat)
  : gmap cell nat :=
  foldl (fun m p => delete p m) visited_in_walk ps.

(** The loop-erased random walk [while not in_maze[cy][cx]]. *)
Fixpoint wilson_walk (fuel : nat) (width height : Z)
    (in_maze : list (list bool)) (cx cy : Z) (path_order : list cell)
    (path_next : gmap cell (cell * Z)) (visited_in_walk : gmap cell nat)
    (r : rng) : outcome (list cell * gmap cell (cell * Z) * rng) :=
  reached ← Py.getitem2 in_maze cx cy;
  if reached : bool then Ret (path_order, path_next, r)
  else
    match fuel with
    | O => OutOfFuel
    | S fuel' =>
        '(nx, ny, d, r') ← Random.choice (_neighbors cx cy width height) r;
        let '(path_order', visited_in_walk') :=
          match visited_in_walk !! (nx, ny) with
          | Some loop_start_idx =>
              (take (loop_start_idx + 1) path_order,
               forget (drop (loop_start_idx + 1) path_order) visited_in_walk)
          | None =>
              let appended := path_order ++ [(nx, ny)] in
              (appended,
               <[(nx, ny) := (length appended - 1)%nat]> visited_in_walk)
          end in
        wilson_walk fuel' width height in_maze nx ny path_order'
          (<[(cx, cy) := ((nx, ny), d)]> path_next) visited_in_walk' r'
    end.

(** [for i in range(len(path_order) - 1)]: the consecutive pairs of
    [path_order], first to last. *)
Fixpoint wilson_carve (path_order : list cell)
    (path_next : gmap cell (cell * Z)) (grid : Grid)
    (in_maze : list (list bool)) : outcome (Grid * list (list bool)) :=
  match path_order with
  | (x0, y0) :: (((x1, y1) :: _) as rest) =>
      '(_, d) ← subscript (path_next !! (x0, y0));
      grid1 ← ior grid x0 y0 (Ret d);
      grid2 ← ior grid1 x1 y1 (subscript (OPPOSITE d));
      in_maze1 ← Py.setitem2 in_maze x0 y0 true;
      in_maze2 ← Py.setitem2 in_maze1 x1 y1 true;
      wilson_carve rest path_next grid2 in_maze2
  | _ => Ret (grid, in_maze)
  end.

Fixpoint wilson_loop (fuel walk_fuel : nat) (width height : Z) (grid : Grid)
    (in_maze : list (list bool)) (r : rng) : outcome Grid :=
  pool ← remaining_cells in_maze (cells width height);
  match pool with
  | [] => Ret grid
  | _ :: _ =>
      match fuel with
      | O => OutOfFuel
      | S fuel' =>
          '(sx, sy, r1) ← Random.choice pool r;
          '(path_order, path_next, r2) ←
            wilson_walk walk_fuel width height in_maze sx sy [(sx, sy)] ∅
              {[ (sx, sy) := 0%nat ]} r1;
          '(grid', in_maze') ← wilson_carve path_order path_next grid in_maze;
          wilson_loop fuel' walk_fuel width height grid' in_maze' r2
      end
  end.

Definition generate_maze_wilson (fuel : nat) (width height : Z)
    (seed : option Z) (g : rng) : outcome Grid :=
  if (width <=? 0) || (height <=? 0) then Raise ValueError
  else
    let r0 := reseed seed g in
    let grid := fresh width height 0 in
    let in_maze := fresh width height false in
    '(start_x, r1) ← Random.randrange width r0;
    '(start_y, r2) ← Random.randrange height r1;
    in_maze ← Py.setitem2 in_maze start_x start_y true;
    wilson_loop fuel fuel width height grid in_maze r2.

End Generators.

(** ** Carved edges *)

(** [(x, y) < (nx, ny)] on tuples *)
Definition tuple_ltb (a b : cell) : bool :=
  (a.1 <? b.1) || ((a.1 =? b.1) && (a.2 <? b.2)).

(** The body of [for d in ds] in [to_edges], for the cell [(x, y)] with
    mask [c]. *)
Fixpoint cell_edges (w h x y c : Z) (ds : list Z) (edges : list (cell * cell))
  : outcome (list (cell * cell)) :=
  match ds with
  | [] => Ret edges
  | d :: ds' =>
      if decide (Z.land c d ≠ 0) then
        dx ← subscript (DX d); dy ← subscript (DY d);
        let nx := x + dx in
        let ny := y + dy in
        cell_edges w h x y c ds'
          (if (0 <=? nx) && (nx <? w) && (0 <=? ny) && (ny <? h)
              && tuple_ltb (x, y) (nx, ny)
           then edges ++ [((x, y), (nx, ny))] else edges)
      else cell_edges w h x y c ds' edges
  end.

Fixpoint edges_from (grid : Grid) (w h : Z) (cs : list cell)
    (edges : list (cell * cell)) : outcome (list (cell * cell)) :=
  match cs with
  | [] => Ret edges
  | (x, y) :: cs' =>
      c ← Py.getitem2 grid x y;
      edges' ← cell_edges w h x y c [Dir.N; Dir.E; Dir.S; Dir.W] edges;
      edges_from grid w h cs' edges'
  end.

Definition to_edges (grid : Grid) : outcome (list (cell * cell)) :=
  let h := Z.of_nat (length grid) in
  w ← (if decide (h ≠ 0) then row ← Py.getitem grid 0; Ret (Z.of_nat (length row))
       else Ret 0);
  edges_from grid w h (cells w h) [].


(** ** Solvers *)

(** [heapq] on items [(distance, (x, y))].  Python compares the items as
    tuples, so [heappop] returns the least item in the lexicographic order;
    the heap is kept as the sorted list of its items, which [heappush]
    extends by insertion and [heappop] splits at the head. *)
Module Heapq.

Definition item : Type := Z * cell.

Definition item_leb (a b : item) : bool :=
  (a.1 <? b.1) || ((a.1 =? b.1) &&
    ((a.2.1 <? b.2.1) || ((a.2.1 =? b.2.1) && (a.2.2 <=? b.2.2)))).

Fixpoint heappush (pq : list item) (a : item) : list item :=
  match pq with
  | [] => [a]
  | b :: pq' => if item_leb a b then a :: pq else b :: heappush pq' a
  end.

Definition heappop (pq : list item) : option (item * list item) :=
  match pq with
  | [] => None
  | a :: pq' => Some (a, pq')
  end.

End Heapq.

(** The search state shared by the two solvers; [visited] is used by
    [dijkstra_solve] only. *)
Record search : Type := Search {
  dist : gmap cell Z;
  prev : gmap cell (option cell);
  pq : list Heapq.item;
  visited : gset cell
}.

(** The body of [for d in (Dir.N, Dir.S, Dir.E, Dir.W)], the same text in
    both solvers. *)
Fixpoint relax (grid : Grid) (w h x y current_dist : Z) (ds : list Z)
    (st : search) : outcome search :=
  match ds with
  | [] => Ret st
  | d :: ds' =>
      c ← Py.getitem2 grid x y;
      if decide (Z.land c d ≠ 0) then
        dx ← subscript (DX d); dy ← subscript (DY d);
        let nx := x + dx in
        let ny := y + dy in
        if (0 <=? nx) && (nx <? w) && (0 <=? ny) && (ny <? h) then
          let new_dist := current_dist + 1 in
          improved ←
            match dist st !! (nx, ny) with
            | None => Ret true
            | Some old => Ret (new_dist <? old)
            end;
          if improved : bool then
            relax grid w h x y current_dist ds'
              (Search (<[(nx, ny) := new_dist]> (dist st))
                      (<[(nx, ny) := Some (x, y)]> (prev st))
                      (Heapq.heappush (pq st) (new_dist, (nx, ny)))
                      (visited st))
          else relax grid w h x y current_dist ds' st
        else relax grid w h x y current_dist ds' st
      else relax grid w h x y current_dist ds' st
  end.

Definition directions : list Z := [Dir.N; Dir.S; Dir.E; Dir.W].

(** [h, w = len(grid), len(grid[0])] *)
Definition dimensions (grid : Grid) : outcome (Z * Z) :=
  row ← Py.getitem grid 0;
  Ret (Z.of_nat (length grid), Z.of_nat (length row)).

Definition init (start : cell) : search :=
  Search {[ start := 0 ]} {[ start := None ]} [(0, start)] ∅.

(** *** [dijkstra_solve] (solve_maze.py) *)

Fixpoint solve_loop (fuel : nat) (grid : Grid) (w h : Z) (end_ : cell)
    (st : search) : outcome search :=
  match Heapq.heappop (pq st) with
  | None => Ret st
  | Some ((current_dist, (x, y)), pq') =>
      match fuel with
      | O => OutOfFuel
      | S fuel' =>
          let st := Search (dist st) (prev st) pq' (visited st) in
          if decide ((x, y) = end_) then Ret st
          else if decide ((x, y) ∈ visited st) then
            solve_loop fuel' grid w h end_ st
          else
            let st := Search (dist st) (prev st) (pq st)
                        ({[ (x, y) ]} ∪ visited st) in
            st' ← relax grid w h x y current_dist directions st;
            solve_loop fuel' grid w h end_ st'
      end
  end.

(** [prev.get(cur)] *)
Definition prev_get (prev : gmap cell (option cell)) (cur : cell)
  : option cell :=
  match prev !! cur with
  | Some p => p
  | None => None
  end.

(** [while cur is not None: path.append(cur); cur = prev.get(cur)] *)
Fixpoint trace_get (fuel : nat) (prev : gmap cell (option cell))
    (cur : option cell) (path : list cell) : outcome (list cell) :=
  match cur with
  | None => Ret path
  | Some c =>
      match fuel with
      | O => OutOfFuel
      | S fuel' => trace_get fuel' prev (prev_get prev c) (path ++ [c])
      end
  end.

Definition dijkstra_solve (fuel : nat) (grid : Grid) (start end_ : cell)
  : outcome (list cell) :=
  '(h, w) ← dimensions grid;
  st ← solve_loop fuel grid w h end_ (init start);
  path ← trace_get fuel (prev st) (Some end_) [];
  Ret (reverse path).

(** *** [solve_maze_dijkstra] (backup/solve_maze copy.py) *)

Fixpoint backup_loop (fuel : nat) (grid : Grid) (w h : Z) (end_ : cell)
    (st : search) : outcome search :=
  match Heapq.heappop (pq st) with
  | None => Ret st
  | Some ((current_dist, (x, y)), pq') =>
      match fuel with
      | O => OutOfFuel
      | S fuel' =>
          let st := Search (dist st) (prev st) pq' (visited st) in
          if decide ((x, y) = end_) then Ret st
          else
            best ← subscript (dist st !! (x, y));
            if best <? current_dist then backup_loop fuel' grid w h end_ st
            else
              st' ← relax grid w h x y current_dist directions st;
              backup_loop fuel' grid w h end_ st'
      end
  end.

(** [while cur is not None: path.append(cur); cur = prev[cur]] *)
Fixpoint trace_subscript (fuel : nat) (prev : gmap cell (option cell))
    (cur : option cell) (path : list cell) : outcome (list cell) :=
  match cur with
  | None => Ret path
  | Some c =>
      match fuel with
      | O => OutOfFuel
      | S fuel' =>
          p ← subscript (prev !! c);
          trace_subscript fuel' prev p (path ++ [c])
      end
  end.

(** The result is [None] for Python's [None]. *)
Definition solve_maze_dijkstra (fuel : nat) (grid : Grid) (start end_ : cell)
  : outcome (option (list cell)) :=
  '(h, w) ← dimensions grid;
  st ← backup_loop fuel grid w h end_ (init start);
  if decide (end_ ∈ dom (prev st)) then
    path ← trace_subscript fuel (prev st) (Some end_) [];
    Ret (Some (reverse path))
  else Ret None.

(** ** Specification vocabulary *)

(** A [w] by [h] array: [h] rows of [w] entries each. *)
Definition rect {A} (w h : Z) (g : list (list A)) : Prop :=
  Z.of_nat (length g) = h ∧ Forall (fun row => Z.of_nat (length row) = w) g.

(** [c] lies in [0, w) x [0, h). *)
Definition inb (w h : Z) (c : cell) : Prop :=
  0 <= c.1 < w ∧ 0 <= c.2 < h.

(** The entry at an in-bounds cell (and [dflt] elsewhere). *)
Definition at2 {A} (dflt : A) (g : list (list A)) (c : cell) : A :=
  default dflt (row ← g !! Z.to_nat c.2; row !! Z.to_nat c.1).

(** The array with the entry at [c] replaced. *)
Definition put2 {A} (g : list (list A)) (c : cell) (v : A) : list (list A) :=
  alter (fun row => <[Z.to_nat c.1 := v]> row) (Z.to_nat c.2) g.

(** The cell one step from [c] in direction [d]. *)
Definition step (c : cell) (d : Z) : cell :=
  (c.1 + default 0 (DX d), c.2 + default 0 (DY d)).

(** The passage masks of a grid, cell by cell. *)
Definition mask (g : Grid) : cell → Z := at2 0 g.

(** The marks of a boolean array, cell by cell. *)
Definition marks (v : list (list bool)) : cell → bool := at2 false v.

(** The mask at [c] has the bit of direction [d]. *)
Definition open_to (m : cell → Z) (c : cell) (d : Z) : Prop :=
  Z.land (m c) d ≠ 0.

(** The passage graph: from [a] one may step to [b] when both are in
    bounds and the mask at [a] has the bit of the direction from [a] to
    [b]. *)
Definition passage (w h : Z) (m : cell → Z) (a b : cell) : Prop :=
  inb w h a ∧ inb w h b ∧ ∃ d, d ∈ directions ∧ open_to m a d ∧ b = step a d.

(** Passage symmetry. *)
Definition symmetric (w h : Z) (m : cell → Z) : Prop :=
  ∀ c d, inb w h c → d ∈ directions → open_to m c d →
    inb w h (step c d) ∧ ∃ od, OPPOSITE d = Some od ∧ open_to m (step c d) od.

Definition connected (w h : Z) (m : cell → Z) : Prop :=
  ∀ a b, inb w h a → inb w h b → rtc (passage w h m) a b.

(** The perfect-maze invariant: the passage graph is connected and
    [to_edges] lists [w * h - 1] edges. *)
Definition perfect (w h : Z) (g : Grid) : Prop :=
  rect w h g ∧ connected w h (mask g) ∧
  ∃ es, to_edges g = Ret es ∧ Z.of_nat (length es) = w * h - 1.

(** A walk in the passage graph, as the list of its cells. *)
Fixpoint walk (w h : Z) (m : cell → Z) (p : list cell) : Prop :=
  match p with
  | a :: ((b :: _) as p') => passage w h m a b ∧ walk w h m p'
  | _ => True
  end.

(** [p] leads from [a] to [b]. *)
Definition joins (w h : Z) (m : cell → Z) (a b : cell) (p : list cell)
  : Prop :=
  head p = Some a ∧ last p = Some b ∧ walk w h m p.

(** *** Counting

    [to_edges] lists an edge at the endpoint that is the smaller tuple, which
    is the western or the northern one: a cell contributes its east bit and
    its south bit, when the neighbour is in bounds. *)
Definition ecount_cell (w h : Z) (c : cell) (m : Z) : nat :=
  Nat.add
    (if bool_decide (Z.land m Dir.E ≠ 0) && (c.1 + 1 <? w) then 1%nat else 0%nat)
    (if bool_decide (Z.land m Dir.S ≠ 0) && (c.2 + 1 <? h) then 1%nat else 0%nat).

Definition ecount (w h : Z) (m : cell → Z) : nat :=
  sum_list_with (fun c => ecount_cell w h c (m c)) (cells w h).

Definition vcount (w h : Z) (v : cell → bool) : nat :=
  sum_list_with (fun c => if v c then 1%nat else 0%nat) (cells w h).

(** The bits that carving the passage from [a] (direction [d]) to [b]
    (direction [od] back) adds at the cell [c]. *)
Definition ebits (a : cell) (d : Z) (b : cell) (od : Z) (c : cell) : Z :=
  Z.lor (if decide (c = a) then d else 0) (if decide (c = b) then od else 0).

(** The invariant of a maze under construction: the marked cells form a
    tree rooted at [root], the unmarked cells are blank. *)
Record Grown (w h : Z) (root : cell) (m : cell → Z) (v : cell → bool)
  : Prop := {
  grown_root : inb w h root ∧ v root = true;
  grown_sym : symmetric w h m;
  grown_blank : ∀ c, inb w h c → v c = false → m c = 0;
  grown_conn : ∀ c, inb w h c → v c = true → rtc (passage w h m) root c;
  grown_count : S (ecount w h m) = vcount w h v
}.

(** *** Invariants of the generators *)

(** The cell an entry of [_neighbors] leads to. *)
Definition target (n : Z * Z * Z) : cell := (n.1.1, n.1.2).

(** The cells not yet marked. *)
Definition pending (w h : Z) (v : cell → bool) : nat :=
  (length (cells w h) - vcount w h v)%nat.

(** Recursive backtracker: the stack holds marked cells, each once, and a
    marked cell that has left the stack has no unmarked neighbour. *)
Record DfsInv (w h : Z) (root : cell) (g : Grid) (vis : list (list bool))
    (stack : list cell) : Prop := {
  dfs_rect_g : rect w h g;
  dfs_rect_v : rect w h vis;
  dfs_grown : Grown w h root (mask g) (marks vis);
  dfs_stack : ∀ c, c ∈ stack → inb w h c ∧ marks vis c = true;
  dfs_nodup : NoDup stack;
  dfs_done : ∀ c d, inb w h c → marks vis c = true → c ∉ stack →
    d ∈ directions → inb w h (step c d) → marks vis (step c d) = true
}.

(** Randomized Prim: every frontier entry leaves a marked cell along a
    direction that [_neighbors] yields, and every passage that could still
    be carved from a marked cell to an unmarked one is in the frontier. *)
Record PrimInv (w h : Z) (root : cell) (g : Grid) (in_maze : list (list bool))
    (frontier : list fedge) : Prop := {
  prim_rect_g : rect w h g;
  prim_rect_v : rect w h in_maze;
  prim_grown : Grown w h root (mask g) (marks in_maze);
  prim_frontier : ∀ x y nx ny d, (x, y, nx, ny, d) ∈ frontier →
    inb w h (x, y) ∧ marks in_maze (x, y) = true ∧ d ∈ directions ∧
    (nx, ny) = step (x, y) d ∧ inb w h (nx, ny);
  prim_complete : ∀ c d, inb w h c → marks in_maze c = true →
    d ∈ directions → inb w h (step c d) → marks in_maze (step c d) = false →
    (c.1, c.2, (step c d).1, (step c d).2, d) ∈ frontier
}.

(** Wilson, during a walk: [path_order] is the loop-erased walk so far, it
    ends at the current cell, [visited_in_walk] maps each of its cells to its
    position, the cells before the last are outside the maze, and
    [path_next] holds, for each cell before the last, a direction that leads
    to the next one. *)
Record WalkInv (w h : Z) (in_maze : list (list bool)) (cur : cell)
    (path_order : list cell) (path_next : gmap cell (cell * Z))
    (visited_in_walk : gmap cell nat) : Prop := {
  walk_last : last path_order = Some cur;
  walk_inb : ∀ c, c ∈ path_order → inb w h c;
  walk_nodup : NoDup path_order;
  walk_index : ∀ c i, visited_in_walk !! c = Some i ↔ path_order !! i = Some c;
  walk_outside : ∀ i c, path_order !! i = Some c →
    (S i < length path_order)%nat → marks in_maze c = false;
  walk_next : ∀ i c c', path_order !! i = Some c → path_order !! S i = Some c' →
    ∃ n d, path_next !! c = Some (n, d) ∧ d ∈ directions ∧ c' = step c d
}.

(** Each cell of the path but the last has in [path_next] a direction to
    the next cell. *)
Fixpoint linked (path_next : gmap cell (cell * Z)) (path : list cell) : Prop :=
  match path with
  | p0 :: ((p1 :: _) as rest) =>
      (∃ n d, path_next !! p0 = Some (n, d) ∧ d ∈ directions ∧ p1 = step p0 d)
      ∧ linked path_next rest
  | _ => True
  end.

(** The bits that carving the whole path adds at the cell [c]. *)
Fixpoint pbits (path_next : gmap cell (cell * Z)) (path : list cell) (c : cell)
  : Z :=
  match path with
  | p0 :: ((p1 :: _) as rest) =>
      match path_next !! p0 with
      | Some (_, d) =>
          Z.lor (ebits p0 d p1 (default 0 (OPPOSITE d)) c)
                (pbits path_next rest c)
      | None => pbits path_next rest c
      end
  | _ => 0
  end.

(** *** Invariant of the search *)

(** The bounds test of the solvers. *)
Definition inbb (w h : Z) (n : cell) : bool :=
  (0 <=? n.1) && (n.1 <? w) && (0 <=? n.2) && (n.2 <? h).

(** What one round of [for d in ...] does to the state, for the cell [c]
    popped at distance [cd]. *)
Definition relax_step (mk : cell → Z) (w h : Z) (c : cell) (cd : Z)
    (st : search) (d : Z) : search :=
  if decide (Z.land (mk c) d ≠ 0) then
    let n := step c d in
    if inbb w h n then
      if match dist st !! n with
         | None => true
         | Some old => cd + 1 <? old
         end
      then Search (<[n := cd + 1]> (dist st)) (<[n := Some c]> (prev st))
                  (Heapq.heappush (pq st) (cd + 1, n)) (visited st)
      else st
    else st
  else st.

(** The cell has a recorded distance. *)
Definition disc (st : search) (c : cell) : bool :=
  bool_decide (is_Some (dist st !! c)).

(** The cell has an entry in the queue. *)
Definition queued (st : search) (c : cell) : Prop := c ∈ (pq st).*2.

(** The order in which the queue releases its entries, as far as the
    distance goes. *)
Definition by_dist (a b : Heapq.item) : Prop := a.1 <= b.1.

(** Work left for the search loop. *)
Definition load (w h : Z) (st : search) : nat :=
  (length (pq st) + pending w h (disc st))%nat.

(** Breadth-first invariant at level [m]; [busy] is the cell whose
    neighbours are being relaxed, if any. *)
Record BfsInv (w h : Z) (mk : cell → Z) (start : cell) (busy : option cell)
    (m : Z) (st : search) : Prop := {
  bfs_start : dist st !! start = Some 0 ∧ prev st !! start = Some None;
  bfs_inb : ∀ c d, dist st !! c = Some d → inb w h c ∧ 0 <= d <= m + 1;
  bfs_prev : ∀ c d, dist st !! c = Some d → c ≠ start →
    ∃ p, prev st !! c = Some (Some p) ∧ dist st !! p = Some (d - 1)
         ∧ passage w h mk p c;
  bfs_dom : ∀ c, prev st !! c = None ↔ dist st !! c = None;
  bfs_pq : ∀ d c, (d, c) ∈ pq st → dist st !! c = Some d ∧ m <= d;
  bfs_nodup : NoDup (pq st).*2;
  bfs_sorted : StronglySorted by_dist (pq st);
  bfs_settled : ∀ c d, dist st !! c = Some d → ¬ queued st c → d <= m;
  bfs_closed : ∀ c n, is_Some (dist st !! c) → ¬ queued st c →
    busy ≠ Some c → passage w h mk c n → is_Some (dist st !! n);
  bfs_complete : ∀ k c, nsteps (passage w h mk) k start c → Z.of_nat k <= m →
    ∃ d, dist st !! c = Some d ∧ d <= Z.of_nat k;
  bfs_sound : ∀ c d, dist st !! c = Some d →
    nsteps (passage w h mk) (Z.to_nat d) start c;
  bfs_depth : ∀ c d, dist st !! c = Some d →
    d < Z.of_nat (vcount w h (disc st))
}.

(** The visited set of [dijkstra_solve] holds the cells that have a
    distance and have left the queue. *)
Definition VisOK (st : search) : Prop :=
  ∀ c, c ∈ visited st ↔ is_Some (dist st !! c) ∧ ¬ queued st c.

(** Two states that differ in the visited set only. *)
Definition same (st1 st2 : search) : Prop :=
  dist st1 = dist st2 ∧ prev st1 = prev st2 ∧ pq st1 = pq st2.

Definition same_outcome (o1 o2 : outcome search) : Prop :=
  match o1, o2 with
  | Ret a, Ret b => same a b
  | Raise e1, Raise e2 => e1 = e2
  | OutOfFuel, OutOfFuel => True
  | _, _ => False
  end.

(** [st'] extends [st]: the recorded distances are kept, the cells that
    gained a distance are queued, nothing else moved in or out of the queue,
    and the load is the same. *)
Record Ext (w h : Z) (st st' : search) : Prop := {
  ext_dist : ∀ x d, dist st !! x = Some d → dist st' !! x = Some d;
  ext_old : ∀ x, is_Some (dist st !! x) → (queued st' x ↔ queued st x);
  ext_new : ∀ x, dist st !! x = None → is_Some (dist st' !! x) → queued st' x;
  ext_visited : visited st' = visited st;
  ext_load : load w h st' = load w h st
}.

(** *** Finite graphs given by an edge list

    Used for the passage graph of a perfect maze: a connected graph with one
    edge less than it has vertices is a tree. *)

Section GraphDefs.
Context {V : Type} `{EqDecision V}.

(** Two vertices joined by an edge of the list, in either orientation. *)
Definition adj (es : list (V * V)) (a b : V) : Prop :=
  (a, b) ∈ es ∨ (b, a) ∈ es.

(** Consecutive elements of the list are related. *)
Fixpoint chain (R : V → V → Prop) (p : list V) : Prop :=
  match p with
  | a :: ((b :: _) as p') => R a b ∧ chain R p'
  | _ => True
  end.

Definition collapse (ra rb x : V) : V := if decide (x = ra) then rb else x.

(** Representatives of the connected components, merging along the edges
    one at a time. *)
Fixpoint reps (es : list (V * V)) : V → V :=
  match es with
  | [] => fun v => v
  | (a, b) :: es' =>
      fun v => collapse (reps es' a) (reps es' b) (reps es' v)
  end.

(** The edge list without the edge between [u] and [v]. *)
Definition without (u v : V) (es : list (V * V)) : list (V * V) :=
  filter (fun e => e ≠ (u, v) ∧ e ≠ (v, u)) es.

End GraphDefs.

(** The edges that [to_edges] lists for the cell [c] with mask [mc]. *)
Definition cedges (w h : Z) (c : cell) (mc : Z) : list (cell * cell) :=
  (if bool_decide (Z.land mc Dir.E ≠ 0) && (c.1 + 1 <? w)
   then [(c, (c.1 + 1, c.2))] else []) ++
  (if bool_decide (Z.land mc Dir.S ≠ 0) && (c.2 + 1 <? h)
   then [(c, (c.1, c.2 + 1))] else []).

(** All of them, in the order of [to_edges]. *)
Definition edges_of (w h : Z) (m : cell → Z) : list (cell * cell) :=
  c ← cells w h; cedges w h c (m c).

(** A checker for passage symmetry on a concrete grid. *)
Definition symmetricb (w h : Z) (g : Grid) : bool :=
  forallb (fun c =>
    forallb (fun d =>
      if Z.land (mask g c) d =? 0 then true
      else inbb w h (step c d) &&
           match OPPOSITE d with
           | Some od => negb (Z.land (mask g (step c d)) od =? 0)
           | None => false
           end) directions) (cells w h).

(** *** Random sequences with a chosen beginning *)




(** *** A concrete random source

    The generator of the examples: the draws after seeding with [s]. *)
Definition sample_source (s : Z) : rng :=
  fun i => (Z.to_nat s + i * 7 + i * i * i + i / 3)%nat.


(** Every mask of the grid is built from the four direction flags only. *)
Definition flags_only (g : Grid) : Prop :=
  Forall (Forall (fun m => 0 <= m <= 15)) g.


(** ** Rendering as text

    A Python [str] is the list of its characters. *)

Module Str.

Definition space : ascii := " "%char.
Definition underscore : ascii := "_"%char.
Definition bar : ascii := "|"%char.
Definition dot : ascii := "."%char.
Definition newline : ascii := "010"%char.

(** [sep.join(parts)] *)
Fixpoint join (sep : list ascii) (parts : list (list ascii)) : list ascii :=
  match parts with
  | [] => []
  | [p] => p
  | p :: rest => p ++ sep ++ join sep rest
  end.

(** The characters at which [str.splitlines] breaks a line, among the
    first 256 code points: LF, VT, FF, CR, FS, GS, RS and NEL. *)
Definition linebreak (c : ascii) : bool :=
  let n := nat_of_ascii c in
  (n =? 10)%nat || (n =? 11)%nat || (n =? 12)%nat || (n =? 13)%nat
  || (n =? 28)%nat || (n =? 29)%nat || (n =? 30)%nat || (n =? 133)%nat.

(** [s.splitlines()], with [cur] the line read so far: a line ends at a
    line break (CR LF counts once), and what follows the last break is a
    line when it is non-empty. *)
Fixpoint splitlines_from (s cur : list ascii) : list (list ascii) :=
  match s with
  | [] => match cur with [] => [] | _ => [cur] end
  | c :: s' =>
      if linebreak c then
        match s' with
        | c' :: s'' =>
            if (nat_of_ascii c =? 13)%nat && (nat_of_ascii c' =? 10)%nat
            then cur :: splitlines_from s'' []
            else cur :: splitlines_from s' []
        | [] => cur :: splitlines_from s' []
        end
      else splitlines_from s' (cur ++ [c])
  end.

Definition splitlines (s : list ascii) : list (list ascii) :=
  splitlines_from s [].

End Str.

(** The body of [for x in range(w)] in [render_ascii], for the row [y];
    [line] is the list of strings that ["".join(line)] concatenates. *)
Fixpoint render_row (grid : Grid) (h y : Z) (start end_ : option cell)
    (xs : list Z) (line : list (list ascii)) : outcome (list (list ascii)) :=
  match xs with
  | [] => Ret line
  | x :: xs' =>
      c ← Py.getitem2 grid x y;
      let floor := if decide (Z.land c Dir.S ≠ 0) then Str.space
                   else Str.underscore in
      let east_wall := if decide (Z.land c Dir.E ≠ 0) then Str.space
                       else Str.bar in
      floor ←
        (if y + 1 <? h then
           below ← Py.getitem2 grid x (y + 1);
           Ret (if decide (Z.land below Dir.N ≠ 0) then floor
                else Str.underscore)
         else Ret floor);
      let cell_char :=
        if decide (start = Some (x, y)) then "S"%char
        else if decide (end_ = Some (x, y)) then "E"%char
        else floor in
      render_row grid h y start end_ xs' (line ++ [[cell_char; east_wall]])
  end.

(** The body of [for y in range(h)]. *)
Fixpoint render_rows (grid : Grid) (h w : Z) (start end_ : option cell)
    (ys : list Z) (out : list (list ascii)) : outcome (list (list ascii)) :=
  match ys with
  | [] => Ret out
  | y :: ys' =>
      line ← render_row grid h y start end_ (Py.range w) [[Str.bar]];
      render_rows grid h w start end_ ys' (out ++ [concat line])
  end.

(** The list [out] of [render_ascii] before it is joined. *)
Definition render_lines (grid : Grid) (start end_ : option cell)
  : outcome (list (list ascii)) :=
  let h := Z.of_nat (length grid) in
  w ← (if decide (h ≠ 0) then row ← Py.getitem grid 0; Ret (Z.of_nat (length row))
       else Ret 0);
  render_rows grid h w start end_ (Py.range h)
    [Str.space :: replicate (Z.to_nat (2 * w - 1)) Str.underscore].

Definition render_ascii (grid : Grid) (start end_ : option cell)
  : outcome (list ascii) :=
  out ← render_lines grid start end_;
  Ret (Str.join [Str.newline] out).

(** [path[1:-1]] *)
Definition inner {A} (path : list A) : list A :=
  drop 1 (take (length path - 1) path).

(** [line[pos] in (" ", "_")] *)
Definition is_floor (c : ascii) : bool :=
  bool_decide (c = Str.space) || bool_decide (c = Str.underscore).

(** The loop of [mark_path_in_maze] (backup/solve_maze copy.py). *)
Fixpoint mark_loop (cs : list cell) (lines : list (list ascii))
  : outcome (list (list ascii)) :=
  match cs with
  | [] => Ret lines
  | (x, y) :: cs' =>
      row ← Py.getitem lines (y + 1);
      if 1 + 2 * x <? Z.of_nat (length row) then
        let pos := 1 + 2 * x in
        c ← Py.getitem row pos;
        line ← (if is_floor c then Py.setitem row pos Str.dot else Ret row);
        lines' ← Py.setitem lines (y + 1) line;
        mark_loop cs' lines'
      else mark_loop cs' lines
  end.

Definition mark_path_in_maze (grid : Grid) (path : list cell)
  : outcome (list ascii) :=
  s ← Py.getitem path 0;
  e ← Py.getitem path (-1);
  ascii_maze ← render_ascii grid (Some s) (Some e);
  lines ← mark_loop (inner path) (Str.splitlines ascii_maze);
  Ret (Str.join [Str.newline] lines).

(** The loop of [save_text_maze] (solve_maze.py). *)
Fixpoint save_loop (cs : list cell) (lines : list (list ascii))
  : outcome (list (list ascii)) :=
  match cs with
  | [] => Ret lines
  | (x, y) :: cs' =>
      row ← Py.getitem lines (y + 1);
      let pos := 1 + 2 * x in
      line ←
        (if pos <? Z.of_nat (length row) then
           c ← Py.getitem row pos;
           if is_floor c then Py.setitem row pos Str.dot else Ret row
         else Ret row);
      lines' ← Py.setitem lines (y + 1) line;
      save_loop cs' lines'
  end.

(** [save_text_maze]: the text [solved_text] that is written to the
    file. *)
Definition save_text_maze (grid : Grid) (path : list cell)
  : outcome (list ascii) :=
  s ← Py.getitem path 0;
  e ← Py.getitem path (-1);
  ascii_maze ← render_ascii grid (Some s) (Some e);
  lines ← save_loop (inner path) (Str.splitlines ascii_maze);
  Ret (Str.join [Str.newline] lines).


(** *** What the rendering shows

    The character that [render_ascii] puts below the cell [c]: a space when
    the cell is open to the south and, on every row but the last, the cell
    below is open to the north; an underscore otherwise. *)
Definition floor_char (h : Z) (m : cell → Z) (c : cell) : ascii :=
  let floor := if decide (Z.land (m c) Dir.S ≠ 0) then Str.space
               else Str.underscore in
  if c.2 + 1 <? h then
    if decide (Z.land (m (c.1, c.2 + 1)) Dir.N ≠ 0) then floor
    else Str.underscore
  else floor.

(** The character of the cell [c]: the start and the end are marked. *)
Definition cell_char (h : Z) (m : cell → Z) (start end_ : option cell)
    (c : cell) : ascii :=
  if decide (start = Some c) then "S"%char
  else if decide (end_ = Some c) then "E"%char
  else floor_char h m c.

(** The character to the east of the cell [c]. *)
Definition east_char (m : cell → Z) (c : cell) : ascii :=
  if decide (Z.land (m c) Dir.E ≠ 0) then Str.space else Str.bar.

(** The first line of the rendering. *)
Definition top_line (w : Z) : list ascii :=
  Str.space :: replicate (Z.to_nat (2 * w - 1)) Str.underscore.

(** The lines of a rendering of a [w] by [h] grid: the top line, then a
    line of [2 * w + 1] characters for each row, with the character [cc c]
    of the cell [c = (x, y)] at the index [1 + 2 * x] of the line [y + 1]
    and [ec c] after it. *)
Record Shaped (w h : Z) (cc ec : cell → ascii) (lines : list (list ascii))
  : Prop := {
  shaped_length : Z.of_nat (length lines) = h + 1;
  shaped_top : lines !! O = Some (top_line w);
  shaped_row : ∀ y, 0 <= y < h →
    ∃ line, lines !! Z.to_nat (y + 1) = Some line
            ∧ Z.of_nat (length line) = 2 * w + 1
            ∧ line !! O = Some Str.bar
            ∧ ∀ x, 0 <= x < w →
                line !! Z.to_nat (1 + 2 * x) = Some (cc (x, y))
                ∧ line !! Z.to_nat (2 + 2 * x) = Some (ec (x, y))
}.

(** Lines that [splitlines] gives back: none is empty and none holds a
    line break. *)
Definition plain (lines : list (list ascii)) : Prop :=
  Forall (fun line => line ≠ [] ∧ Forall (fun c => Str.linebreak c = false) line)
         lines.

(** The character of the cell [c] once the cells of [marked] have been
    overlaid. *)
Definition marked_char (cc : cell → ascii) (marked : list cell) (c : cell)
  : ascii :=
  if bool_decide (c ∈ marked) && is_floor (cc c) then Str.dot else cc c.


(** The line that [render_ascii] writes for the row [y]. *)
Definition row_text (w h : Z) (m : cell → Z) (start end_ : option cell)
    (y : Z) : list ascii :=
  concat ([Str.bar]
          :: ((fun x => [cell_char h m start end_ (x, y); east_char m (x, y)])
              <$> Py.range w)).


(** ** The generators with their effects

    What a call leaves behind besides its result: the state of the [random]
    module, which [random.seed] replaces and every draw advances, and the
    two-dimensional arrays ([grid], [visited], [in_maze]) that it has
    built.  A computation takes the world it finds and gives its outcome
    with the world it leaves; an exception leaves the world as it was when
    it was raised. *)
Module Effects.

Record world : Type := World {
  source : rng;
  arrays : nat
}.

Definition eff (A : Type) : Type := world → outcome A * world.

#[global] Instance eff_ret : MRet eff := fun A a σ => (Ret a, σ).

#[global] Instance eff_bind : MBind eff := fun A B k m σ =>
  match m σ with
  | (Ret a, σ') => k a σ'
  | (Raise e, σ') => (Raise e, σ')
  | (OutOfFuel, σ') => (OutOfFuel, σ')
  end.

(** A computation without effect. *)
Definition lift {A} (o : outcome A) : eff A := fun σ => (o, σ).

(** A draw: the source advances when the draw succeeds. *)
Definition draw {A} (f : rng → outcome (A * rng)) : eff A := fun σ =>
  match f (source σ) with
  | Ret (a, r') => (Ret a, World r' (arrays σ))
  | Raise e => (Raise e, σ)
  | OutOfFuel => (OutOfFuel, σ)
  end.

(** [random.randrange(n)] *)
Definition randrange (n : Z) : eff Z := draw (Random.randrange n).

(** [random.choice(seq)] *)
Definition choice {A} (l : list A) : eff A := draw (Random.choice l).

(** [[[v for _ in range(width)] for _ in range(height)]]: one more array. *)
Definition fresh {A} (width height : Z) (v : A) : eff (list (list A)) :=
  fun σ => (Ret (fresh width height v), World (source σ) (S (arrays σ))).

Section Generators.

Variable seeded : Z → rng.

(** [if seed is not None: random.seed(seed)] *)
Definition reseed (seed : option Z) : eff unit := fun σ =>
  match seed with
  | Some s => (Ret tt, World (seeded s) (arrays σ))
  | None => (Ret tt, σ)
  end.

Fixpoint dfs_loop (fuel : nat) (width height : Z) (grid : Grid)
    (visited : list (list bool)) (stack : list cell) : eff Grid :=
  match stack with
  | [] => mret grid
  | (x, y) :: below =>
      match fuel with
      | O => lift OutOfFuel
      | S fuel' =>
          options ← lift (unvisited visited (_neighbors x y width height));
          match options with
          | [] => dfs_loop fuel' width height grid visited below
          | _ :: _ =>
              '(nx, ny, d) ← choice options;
              match OPPOSITE d with
              | None => lift (Raise RuntimeError)
              | Some od =>
                  grid1 ← lift (ior grid x y (Ret d));
                  grid2 ← lift (ior grid1 nx ny (Ret od));
                  visited' ← lift (Py.setitem2 visited nx ny true);
                  dfs_loop fuel' width height grid2 visited'
                    ((nx, ny) :: stack)
              end
          end
      end
  end.

Definition generate_maze_dfs (fuel : nat) (width height : Z)
    (seed : option Z) : eff Grid :=
  if (width <=? 0) || (height <=? 0) then lift (Raise ValueError)
  else
    _ ← reseed seed;
    grid ← fresh width height 0;
    visited ← fresh width height false;
    x ← randrange width;
    y ← randrange height;
    visited ← lift (Py.setitem2 visited x y true);
    dfs_loop fuel width height grid visited [(x, y)].

Fixpoint prim_loop (fuel : nat) (width height : Z) (grid : Grid)
    (in_maze : list (list bool)) (frontier : list fedge) : eff Grid :=
  match frontier with
  | [] => mret grid
  | _ :: _ =>
      match fuel with
      | O => lift OutOfFuel
      | S fuel' =>
          i ← randrange (Z.of_nat (length frontier));
          '(x, y, nx, ny, d, frontier') ← lift (pop_at frontier i);
          absorbed ← lift (Py.getitem2 in_maze nx ny);
          if absorbed : bool
          then prim_loop fuel' width height grid in_maze frontier'
          else
            match OPPOSITE d with
            | None => lift (Raise RuntimeError)
            | Some od =>
                in_maze' ← lift (Py.setitem2 in_maze nx ny true);
                grid1 ← lift (ior grid x y (Ret d));
                grid2 ← lift (ior grid1 nx ny (Ret od));
                frontier'' ← lift (extend_frontier in_maze' nx ny
                                     (_neighbors nx ny width height) frontier');
                prim_loop fuel' width height grid2 in_maze' frontier''
            end
      end
  end.

Definition generate_maze_prim (fuel : nat) (width height : Z)
    (seed : option Z) : eff Grid :=
  if (width <=? 0) || (height <=? 0) then lift (Raise ValueError)
  else
    _ ← reseed seed;
    grid ← fresh width height 0;
    in_maze ← fresh width height false;
    x ← randrange width;
    y ← randrange height;
    in_maze ← lift (Py.setitem2 in_maze x y true);
    let frontier :=
      (fun n : Z * Z * Z => let '(nx, ny, d) := n in (x, y, nx, ny, d))
        <$> _neighbors x y width height in
    prim_loop fuel width height grid in_maze frontier.

Fixpoint wilson_walk (fuel : nat) (width height : Z)
    (in_maze : list (list bool)) (cx cy : Z) (path_order : list cell)
    (path_next : gmap cell (cell * Z)) (visited_in_walk : gmap cell nat)
  : eff (list cell * gmap cell (cell * Z)) :=
  reached ← lift (Py.getitem2 in_maze cx cy);
  if reached : bool then mret (path_order, path_next)
  else
    match fuel with
    | O => lift OutOfFuel
    | S fuel' =>
        '(nx, ny, d) ← choice (_neighbors cx cy width height);
        let '(path_order', visited_in_walk') :=
          match visited_in_walk !! (nx, ny) with
          | Some loop_start_idx =>
              (take (loop_start_idx + 1) path_order,
               forget (drop (loop_start_idx + 1) path_order) visited_in_walk)
          | None =>
              let appended := path_order ++ [(nx, ny)] in
              (appended,
               <[(nx, ny) := (length appended - 1)%nat]> visited_in_walk)
          end in
        wilson_walk fuel' width height in_maze nx ny path_order'
          (<[(cx, cy) := ((nx, ny), d)]> path_next) visited_in_walk'
    end.

Fixpoint wilson_loop (fuel walk_fuel : nat) (width height : Z) (grid : Grid)
    (in_maze : list (list bool)) : eff Grid :=
  pool ← lift (remaining_cells in_maze (cells width height));
  match pool with
  | [] => mret grid
  | _ :: _ =>
      match fuel with
      | O => lift OutOfFuel
      | S fuel' =>
          '(sx, sy) ← choice pool;
          '(path_order, path_next) ←
            wilson_walk walk_fuel width height in_maze sx sy [(sx, sy)] ∅
              {[ (sx, sy) := 0%nat ]};
          '(grid', in_maze') ←
            lift (wilson_carve path_order path_next grid in_maze);
          wilson_loop fuel' walk_fuel width height grid' in_maze'
      end
  end.

Definition generate_maze_wilson (fuel : nat) (width height : Z)
    (seed : option Z) : eff Grid :=
  if (width <=? 0) || (height <=? 0) then lift (Raise ValueError)
  else
    _ ← reseed seed;
    grid ← fresh width height 0;
    in_maze ← fresh width height false;
    start_x ← randrange width;
    start_y ← randrange height;
    in_maze ← lift (Py.setitem2 in_maze start_x start_y true);
    wilson_loop fuel fuel width height grid in_maze.

End Generators.

End Effects.


(** * Proofs *)

(** ** Python indexing inside the bounds *)

Section Indexing.
Context {A : Type}.
Implicit Types (l : list A).

Lemma getitem_in_range l i :
  0 <= i < Z.of_nat (length l) →
  ∃ a, l !! Z.to_nat i = Some a ∧ Py.getitem l i = Ret a.
Proof.
  intros Hi. destruct (lookup_lt_is_Some_2 l (Z.to_nat i)) as [a Ha]; [lia|].
  exists a. split; [done|]. unfold Py.getitem.
  destruct (Z.ltb_spec i 0); [lia|].
  destruct (Z.leb_spec 0 i); [|lia].
  destruct (Z.ltb_spec i (Z.of_nat (length l))); [|lia].
  simpl. by rewrite Ha.
Qed.

Lemma getitem_out_of_range l i :
  Z.of_nat (length l) <= i → Py.getitem l i = Raise IndexError.
Proof.
  intros Hi. unfold Py.getitem.
  destruct (Z.ltb_spec i 0); [lia|].
  destruct (Z.ltb_spec i (Z.of_nat (length l))); [lia|].
  by rewrite andb_false_r.
Qed.

Lemma setitem_in_range l i v :
  0 <= i < Z.of_nat (length l) →
  Py.setitem l i v = Ret (<[Z.to_nat i := v]> l).
Proof.
  intros Hi. unfold Py.setitem.
  destruct (Z.ltb_spec i 0); [lia|].
  destruct (Z.leb_spec 0 i); [|lia].
  by destruct (Z.ltb_spec i (Z.of_nat (length l))); [|lia].
Qed.

End Indexing.

Section Indexing2.
Context {A : Type}.
Implicit Types (g : list (list A)) (c : cell).

Lemma rect_row w h g y :
  rect w h g → 0 <= y < h →
  ∃ row, g !! Z.to_nat y = Some row ∧ Z.of_nat (length row) = w.
Proof.
  intros [Hh Hw] Hy.
  destruct (lookup_lt_is_Some_2 g (Z.to_nat y)) as [row Hrow]; [lia|].
  exists row. split; [done|].
  by apply (Forall_lookup_1 _ _ _ _ Hw Hrow).
Qed.

Lemma rect_entry w h g c :
  rect w h g → inb w h c →
  ∃ row a, g !! Z.to_nat c.2 = Some row ∧ Z.of_nat (length row) = w ∧
           row !! Z.to_nat c.1 = Some a.
Proof.
  intros Hr [Hx Hy]. destruct (rect_row w h g c.2 Hr Hy) as (row & Hrow & Hlen).
  destruct (lookup_lt_is_Some_2 row (Z.to_nat c.1)) as [a Ha]; [lia|].
  by exists row, a.
Qed.

Lemma getitem2_rect dflt w h g c :
  rect w h g → inb w h c → Py.getitem2 g c.1 c.2 = Ret (at2 dflt g c).
Proof.
  intros Hr Hc. destruct (rect_entry w h g c Hr Hc) as (row & a & Hrow & Hlen & Ha).
  destruct Hr as [Hh _]. destruct Hc as [Hx Hy].
  unfold Py.getitem2, at2.
  destruct (getitem_in_range g c.2) as (row' & Hrow' & ->); [lia|].
  simplify_eq. simpl.
  destruct (getitem_in_range row c.1) as (a' & Ha' & ->); [lia|].
  rewrite Hrow. simpl. rewrite Ha. simpl. congruence.
Qed.

Lemma setitem2_rect w h g c v :
  rect w h g → inb w h c → Py.setitem2 g c.1 c.2 v = Ret (put2 g c v).
Proof.
  intros Hr Hc. destruct (rect_entry w h g c Hr Hc) as (row & a & Hrow & Hlen & Ha).
  destruct Hr as [Hh _]. destruct Hc as [Hx Hy].
  unfold Py.setitem2, put2.
  destruct (getitem_in_range g c.2) as (row' & Hrow' & ->); [lia|].
  simplify_eq. simpl.
  rewrite setitem_in_range by lia. simpl.
  rewrite setitem_in_range by lia. f_equal.
  apply list_eq. intros i. destruct (decide (i = Z.to_nat c.2)) as [->|Hne].
  - rewrite list_lookup_insert_eq, list_lookup_alter_eq, Hrow by lia. done.
  - by rewrite list_lookup_insert_ne, list_lookup_alter_ne.
Qed.

Lemma rect_put2 w h g c v : rect w h g → rect w h (put2 g c v).
Proof.
  intros [Hh Hw]. split.
  - unfold put2. by rewrite length_alter.
  - unfold put2. apply Forall_alter; [done|].
    intros row Hrow Hlen. by rewrite length_insert.
Qed.

Lemma at2_put2_eq dflt w h g c v :
  rect w h g → inb w h c → at2 dflt (put2 g c v) c = v.
Proof.
  intros Hr Hc. destruct (rect_entry w h g c Hr Hc) as (row & a & Hrow & Hlen & Ha).
  unfold at2, put2. rewrite list_lookup_alter_eq, Hrow. simpl.
  rewrite list_lookup_insert_eq; [done|]. destruct Hc. lia.
Qed.

Lemma at2_put2_ne dflt w h g c c' v :
  inb w h c → inb w h c' → c ≠ c' → at2 dflt (put2 g c v) c' = at2 dflt g c'.
Proof.
  intros [Hx Hy] [Hx' Hy'] Hne. unfold at2, put2.
  destruct (decide (Z.to_nat c.2 = Z.to_nat c'.2)) as [Heq|Hney].
  - rewrite <- Heq, list_lookup_alter_eq.
    destruct (g !! Z.to_nat c.2) as [row|]; [|done]. simpl.
    rewrite list_lookup_insert_ne; [done|].
    intros Hxx. apply Hne. destruct c, c'. simpl in *. f_equal; lia.
  - by rewrite list_lookup_alter_ne.
Qed.

Lemma rect_fresh w h (v : A) : 0 <= w → 0 <= h → rect w h (fresh w h v).
Proof.
  intros Hw Hh. unfold fresh, Py.range. split.
  - rewrite length_fmap, length_seqZ. lia.
  - apply Forall_fmap, Forall_forall. intros y _. simpl.
    rewrite length_fmap, length_seqZ. lia.
Qed.

Lemma at2_fresh dflt w h (v : A) c : inb w h c → at2 dflt (fresh w h v) c = v.
Proof.
  intros [Hx Hy]. unfold at2, fresh, Py.range.
  rewrite list_lookup_fmap, lookup_seqZ_lt by lia. simpl.
  by rewrite list_lookup_fmap, lookup_seqZ_lt by lia.
Qed.

End Indexing2.

Lemma ior_rect w h (g : Grid) c bits :
  rect w h g → inb w h c →
  ior g c.1 c.2 (Ret bits) = Ret (put2 g c (Z.lor (at2 0 g c) bits)).
Proof.
  intros Hr Hc. destruct (rect_entry w h g c Hr Hc) as (row & a & Hrow & Hlen & Ha).
  rewrite <- (setitem2_rect w h g c _ Hr Hc).
  destruct Hr as [Hh _]. destruct Hc as [Hx Hy].
  unfold ior, Py.setitem2, at2.
  destruct (getitem_in_range g c.2) as (row' & Hrow' & ->); [lia|].
  simplify_eq. simpl.
  destruct (getitem_in_range row c.1) as (a' & Ha' & ->); [lia|].
  simpl. rewrite Hrow. simpl. by rewrite Ha'.
Qed.

(** ** Directions and bits *)

Lemma elem_of_directions d :
  d ∈ directions ↔ d = Dir.N ∨ d = Dir.S ∨ d = Dir.E ∨ d = Dir.W.
Proof.
  unfold directions. rewrite !elem_of_cons, elem_of_nil. tauto.
Qed.

Ltac dir_cases H :=
  apply elem_of_directions in H;
  unfold Dir.N, Dir.S, Dir.E, Dir.W in H;
  destruct H as [H|[H|[H|H]]]; try discriminate H; try subst.

Lemma OPPOSITE_directions d od :
  OPPOSITE d = Some od → d ∈ directions ∧ od ∈ directions.
Proof.
  unfold OPPOSITE. rewrite !elem_of_directions.
  repeat case_decide; intros; simplify_eq; tauto.
Qed.

Lemma OPPOSITE_is_Some d : d ∈ directions → is_Some (OPPOSITE d).
Proof. intros Hd. dir_cases Hd; by eexists. Qed.

Lemma OPPOSITE_involutive d od : OPPOSITE d = Some od → OPPOSITE od = Some d.
Proof.
  unfold OPPOSITE. repeat case_decide; intros; simplify_eq; done.
Qed.

Lemma step_OPPOSITE c d od : OPPOSITE d = Some od → step (step c d) od = c.
Proof.
  destruct c as [x y]. unfold OPPOSITE, step.
  repeat case_decide; intros; simplify_eq; simpl; f_equal; lia.
Qed.

Lemma step_ne c d : d ∈ directions → step c d ≠ c.
Proof.
  destruct c as [x y]. intros Hd. dir_cases Hd; unfold step; simpl; intros [=]; lia.
Qed.

Lemma step_inj c d d' :
  d ∈ directions → d' ∈ directions → step c d = step c d' → d = d'.
Proof.
  destruct c as [x y]. intros Hd Hd'.
  dir_cases Hd; dir_cases Hd'; unfold step; simpl; intros [=]; try done; lia.
Qed.

Lemma land_lor_same m d : d ∈ directions → Z.land (Z.lor m d) d ≠ 0.
Proof.
  intros Hd. rewrite Z.land_lor_distr_l, Z.land_diag.
  intros [_ ->]%Z.lor_eq_0_iff. by dir_cases Hd.
Qed.

Lemma land_lor_other m d d' :
  d ∈ directions → d' ∈ directions → d ≠ d' →
  Z.land (Z.lor m d) d' = Z.land m d'.
Proof.
  intros Hd Hd' Hne. rewrite Z.land_lor_distr_l.
  replace (Z.land d d') with 0; [apply Z.lor_0_r|].
  dir_cases Hd; dir_cases Hd'; done.
Qed.

Lemma land_dir_dir d d' :
  d ∈ directions → d' ∈ directions → Z.land d d' ≠ 0 → d = d'.
Proof. intros Hd Hd'. dir_cases Hd; dir_cases Hd'; done. Qed.

Lemma land_lor_mono m bits d : Z.land m d ≠ 0 → Z.land (Z.lor m bits) d ≠ 0.
Proof.
  rewrite Z.land_lor_distr_l. intros Hm [? _]%Z.lor_eq_0_iff. done.
Qed.

(** ** Neighbour enumeration *)

Lemma elem_of_neighbors w h c n d :
  inb w h c →
  (n.1, n.2, d) ∈ _neighbors c.1 c.2 w h ↔
  d ∈ directions ∧ n = step c d ∧ inb w h n.
Proof.
  destruct c as [x y], n as [nx ny]. unfold inb, _neighbors, step. simpl.
  intros [Hx Hy]. rewrite !elem_of_app, elem_of_directions. split.
  - intros [H|[H|[H|H]]]; revert H; case_match; rewrite ?elem_of_nil,
      ?list_elem_of_singleton; try done; intros [= -> -> ->]; simpl;
      (split; [tauto|split; [f_equal; lia|lia]]).
  - intros ([-> | [-> | [-> | ->]]] & [= -> ->] & Hn); simpl in *.
    + left. destruct (Z.ltb_spec 0 y); [|lia].
      apply list_elem_of_singleton. repeat f_equal; lia.
    + right; left. destruct (Z.ltb_spec y (h - 1)); [|lia].
      apply list_elem_of_singleton. repeat f_equal; lia.
    + do 3 right. destruct (Z.ltb_spec x (w - 1)); [|lia].
      apply list_elem_of_singleton. repeat f_equal; lia.
    + do 2 right; left. destruct (Z.ltb_spec 0 x); [|lia].
      apply list_elem_of_singleton. repeat f_equal; lia.
Qed.

Lemma neighbors_length x y w h : (length (_neighbors x y w h) <= 4)%nat.
Proof.
  unfold _neighbors. rewrite !length_app.
  repeat case_match; simpl; lia.
Qed.

(** ** The cells of a grid *)

Lemma elem_of_cells w h c : c ∈ cells w h ↔ inb w h c.
Proof.
  unfold cells, inb, Py.range. rewrite list_elem_of_bind. split.
  - intros (y & (x & Hc & Hx%elem_of_seqZ)%list_elem_of_bind & Hy%elem_of_seqZ).
    apply list_elem_of_singleton in Hc as ->. simpl. lia.
  - intros [Hx Hy]. exists c.2. rewrite elem_of_seqZ. split; [|lia].
    apply list_elem_of_bind. exists c.1. rewrite elem_of_seqZ.
    split; [|lia]. apply list_elem_of_singleton. by destruct c.
Qed.

Lemma NoDup_cells w h : NoDup (cells w h).
Proof.
  unfold cells, Py.range. apply NoDup_bind; [| |apply NoDup_seqZ].
  - intros y y' c Hy Hy' (x & Hc & _)%list_elem_of_bind (x' & Hc' & _)%list_elem_of_bind.
    apply list_elem_of_singleton in Hc, Hc'. congruence.
  - intros y _. apply NoDup_bind; [| |apply NoDup_seqZ].
    + intros x x' c _ _ Hc Hc'. apply list_elem_of_singleton in Hc, Hc'. congruence.
    + intros x _. apply NoDup_singleton.
Qed.

Lemma length_bind_const {A B} (f : A → list B) (l : list A) n :
  (∀ a, length (f a) = n) → length (l ≫= f) = (length l * n)%nat.
Proof.
  intros Hf. induction l as [|a l IH]; [done|].
  rewrite bind_cons, length_app, IH, Hf. simpl. lia.
Qed.

Lemma length_cells w h :
  0 <= w → 0 <= h → Z.of_nat (length (cells w h)) = w * h.
Proof.
  intros Hw Hh. unfold cells, Py.range.
  rewrite (length_bind_const _ _ (Z.to_nat w)).
  - rewrite length_seqZ. lia.
  - intros y. rewrite (length_bind_const _ _ 1%nat); [|done].
    rewrite length_seqZ. lia.
Qed.

(** ** Counting under a change at one cell *)

Lemma sum_list_with_ext_in {A} (f f' : A → nat) (l : list A) :
  (∀ c, c ∈ l → f' c = f c) → sum_list_with f' l = sum_list_with f l.
Proof.
  induction l as [|x l IH]; [done|]. intros Hf. simpl.
  rewrite Hf by left. rewrite IH; [done|]. intros c Hc. apply Hf. by right.
Qed.

Lemma sum_list_with_change {A} (f f' : A → nat) (l : list A) a :
  NoDup l → a ∈ l → (∀ c, c ∈ l → c ≠ a → f' c = f c) →
  (sum_list_with f' l + f a = sum_list_with f l + f' a)%nat.
Proof.
  induction l as [|x l IH]; [by intros _ ?%elem_of_nil|].
  intros [Hx Hl]%NoDup_cons [->|Ha]%elem_of_cons Hf; simpl.
  - rewrite (sum_list_with_ext_in f f' l); [lia|].
    intros c Hc. apply Hf; [by right|]. by intros ->.
  - rewrite (Hf x); [|by left|by intros ->].
    specialize (IH Hl Ha). ospecialize* IH.
    { intros c Hc. apply Hf. by right. }
    lia.
Qed.

Lemma ecount_ext w h m m' :
  (∀ c, inb w h c → m' c = m c) → ecount w h m' = ecount w h m.
Proof.
  intros Hm. apply sum_list_with_ext_in. intros c Hc%elem_of_cells.
  by rewrite Hm.
Qed.

Lemma vcount_ext w h (v v' : cell → bool) :
  (∀ c, inb w h c → v' c = v c) → vcount w h v' = vcount w h v.
Proof.
  intros Hv. apply sum_list_with_ext_in. intros c Hc%elem_of_cells.
  by rewrite Hv.
Qed.

Lemma vcount_mark w h (v v' : cell → bool) b :
  inb w h b → v b = false →
  (∀ c, inb w h c → v' c = if decide (c = b) then true else v c) →
  vcount w h v' = S (vcount w h v).
Proof.
  intros Hb Hvb Hv'. unfold vcount.
  pose proof (sum_list_with_change
    (fun c => if v c then 1%nat else 0%nat)
    (fun c => if v' c then 1%nat else 0%nat) (cells w h) b
    (NoDup_cells w h)) as Hsum.
  ospecialize* Hsum.
  { by apply elem_of_cells. }
  { intros c Hc%elem_of_cells Hne. rewrite Hv' by done. by rewrite decide_False. }
  simpl in Hsum. rewrite Hvb, (Hv' b Hb), decide_True in Hsum by done. lia.
Qed.

Lemma vcount_le w h v : Z.of_nat (vcount w h v) <= Z.of_nat (length (cells w h)).
Proof.
  unfold vcount. induction (cells w h) as [|c l IH]; simpl; [lia|].
  destruct (v c); lia.
Qed.

Lemma vcount_full w h (v : cell → bool) :
  (∀ c, inb w h c → v c = true) → vcount w h v = length (cells w h).
Proof.
  intros Hv. unfold vcount.
  assert (∀ c, c ∈ cells w h → v c = true) as Hall.
  { intros c Hc%elem_of_cells. auto. }
  induction (cells w h) as [|c l IH]; simpl; [done|].
  rewrite Hall by left. rewrite IH; [done|]. intros c' Hc'. apply Hall. by right.
Qed.

Lemma vcount_missing w h (v : cell → bool) b :
  inb w h b → v b = false → (vcount w h v < length (cells w h))%nat.
Proof.
  intros Hb Hvb.
  pose proof (vcount_mark w h v (fun c => if decide (c = b) then true else v c)
    b Hb Hvb (fun _ _ => eq_refl)) as Hmark.
  pose proof (vcount_le w h (fun c => if decide (c = b) then true else v c)).
  lia.
Qed.

Lemma ecount_cell_blank w h c : ecount_cell w h c 0 = 0%nat.
Proof. done. Qed.

Lemma ecount_cell_carve w h a d od ma :
  d ∈ directions → OPPOSITE d = Some od → inb w h a → inb w h (step a d) →
  Z.land ma d = 0 →
  (ecount_cell w h a (Z.lor ma d) + ecount_cell w h (step a d) od
   = S (ecount_cell w h a ma))%nat.
Proof.
  destruct a as [x y]. unfold inb, step. simpl.
  intros Hd Hod [Hx Hy] [Hnx Hny] Hbit.
  unfold ecount_cell, Dir.E, Dir.S. simpl.
  dir_cases Hd; simpl in *; unfold OPPOSITE in Hod; simpl in Hod;
    simplify_eq; unfold Dir.N, Dir.S, Dir.E, Dir.W in *;
    rewrite !Z.land_lor_distr_l, ?Hbit; simpl; rewrite ?Z.lor_0_r;
    repeat (rewrite bool_decide_eq_true_2 by done);
    repeat (rewrite bool_decide_eq_false_2 by (intros Hn; by apply Hn));
    repeat match goal with
    | |- context [?a <? ?b] => destruct (Z.ltb_spec a b); try lia
    end;
    repeat case_bool_decide; simpl; lia.
Qed.

(** ** Carving one passage preserves the invariant *)

Lemma open_to_ebits m m' a d b od c d' :
  m' c = Z.lor (m c) (ebits a d b od c) → open_to m c d' → open_to m' c d'.
Proof. unfold open_to. intros ->. apply land_lor_mono. Qed.

Lemma passage_mono w h m m' a d b od :
  (∀ c, inb w h c → m' c = Z.lor (m c) (ebits a d b od c)) →
  ∀ x y, passage w h m x y → passage w h m' x y.
Proof.
  intros Hm' x y (Hx & Hy & d' & Hd' & Hopen & ->).
  split; [done|]. split; [done|]. exists d'. split; [done|]. split; [|done].
  eapply open_to_ebits; [|done]. by apply Hm'.
Qed.

Lemma rtc_passage_mono w h m m' a d b od :
  (∀ c, inb w h c → m' c = Z.lor (m c) (ebits a d b od c)) →
  ∀ x y, rtc (passage w h m) x y → rtc (passage w h m') x y.
Proof.
  intros Hm' x y Hxy. eapply rtc_subrel; [|done].
  intros ??. by eapply passage_mono.
Qed.

Lemma Grown_carve w h root m v a d b od m' v' :
  Grown w h root m v →
  inb w h a → v a = true → d ∈ directions → b = step a d → inb w h b →
  OPPOSITE d = Some od → v b = false →
  (∀ c, inb w h c → m' c = Z.lor (m c) (ebits a d b od c)) →
  (∀ c, inb w h c → v' c = if decide (c = b) then true else v c) →
  Grown w h root m' v'.
Proof.
  intros [[Hroot Hvroot] Hsym Hblank Hconn Hcount] Ha Hva Hd -> Hb Hod Hvb Hm' Hv'.
  destruct (OPPOSITE_directions _ _ Hod) as [_ Hodd].
  assert (a ≠ step a d) as Hab by (intros Heq; rewrite <- Heq in Hvb; congruence).
  assert (m (step a d) = 0) as Hmb by auto.
  assert (m' a = Z.lor (m a) d) as Hm'a.
  { rewrite Hm' by done. unfold ebits. rewrite decide_True, decide_False by done.
    by rewrite Z.lor_0_r. }
  assert (m' (step a d) = od) as Hm'b.
  { rewrite Hm' by done. unfold ebits. rewrite Hmb, decide_False, decide_True by done.
    done. }
  assert (∀ c, inb w h c → c ≠ a → c ≠ step a d → m' c = m c) as Hm'c.
  { intros c Hc Hca Hcb. rewrite Hm' by done. unfold ebits.
    rewrite !decide_False by done. by rewrite Z.lor_0_r. }
  assert (Z.land (m a) d = 0) as Hclosed.
  { destruct (decide (Z.land (m a) d = 0)) as [|Hopen]; [done|].
    destruct (Hsym a d Ha Hd Hopen) as (_ & od' & Hod' & Hback).
    unfold open_to in Hback. rewrite Hmb in Hback. done. }
  split.
  - split; [done|]. rewrite Hv' by done. case_decide; done.
  - intros c d' Hc Hd' Hopen.
    destruct (decide (c = a ∧ d' = d)) as [[-> ->]|Hother].
    { split; [done|]. exists od. split; [done|]. unfold open_to.
      rewrite Hm'b. by dir_cases Hodd. }
    destruct (decide (c = step a d)) as [->|Hcb].
    { unfold open_to in Hopen. rewrite Hm'b in Hopen.
      apply land_dir_dir in Hopen as <-; [|done..].
      rewrite (step_OPPOSITE _ _ _ Hod). split; [done|].
      exists d. split; [by apply OPPOSITE_involutive|].
      unfold open_to. rewrite Hm'a. by apply land_lor_same. }
    assert (open_to m c d') as Hold.
    { destruct (decide (c = a)) as [->|Hca].
      - unfold open_to in *. rewrite Hm'a in Hopen.
        rewrite land_lor_other in Hopen; [done..|]. intros ->. by apply Hother.
      - unfold open_to in *. by rewrite Hm'c in Hopen. }
    destruct (Hsym c d' Hc Hd' Hold) as (Hin & od' & Hod' & Hback).
    split; [done|]. exists od'. split; [done|].
    eapply open_to_ebits; [|done]. by apply Hm'.
  - intros c Hc Hvc. rewrite Hv' in Hvc by done. case_decide; [done|].
    destruct (decide (c = a)) as [->|Hca]; [congruence|].
    rewrite Hm'c by done. auto.
  - intros c Hc Hvc. rewrite Hv' in Hvc by done.
    case_decide as Hcb.
    + subst c. apply rtc_r with a.
      * eapply rtc_passage_mono; [exact Hm'|]. by apply Hconn.
      * split; [done|]. split; [done|]. exists d. split; [done|]. split; [|done].
        unfold open_to. rewrite Hm'a. by apply land_lor_same.
    + eapply rtc_passage_mono; [exact Hm'|]. by apply Hconn.
  - rewrite (vcount_mark w h v v' (step a d)) by done. rewrite <- Hcount. f_equal.
    set (m1 := fun c => if decide (c = a) then Z.lor (m a) d else m c).
    pose proof (sum_list_with_change
      (fun c => ecount_cell w h c (m c)) (fun c => ecount_cell w h c (m1 c))
      (cells w h) a (NoDup_cells w h)) as H1.
    ospecialize* H1.
    { by apply elem_of_cells. }
    { intros c _ Hca. unfold m1. by rewrite decide_False. }
    pose proof (sum_list_with_change
      (fun c => ecount_cell w h c (m1 c)) (fun c => ecount_cell w h c (m' c))
      (cells w h) (step a d) (NoDup_cells w h)) as H2.
    ospecialize* H2.
    { by apply elem_of_cells. }
    { intros c Hc%elem_of_cells Hcb. unfold m1. case_decide as Hca.
      - subst c. by rewrite Hm'a.
      - by rewrite Hm'c. }
    simpl in H1, H2. unfold m1 in H1, H2.
    rewrite decide_True in H1 by done.
    rewrite decide_False, Hmb, Hm'b, ecount_cell_blank in H2 by done.
    pose proof (ecount_cell_carve w h a d od (m a) Hd Hod Ha Hb Hclosed).
    unfold ecount. fold m1 in H1, H2. lia.
Qed.

(** ** [to_edges] counts what [ecount] counts *)

Lemma cell_edges_spec w h c m acc :
  inb w h c →
  ∃ l, cell_edges w h c.1 c.2 m [Dir.N; Dir.E; Dir.S; Dir.W] acc = Ret (acc ++ l)
       ∧ length l = ecount_cell w h c m.
Proof.
  destruct c as [x y]. unfold inb. simpl. intros [Hx Hy].
  unfold cell_edges, ecount_cell, tuple_ltb, Dir.N, Dir.E, Dir.S, Dir.W. simpl.
  replace (x + 0) with x by lia. replace (y + 0) with y by lia.
  rewrite !Z.ltb_irrefl, !Z.eqb_refl. simpl.
  replace (x + -1 <? x) with true by (symmetry; apply Z.ltb_lt; lia).
  replace (x <? x + -1) with false by (symmetry; apply Z.ltb_ge; lia).
  replace (y <? y + -1) with false by (symmetry; apply Z.ltb_ge; lia).
  replace (x <? x + 1) with true by (symmetry; apply Z.ltb_lt; lia).
  replace (y <? y + 1) with true by (symmetry; apply Z.ltb_lt; lia).
  replace (x + -1 =? x) with false by (symmetry; apply Z.eqb_neq; lia).
  replace (0 <=? x) with true by (symmetry; apply Z.leb_le; lia).
  replace (0 <=? y) with true by (symmetry; apply Z.leb_le; lia).
  replace (0 <=? x + 1) with true by (symmetry; apply Z.leb_le; lia).
  replace (0 <=? y + 1) with true by (symmetry; apply Z.leb_le; lia).
  replace (x <? w) with true by (symmetry; apply Z.ltb_lt; lia).
  replace (y <? h) with true by (symmetry; apply Z.ltb_lt; lia).
  simpl. rewrite !andb_false_r, ?andb_true_r. simpl.
  repeat case_decide; repeat case_bool_decide; try done; simpl;
    destruct (x + 1 <? w), (y + 1 <? h); simpl;
    first [ exists []; rewrite app_nil_r; done
          | eexists [_]; done
          | eexists [_; _]; rewrite <- app_assoc; done ].
Qed.

Lemma edges_from_spec w h (g : Grid) cs acc :
  rect w h g → (∀ c, c ∈ cs → inb w h c) →
  ∃ l, edges_from g w h cs acc = Ret (acc ++ l)
       ∧ length l = sum_list_with (fun c => ecount_cell w h c (mask g c)) cs.
Proof.
  intros Hr. revert acc. induction cs as [|c cs IH]; intros acc Hcs.
  { exists []. by rewrite app_nil_r. }
  assert (inb w h c) as Hc by (apply Hcs; left).
  destruct c as [x y]. simpl.
  pose proof (getitem2_rect 0 w h g (x, y) Hr Hc) as Hget.
  simpl in Hget. rewrite Hget. simpl.
  destruct (cell_edges_spec w h (x, y) (at2 0 g (x, y)) acc Hc) as (l1 & Hce & Hl1).
  simpl in Hce. rewrite Hce. simpl. destruct (IH (acc ++ l1)) as (l2 & -> & Hl2).
  { intros c' Hc'. apply Hcs. by right. }
  exists (l1 ++ l2). rewrite app_assoc. split; [done|].
  rewrite length_app, Hl1, Hl2. done.
Qed.

Lemma to_edges_spec w h (g : Grid) :
  0 < w → 0 < h → rect w h g →
  ∃ es, to_edges g = Ret es ∧ length es = ecount w h (mask g).
Proof.
  intros Hw Hh Hr. unfold to_edges.
  destruct (rect_row w h g 0 Hr) as (row & Hrow & Hlen); [lia|].
  pose proof Hr as [Hlg Hrows].
  rewrite decide_True by lia.
  destruct (getitem_in_range g 0) as (row' & Hrow' & ->); [lia|].
  rewrite Hrow in Hrow'. injection Hrow' as <-. simpl. rewrite Hlg, Hlen.
  destruct (edges_from_spec w h g (cells w h) []) as (l & -> & Hl).
  { done. }
  { intros c. by rewrite elem_of_cells. }
  by exists l.
Qed.

(** ** The grid is connected as a lattice *)

Lemma lattice_closed w h (P : cell → Prop) root :
  inb w h root → P root →
  (∀ c d, inb w h c → P c → d ∈ directions → inb w h (step c d) → P (step c d)) →
  ∀ c, inb w h c → P c.
Proof.
  destruct root as [rx ry]. unfold inb. simpl. intros [Hrx Hry] Hroot Hstep.
  assert (∀ n x, Z.to_nat (Z.abs (x - rx)) = n → 0 <= x < w → P (x, ry)) as Hrow.
  { induction n as [|n IH]; intros x Hn Hx.
    - replace x with rx by lia. done.
    - destruct (decide (rx < x)).
      + replace (x, ry) with (step (x - 1, ry) Dir.E)
          by (unfold step; simpl; f_equal; lia).
        apply Hstep; simpl; [lia|apply IH; lia|apply elem_of_directions; tauto|].
        unfold step; simpl; lia.
      + replace (x, ry) with (step (x + 1, ry) Dir.W)
          by (unfold step; simpl; f_equal; lia).
        apply Hstep; simpl; [lia|apply IH; lia|apply elem_of_directions; tauto|].
        unfold step; simpl; lia. }
  assert (∀ n x y, Z.to_nat (Z.abs (y - ry)) = n → 0 <= x < w → 0 <= y < h →
            P (x, y)) as Hcol.
  { induction n as [|n IH]; intros x y Hn Hx Hy.
    - replace y with ry by lia. by eapply Hrow.
    - destruct (decide (ry < y)).
      + replace (x, y) with (step (x, y - 1) Dir.S)
          by (unfold step; simpl; f_equal; lia).
        apply Hstep; simpl; [lia|apply IH; lia|apply elem_of_directions; tauto|].
        unfold step; simpl; lia.
      + replace (x, y) with (step (x, y + 1) Dir.N)
          by (unfold step; simpl; f_equal; lia).
        apply Hstep; simpl; [lia|apply IH; lia|apply elem_of_directions; tauto|].
        unfold step; simpl; lia. }
  intros [x y] [Hx Hy]. by eapply Hcol.
Qed.

(** ** From the invariant to the perfect maze *)

Lemma passage_sym w h m a b :
  symmetric w h m → passage w h m a b → passage w h m b a.
Proof.
  intros Hsym (Ha & Hb & d & Hd & Hopen & ->).
  destruct (Hsym a d Ha Hd Hopen) as (_ & od & Hod & Hback).
  split; [done|]. split; [done|]. exists od.
  split; [by eapply OPPOSITE_directions|]. split; [done|].
  by rewrite (step_OPPOSITE _ _ _ Hod).
Qed.

Lemma rtc_passage_sym w h m a b :
  symmetric w h m → rtc (passage w h m) a b → rtc (passage w h m) b a.
Proof.
  intros Hsym. induction 1 as [|a b c Hab _ IH]; [done|].
  eapply rtc_r; [done|]. by apply passage_sym.
Qed.

Lemma Grown_full_perfect w h root (g : Grid) v :
  0 < w → 0 < h → rect w h g → Grown w h root (mask g) v →
  (∀ c, inb w h c → v c = true) →
  perfect w h g.
Proof.
  intros Hw Hh Hr [Hroot Hsym Hblank Hconn Hcount] Hfull.
  split; [done|]. split.
  - intros a b Ha Hb. etrans.
    + apply rtc_passage_sym; [done|]. apply Hconn; auto.
    + apply Hconn; auto.
  - destruct (to_edges_spec w h g Hw Hh Hr) as (es & Hes & Hlen).
    exists es. split; [done|]. rewrite Hlen.
    rewrite (vcount_full w h v Hfull) in Hcount.
    pose proof (length_cells w h). lia.
Qed.

(** ** Random draws *)

Lemma randbelow_range n r : 0 < n → 0 <= (Random.randbelow n r).1 < n.
Proof. intros Hn. unfold Random.randbelow. simpl. by apply Z.mod_pos_bound. Qed.

Lemma randrange_spec n r :
  0 < n →
  ∃ i, Random.randrange n r = Ret (i, Random.advance r) ∧ 0 <= i < n.
Proof.
  intros Hn. unfold Random.randrange. destruct (Z.leb_spec n 0); [lia|].
  eexists. split; [done|]. by apply Z.mod_pos_bound.
Qed.

Lemma choice_spec {A} (l : list A) r :
  l ≠ [] → ∃ a, Random.choice l r = Ret (a, Random.advance r) ∧ a ∈ l.
Proof.
  intros Hl. unfold Random.choice. destruct l as [|a0 l0]; [done|].
  set (l := a0 :: l0).
  assert (0 < Z.of_nat (length l)) as Hlen by (simpl; lia).
  pose proof (randbelow_range _ r Hlen) as Hi.
  destruct (Random.randbelow (Z.of_nat (length l)) r) as [i r'] eqn:Hdraw.
  assert (r' = Random.advance r) as -> by (by inversion Hdraw).
  simpl in Hi.
  destruct (getitem_in_range l i Hi) as (a & Ha & ->). simpl.
  exists a. split; [done|]. by eapply list_elem_of_lookup_2.
Qed.

(** ** Marking and carving on arrays *)

Lemma marks_put2 w h (vis : list (list bool)) b c :
  rect w h vis → inb w h b → inb w h c →
  marks (put2 vis b true) c = if decide (c = b) then true else marks vis c.
Proof.
  intros Hr Hb Hc. unfold marks. case_decide as Hcb.
  - subst c. by eapply at2_put2_eq.
  - by eapply at2_put2_ne.
Qed.

Lemma mask_carved w h (g : Grid) a d b od c :
  rect w h g → inb w h a → inb w h b → a ≠ b → inb w h c →
  mask (put2 (put2 g a (Z.lor (mask g a) d)) b
          (Z.lor (mask (put2 g a (Z.lor (mask g a) d)) b) od)) c
  = Z.lor (mask g c) (ebits a d b od c).
Proof.
  intros Hr Ha Hb Hab Hc. unfold mask, ebits.
  assert (rect w h (put2 g a (Z.lor (at2 0 g a) d))) as Hr1 by by apply rect_put2.
  destruct (decide (c = b)) as [->|Hcb].
  - rewrite (at2_put2_eq 0 w h) by done.
    rewrite (at2_put2_ne 0 w h) by done.
    rewrite decide_False by done. done.
  - rewrite (at2_put2_ne 0 w h) by done.
    destruct (decide (c = a)) as [->|Hca].
    + rewrite (at2_put2_eq 0 w h) by done. by rewrite Z.lor_0_r.
    + rewrite (at2_put2_ne 0 w h) by done. by rewrite !Z.lor_0_r.
Qed.

Lemma unvisited_spec w h (vis : list (list bool)) ns :
  rect w h vis → (∀ n, n ∈ ns → inb w h (target n)) →
  unvisited vis ns = Ret (filter (fun n => marks vis (target n) = false) ns).
Proof.
  intros Hr. induction ns as [|[[nx ny] d] ns IH]; intros Hns; [done|].
  simpl. pose proof (getitem2_rect false w h vis (nx, ny) Hr) as Hget.
  simpl in Hget. rewrite Hget by (apply (Hns (nx, ny, d)); left). simpl.
  rewrite IH by (intros n Hn; apply Hns; by right). simpl.
  rewrite filter_cons. unfold marks, target. simpl.
  destruct (at2 false vis (nx, ny)); simpl; repeat case_decide; done.
Qed.

Lemma neighbors_target w h c n :
  inb w h c → n ∈ _neighbors c.1 c.2 w h →
  n.2 ∈ directions ∧ target n = step c n.2 ∧ inb w h (target n).
Proof.
  intros Hc Hn. destruct n as [[nx ny] d].
  by apply (elem_of_neighbors w h c (nx, ny) d Hc) in Hn.
Qed.

Lemma pending_mark w h (v v' : cell → bool) b :
  inb w h b → v b = false →
  (∀ c, inb w h c → v' c = if decide (c = b) then true else v c) →
  S (pending w h v') = pending w h v.
Proof.
  intros Hb Hvb Hv'. unfold pending.
  rewrite (vcount_mark w h v v' b) by done.
  pose proof (vcount_missing w h v b Hb Hvb). lia.
Qed.

(** ** Recursive backtracker *)

Lemma dfs_loop_spec w h root :
  0 < w → 0 < h →
  ∀ fuel g vis stack r,
    DfsInv w h root g vis stack →
    (2 * pending w h (marks vis) + length stack <= fuel)%nat →
    ∃ g', dfs_loop fuel w h g vis stack r = Ret g'
          ∧ perfect w h g' ∧ symmetric w h (mask g').
Proof.
  intros Hw Hh. induction fuel as [|fuel IH]; intros g vis stack r Hinv Hfuel.
  - destruct stack as [|[x y] below]; [|simpl in Hfuel; lia].
    destruct Hinv as [Hrg Hrv Hgrown _ _ Hdone].
    exists g. split; [done|]. split; [|by destruct Hgrown].
    eapply Grown_full_perfect; [done..|].
    destruct Hgrown as [[Hroot Hvroot] _ _ _ _].
    apply (lattice_closed w h (fun c => marks vis c = true) root); [done..|].
    intros c d Hc Hvc Hd Hn. apply Hdone; try done. apply not_elem_of_nil.
  - destruct stack as [|[x y] below].
    { destruct Hinv as [Hrg Hrv Hgrown _ _ Hdone].
      exists g. split; [done|]. split; [|by destruct Hgrown].
      eapply Grown_full_perfect; [done..|].
      destruct Hgrown as [[Hroot Hvroot] _ _ _ _].
      apply (lattice_closed w h (fun c => marks vis c = true) root); [done..|].
      intros c d Hc Hvc Hd Hn. apply Hdone; try done. apply not_elem_of_nil. }
    destruct Hinv as [Hrg Hrv Hgrown Hstack Hnodup Hdone].
    destruct (Hstack (x, y)) as [Hc Hvc]; [left|].
    simpl. rewrite (unvisited_spec w h); [|done|]; cycle 1.
    { intros n Hn. by apply (neighbors_target w h (x, y)). }
    simpl.
    destruct (filter (fun n => marks vis (target n) = false)
                (_neighbors x y w h)) as [|o options] eqn:Hopts.
    + apply IH; [|simpl in Hfuel; lia].
      apply NoDup_cons in Hnodup as [Hnotin Hnodup].
      split; try done.
      * intros c Hcin. apply Hstack. by right.
      * intros c d Hcb Hvcb Hcnot Hd Hn.
        destruct (decide (c = (x, y))) as [->|Hne].
        -- destruct (marks vis (step (x, y) d)) eqn:Hm; [done|].
           assert (((step (x, y) d).1, (step (x, y) d).2, d)
                    ∈ filter (fun n => marks vis (target n) = false)
                        (_neighbors x y w h)) as Hin.
           { apply list_elem_of_filter. split.
             - exact Hm.
             - by apply (elem_of_neighbors w h (x, y) (step (x, y) d) d). }
           rewrite Hopts in Hin. by apply elem_of_nil in Hin.
        -- apply Hdone; try done.
           intros [?|?]%elem_of_cons; done.
    + destruct (choice_spec (o :: options) r) as ([[nx ny] d] & -> & Hchosen); [done|].
      rewrite <- Hopts in Hchosen. apply list_elem_of_filter in Hchosen as [Hfree Hnb].
      destruct (neighbors_target w h (x, y) _ Hc Hnb) as (Hd & Htarget & Hn).
      unfold target in *. simpl in *.
      destruct (OPPOSITE_is_Some d Hd) as [od Hod]. rewrite Hod.
      assert ((x, y) ≠ (nx, ny)) as Hne by (intros [= -> ->]; congruence).
      pose proof (ior_rect w h g (x, y) d Hrg Hc) as Hior1. simpl in Hior1.
      rewrite Hior1. simpl.
      set (g1 := put2 g (x, y) (Z.lor (at2 0 g (x, y)) d)).
      assert (rect w h g1) as Hrg1 by by apply rect_put2.
      pose proof (ior_rect w h g1 (nx, ny) od Hrg1 Hn) as Hior2. simpl in Hior2.
      rewrite Hior2. simpl.
      pose proof (setitem2_rect w h vis (nx, ny) true Hrv Hn) as Hset. simpl in Hset.
      rewrite Hset. simpl.
      apply IH.
      * split.
        -- by apply rect_put2.
        -- by apply rect_put2.
        -- eapply (Grown_carve w h root (mask g) (marks vis) (x, y) d (nx, ny) od);
             [done..| |].
           ++ intros c Hcb. by apply (mask_carved w h).
           ++ intros c Hcb. by apply (marks_put2 w h).
        -- intros c [->|Hcin]%elem_of_cons.
           ++ split; [done|]. rewrite (marks_put2 w h) by done. by rewrite decide_True.
           ++ destruct (Hstack c Hcin) as [Hcb Hvcb]. split; [done|].
              rewrite (marks_put2 w h) by done. case_decide; done.
        -- apply NoDup_cons. split; [|done].
           intros Hin. destruct (Hstack _ Hin) as [_ Hv]. congruence.
        -- intros c d' Hcb Hvcb Hcnot Hd' Hnb'.
           apply not_elem_of_cons in Hcnot as [Hcn Hcnot].
           rewrite (marks_put2 w h) in Hvcb by done. rewrite decide_False in Hvcb by done.
           rewrite (marks_put2 w h) by done. case_decide; [done|].
           by apply Hdone.
      * rewrite <- (pending_mark w h (marks vis) (marks (put2 vis (nx, ny) true)) (nx, ny))
          in Hfuel; [simpl in *; lia|done..|].
        intros c Hcb. by apply (marks_put2 w h).
Qed.

(** ** The state in which every generator starts *)

Lemma ecount_blank w h m : (∀ c, inb w h c → m c = 0) → ecount w h m = 0%nat.
Proof.
  intros Hm. unfold ecount.
  rewrite (sum_list_with_ext_in (fun _ => 0%nat)).
  - induction (cells w h); simpl; lia.
  - intros c Hc%elem_of_cells. by rewrite Hm.
Qed.

Lemma vcount_none w h (v : cell → bool) :
  (∀ c, inb w h c → v c = false) → vcount w h v = 0%nat.
Proof.
  intros Hv. unfold vcount.
  rewrite (sum_list_with_ext_in (fun _ => 0%nat)).
  - induction (cells w h); simpl; lia.
  - intros c Hc%elem_of_cells. by rewrite Hv.
Qed.

Lemma Grown_init w h root :
  inb w h root →
  Grown w h root (mask (fresh w h 0)) (marks (put2 (fresh w h false) root true)).
Proof.
  intros Hroot.
  assert (0 <= w ∧ 0 <= h) as [Hw Hh] by (unfold inb in Hroot; lia).
  assert (∀ c, inb w h c → mask (fresh w h 0) c = 0) as Hblank.
  { intros c Hc. by apply at2_fresh. }
  assert (∀ c, inb w h c →
            marks (put2 (fresh w h false) root true) c
            = if decide (c = root) then true else (fun _ => false) c) as Hmarks.
  { intros c Hc. rewrite (marks_put2 w h); [|by apply rect_fresh|done..].
    case_decide; [done|]. by apply at2_fresh. }
  split.
  - split; [done|]. rewrite Hmarks by done. by rewrite decide_True.
  - intros c d Hc Hd Hopen. unfold open_to in Hopen. by rewrite Hblank in Hopen.
  - auto.
  - intros c Hc Hvc. rewrite Hmarks in Hvc by done.
    case_decide; [by subst|done].
  - rewrite (ecount_blank w h) by done.
    rewrite (vcount_mark w h (fun _ => false) _ root Hroot eq_refl Hmarks).
    by rewrite vcount_none.
Qed.

Lemma pending_init w h root :
  inb w h root →
  S (pending w h (marks (put2 (fresh w h false) root true)))
  = length (cells w h).
Proof.
  intros Hroot.
  assert (0 <= w ∧ 0 <= h) as [Hw Hh] by (unfold inb in Hroot; lia).
  rewrite (pending_mark w h (fun _ => false) _ root Hroot eq_refl).
  - unfold pending. rewrite vcount_none by done. lia.
  - intros c Hc. rewrite (marks_put2 w h); [|by apply rect_fresh|done..].
    case_decide; [done|]. by apply at2_fresh.
Qed.

Lemma generate_maze_dfs_spec seeded fuel w h seed g :
  0 < w → 0 < h → (2 * Z.to_nat (w * h) <= fuel)%nat →
  ∃ grid, generate_maze_dfs seeded fuel w h seed g = Ret grid
          ∧ perfect w h grid ∧ symmetric w h (mask grid).
Proof.
  intros Hw Hh Hfuel. unfold generate_maze_dfs.
  destruct (Z.leb_spec w 0); [lia|]. destruct (Z.leb_spec h 0); [lia|]. simpl.
  destruct (randrange_spec w (reseed seeded seed g) Hw) as (x & -> & Hx). simpl.
  destruct (randrange_spec h (Random.advance (reseed seeded seed g)) Hh)
    as (y & -> & Hy). simpl.
  assert (inb w h (x, y)) as Hroot by done.
  pose proof (setitem2_rect w h (fresh w h false) (x, y) true) as Hset.
  simpl in Hset. rewrite Hset; [|apply rect_fresh; lia|done]. simpl.
  apply (dfs_loop_spec w h (x, y)); [done..| |].
  - split.
    + apply rect_fresh; lia.
    + apply rect_put2, rect_fresh; lia.
    + by apply Grown_init.
    + intros c ->%list_elem_of_singleton. split; [done|].
      rewrite (marks_put2 w h); [|apply rect_fresh; lia|done..].
      by rewrite decide_True.
    + apply NoDup_singleton.
    + intros c d Hc Hvc Hnot Hd Hn.
      rewrite (marks_put2 w h) in Hvc; [|apply rect_fresh; lia|done..].
      case_decide as Hcr.
      * subst c. exfalso. apply Hnot. by left.
      * unfold marks in Hvc. by rewrite at2_fresh in Hvc.
  - pose proof (pending_init w h (x, y) Hroot).
    pose proof (length_cells w h). simpl. lia.
Qed.

(** ** Randomized Prim *)

Lemma pop_at_spec {A} (l : list A) i :
  0 <= i < Z.of_nat (length l) →
  ∃ a, l !! Z.to_nat i = Some a ∧ pop_at l i = Ret (a, delete (Z.to_nat i) l).
Proof.
  intros Hi. destruct (getitem_in_range l i Hi) as (a & Ha & Hget).
  exists a. split; [done|]. unfold pop_at. rewrite Hget. simpl.
  destruct (Z.ltb_spec i 0); [lia|done].
Qed.

Lemma elem_of_delete_1 {A} (l : list A) i x : x ∈ delete i l → x ∈ l.
Proof.
  rewrite delete_take_drop, elem_of_app.
  intros [H|H]; [by eapply subseteq_take|by eapply subseteq_drop].
Qed.

Lemma elem_of_delete_2 {A} (l : list A) i a x :
  l !! i = Some a → x ∈ l → x ≠ a → x ∈ delete i l.
Proof.
  intros Ha Hx Hne. rewrite delete_take_drop.
  rewrite <- (take_drop_middle l i a Ha) in Hx.
  rewrite elem_of_app, elem_of_cons in Hx. rewrite elem_of_app.
  destruct Hx as [Hx|[->|Hx]]; [by left|done|by right].
Qed.

Lemma extend_frontier_spec w h (in_maze : list (list bool)) nx ny ns frontier :
  rect w h in_maze → (∀ n, n ∈ ns → inb w h (target n)) →
  extend_frontier in_maze nx ny ns frontier
  = Ret (frontier ++
         ((fun n : Z * Z * Z => (nx, ny, n.1.1, n.1.2, n.2))
            <$> filter (fun n => marks in_maze (target n) = false) ns)).
Proof.
  intros Hr. revert frontier.
  induction ns as [|[[fx fy] fd] ns IH]; intros frontier Hns.
  { simpl. by rewrite app_nil_r. }
  simpl. pose proof (getitem2_rect false w h in_maze (fx, fy) Hr) as Hget.
  simpl in Hget. rewrite Hget by (apply (Hns (fx, fy, fd)); left). simpl.
  rewrite IH by (intros n Hn; apply Hns; by right).
  rewrite filter_cons. unfold marks, target. simpl.
  destruct (at2 false in_maze (fx, fy)); simpl; repeat case_decide; try done.
  by rewrite <- app_assoc.
Qed.

Lemma prim_loop_spec w h root :
  0 < w → 0 < h →
  ∀ fuel g in_maze frontier r,
    PrimInv w h root g in_maze frontier →
    (length frontier + 4 * pending w h (marks in_maze) <= fuel)%nat →
    ∃ g', prim_loop fuel w h g in_maze frontier r = Ret g'
          ∧ perfect w h g' ∧ symmetric w h (mask g').
Proof.
  intros Hw Hh.
  assert (∀ fuel g in_maze r, PrimInv w h root g in_maze [] →
            ∃ g', prim_loop fuel w h g in_maze [] r = Ret g'
                  ∧ perfect w h g' ∧ symmetric w h (mask g')) as Hfinal.
  { intros fuel g in_maze r [Hrg Hrv Hgrown _ Hcomplete].
    exists g. split; [by destruct fuel|]. split; [|by destruct Hgrown].
    eapply Grown_full_perfect; [done..|].
    destruct Hgrown as [[Hroot Hvroot] _ _ _ _].
    apply (lattice_closed w h (fun c => marks in_maze c = true) root); [done..|].
    intros c d Hc Hvc Hd Hn.
    destruct (marks in_maze (step c d)) eqn:Hm; [done|].
    by apply (Hcomplete c d Hc Hvc Hd Hn), elem_of_nil in Hm. }
  induction fuel as [|fuel IH]; intros g in_maze frontier r Hinv Hfuel.
  { destruct frontier; [by apply Hfinal|simpl in Hfuel; lia]. }
  destruct frontier as [|e0 fr]; [by apply Hfinal|].
  remember (e0 :: fr) as frontier eqn:Hfr.
  destruct Hinv as [Hrg Hrv Hgrown Hfrontier Hcomplete].
  assert (0 < Z.of_nat (length frontier)) as Hlen by (subst; simpl; lia).
  rewrite Hfr. cbn [prim_loop]. rewrite <- Hfr.
  destruct (randrange_spec (Z.of_nat (length frontier)) r Hlen) as (i & -> & Hi).
  simpl.
  destruct (pop_at_spec frontier i Hi) as (e & He & ->). simpl.
  destruct e as [[[[x y] nx] ny] d].
  assert ((x, y, nx, ny, d) ∈ frontier) as Hein by by eapply list_elem_of_lookup_2.
  destruct (Hfrontier x y nx ny d Hein) as (Hc & Hvc & Hd & Hstep & Hn).
  pose proof (getitem2_rect false w h in_maze (nx, ny) Hrv Hn) as Hget.
  simpl in Hget. rewrite Hget. simpl.
  assert (length (delete (Z.to_nat i) frontier) = (length frontier - 1)%nat)
    as Hdel by by apply length_delete.
  fold (marks in_maze (nx, ny)).
  destruct (marks in_maze (nx, ny)) eqn:Hvn.
  - apply IH; [|lia]. split; try done.
    + intros x' y' nx' ny' d' Hin. apply Hfrontier. by eapply elem_of_delete_1.
    + intros c d' Hcb Hvcb Hd' Hnb Hfree.
      eapply elem_of_delete_2; [done|by apply Hcomplete|].
      intros [= _ _ Hx' Hy' _].
      assert (step c d' = (nx, ny)) as Heq by (unfold step; by rewrite Hx', Hy').
      rewrite Heq in Hfree. congruence.
  - destruct (OPPOSITE_is_Some d Hd) as [od Hod]. rewrite Hod.
    assert ((x, y) ≠ (nx, ny)) as Hne by (intros [= -> ->]; congruence).
    pose proof (setitem2_rect w h in_maze (nx, ny) true Hrv Hn) as Hset.
    simpl in Hset. rewrite Hset. simpl.
    set (in_maze' := put2 in_maze (nx, ny) true).
    assert (rect w h in_maze') as Hrv' by by apply rect_put2.
    pose proof (ior_rect w h g (x, y) d Hrg Hc) as Hior1. simpl in Hior1.
    rewrite Hior1. simpl.
    set (g1 := put2 g (x, y) (Z.lor (at2 0 g (x, y)) d)).
    assert (rect w h g1) as Hrg1 by by apply rect_put2.
    pose proof (ior_rect w h g1 (nx, ny) od Hrg1 Hn) as Hior2. simpl in Hior2.
    rewrite Hior2. simpl.
    rewrite (extend_frontier_spec w h); [|done|]; cycle 1.
    { intros n Hnn. by apply (neighbors_target w h (nx, ny)). }
    simpl.
    assert (∀ c, inb w h c →
              marks in_maze' c = if decide (c = (nx, ny)) then true
                                 else marks in_maze c) as Hmarks.
    { intros c Hcb. by apply (marks_put2 w h). }
    apply IH.
    + split.
      * by apply rect_put2.
      * done.
      * eapply (Grown_carve w h root (mask g) (marks in_maze) (x, y) d (nx, ny) od);
          [done..| |done].
        intros c Hcb. by apply (mask_carved w h).
      * intros x' y' nx' ny' d' [Hin|Hin]%elem_of_app.
        -- apply elem_of_delete_1 in Hin.
           destruct (Hfrontier _ _ _ _ _ Hin) as (? & Hv' & ? & ? & ?).
           split; [done|]. split; [|done].
           rewrite Hmarks by done. case_decide; done.
        -- apply list_elem_of_fmap in Hin as ([[fx fy] fd] & [= -> -> -> -> ->] & Hin).
           apply list_elem_of_filter in Hin as [_ Hin].
           destruct (neighbors_target w h (nx, ny) _ Hn Hin) as (Hfd & Hft & Hfn).
           split; [done|]. split; [|done].
           rewrite Hmarks by done. by rewrite decide_True.
      * intros c d' Hcb Hvcb Hd' Hnb Hfree.
        rewrite Hmarks in Hfree by done.
        case_decide as Hfresh; [done|].
        rewrite Hmarks in Hvcb by done. apply elem_of_app.
        case_decide as Hcn.
        -- right. subst c. apply list_elem_of_fmap.
           exists ((step (nx, ny) d').1, (step (nx, ny) d').2, d'). split; [done|].
           apply list_elem_of_filter. split.
           ++ unfold target. simpl. rewrite Hmarks by done.
              rewrite decide_False by done. done.
           ++ by apply (elem_of_neighbors w h (nx, ny) (step (nx, ny) d') d').
        -- left. eapply elem_of_delete_2; [done|by apply Hcomplete|].
           intros [= _ _ Hx' Hy' _]. apply Hfresh.
           unfold step. by rewrite Hx', Hy'.
    + rewrite <- (pending_mark w h (marks in_maze) (marks in_maze') (nx, ny))
        in Hfuel by done.
      rewrite length_app, length_fmap.
      pose proof (length_filter
        (fun n => marks in_maze' (target n) = false) (_neighbors nx ny w h)).
      pose proof (neighbors_length nx ny w h). lia.
Qed.

Lemma generate_maze_prim_spec seeded fuel w h seed g :
  0 < w → 0 < h → (4 * Z.to_nat (w * h) <= fuel)%nat →
  ∃ grid, generate_maze_prim seeded fuel w h seed g = Ret grid
          ∧ perfect w h grid ∧ symmetric w h (mask grid).
Proof.
  intros Hw Hh Hfuel. unfold generate_maze_prim.
  destruct (Z.leb_spec w 0); [lia|]. destruct (Z.leb_spec h 0); [lia|]. simpl.
  destruct (randrange_spec w (reseed seeded seed g) Hw) as (x & -> & Hx). simpl.
  destruct (randrange_spec h (Random.advance (reseed seeded seed g)) Hh)
    as (y & -> & Hy). simpl.
  assert (inb w h (x, y)) as Hroot by done.
  pose proof (setitem2_rect w h (fresh w h false) (x, y) true) as Hset.
  simpl in Hset. rewrite Hset; [|apply rect_fresh; lia|done]. simpl.
  assert (∀ c, inb w h c →
            marks (put2 (fresh w h false) (x, y) true) c
            = if decide (c = (x, y)) then true else false) as Hmarks.
  { intros c Hc. rewrite (marks_put2 w h); [|apply rect_fresh; lia|done..].
    case_decide; [done|]. by apply at2_fresh. }
  apply (prim_loop_spec w h (x, y)); [done..| |].
  - split.
    + apply rect_fresh; lia.
    + apply rect_put2, rect_fresh; lia.
    + by apply Grown_init.
    + intros x' y' nx ny d ([[nx' ny'] d'] & [= -> -> -> -> ->] & Hin)%list_elem_of_fmap.
      destruct (neighbors_target w h (x, y) _ Hroot Hin) as (Hd & Ht & Hn).
      split; [done|]. split; [|done].
      rewrite Hmarks by done. by rewrite decide_True.
    + intros c d Hc Hvc Hd Hn Hfree.
      rewrite Hmarks in Hvc by done. case_decide; [subst c|done].
      apply list_elem_of_fmap.
      exists ((step (x, y) d).1, (step (x, y) d).2, d). split; [done|].
      by apply (elem_of_neighbors w h (x, y) (step (x, y) d) d).
  - pose proof (pending_init w h (x, y) Hroot).
    pose proof (length_cells w h). rewrite length_fmap.
    pose proof (neighbors_length x y w h). lia.
Qed.

(** ** Wilson: the loop-erased walk *)

Lemma forget_lookup (ps : list cell) (m : gmap cell nat) (c : cell) :
  forget ps m !! c = if decide (c ∈ ps) then None else m !! c.
Proof.
  unfold forget. revert m. induction ps as [|p ps IH]; intros m; cbn [foldl].
  { by rewrite decide_False by apply not_elem_of_nil. }
  rewrite IH. destruct (decide (c = p)) as [->|Hne].
  - rewrite lookup_delete_eq. rewrite (decide_True (P := p ∈ p :: ps)) by left.
    by case_decide.
  - rewrite lookup_delete_ne by done.
    case_decide as Hin.
    + rewrite decide_True; [done|by right].
    + rewrite decide_False; [done|]. by intros [?|?]%elem_of_cons.
Qed.

Lemma neighbors_nonempty w h c c' :
  inb w h c → inb w h c' → c ≠ c' → _neighbors c.1 c.2 w h ≠ [].
Proof.
  destruct c as [x y], c' as [x' y']. unfold inb. simpl. intros [Hx Hy] [Hx' Hy'] Hne.
  assert (∃ d, d ∈ directions ∧ inb w h (step (x, y) d)) as (d & Hd & Hn).
  { destruct (decide (x' < x)).
    { exists Dir.W. split; [apply elem_of_directions; tauto|]. unfold inb, step; simpl; lia. }
    destruct (decide (x < x')).
    { exists Dir.E. split; [apply elem_of_directions; tauto|]. unfold inb, step; simpl; lia. }
    destruct (decide (y' < y)).
    { exists Dir.N. split; [apply elem_of_directions; tauto|]. unfold inb, step; simpl; lia. }
    destruct (decide (y < y')).
    { exists Dir.S. split; [apply elem_of_directions; tauto|]. unfold inb, step; simpl; lia. }
    exfalso. apply Hne. f_equal; lia. }
  assert (((step (x, y) d).1, (step (x, y) d).2, d) ∈ _neighbors x y w h) as Hin.
  { by apply (elem_of_neighbors w h (x, y) (step (x, y) d) d). }
  intros Hnil. rewrite Hnil in Hin. by apply elem_of_nil in Hin.
Qed.

Lemma walk_erase w h in_maze cur po pn viw n d idx :
  WalkInv w h in_maze cur po pn viw →
  viw !! n = Some idx →
  WalkInv w h in_maze n (take (idx + 1) po) (<[cur := (n, d)]> pn)
    (forget (drop (idx + 1) po) viw).
Proof.
  intros [Hlast Hinb Hnodup Hindex Houtside Hnext] Hidx.
  assert (po !! idx = Some n) as Hn by by apply Hindex.
  assert (idx < length po)%nat as Hlt by by eapply lookup_lt_Some.
  assert (length (take (idx + 1) po) = (idx + 1)%nat) as Hlen
    by (rewrite length_take; lia).
  assert (po !! pred (length po) = Some cur) as Hcur by by rewrite <- last_lookup.
  split.
  - rewrite last_lookup, Hlen. replace (pred (idx + 1)) with idx by lia.
    rewrite lookup_take_lt by lia. done.
  - intros c Hc. apply Hinb. by eapply subseteq_take.
  - eapply sublist_NoDup; [exact Hnodup|apply sublist_take].
  - intros c i. rewrite forget_lookup. split.
    + case_decide as Hin; [done|]. intros Hi. apply Hindex in Hi.
      destruct (decide (i < idx + 1)%nat) as [Hi'|Hi'].
      * by rewrite lookup_take_lt.
      * exfalso. apply Hin. apply list_elem_of_lookup. exists (i - (idx + 1))%nat.
        rewrite lookup_drop. rewrite <- Hi. f_equal. lia.
    + intros [Hi Hi']%lookup_take_Some.
      rewrite decide_False; [by apply Hindex|].
      intros (j & Hj)%list_elem_of_lookup. rewrite lookup_drop in Hj.
      pose proof (NoDup_lookup _ _ _ _ Hnodup Hi Hj). lia.
  - intros i c [Hi Hi']%lookup_take_Some Hlast'. rewrite Hlen in Hlast'.
    apply (Houtside i c Hi). lia.
  - intros i c c' [Hi Hi']%lookup_take_Some [Hsi Hsi']%lookup_take_Some.
    destruct (Hnext i c c' Hi Hsi) as (n' & d' & Hpn & Hd' & Hc').
    exists n', d'. split; [|done].
    rewrite lookup_insert_ne; [done|]. intros ->.
    pose proof (NoDup_lookup _ _ _ _ Hnodup Hi Hcur). lia.
Qed.

Lemma walk_extend w h in_maze cur po pn viw n d :
  WalkInv w h in_maze cur po pn viw →
  marks in_maze cur = false → viw !! n = None →
  d ∈ directions → n = step cur d → inb w h n →
  WalkInv w h in_maze n (po ++ [n]) (<[cur := (n, d)]> pn)
    (<[n := (length (po ++ [n]) - 1)%nat]> viw).
Proof.
  intros [Hlast Hinb Hnodup Hindex Houtside Hnext] Hout Hnew Hd Hstep Hn.
  assert (po !! pred (length po) = Some cur) as Hcur by by rewrite <- last_lookup.
  assert (0 < length po)%nat as Hpos.
  { destruct po; [done|simpl; lia]. }
  assert (n ∉ po) as Hnotin.
  { intros (i & Hi)%list_elem_of_lookup. apply Hindex in Hi. congruence. }
  rewrite length_app. simpl. replace (length po + 1 - 1)%nat with (length po) by lia.
  split.
  - apply last_snoc.
  - intros c [Hc| ->%list_elem_of_singleton]%elem_of_app; auto.
  - apply NoDup_app. split; [done|]. split; [|apply NoDup_singleton].
    intros c Hc ->%list_elem_of_singleton. done.
  - intros c i. destruct (decide (c = n)) as [->|Hne].
    + rewrite lookup_insert_eq. split.
      * intros [= <-]. by rewrite list_lookup_middle.
      * intros [Hi|[Hge Hi]]%lookup_app_Some.
        -- exfalso. apply Hnotin. by eapply list_elem_of_lookup_2.
        -- apply list_lookup_singleton_Some in Hi as [Hi _]. f_equal. lia.
    + rewrite lookup_insert_ne by done. rewrite Hindex. split.
      * apply lookup_app_l_Some.
      * intros [Hi|[_ Hi]]%lookup_app_Some; [done|].
        apply list_lookup_singleton_Some in Hi as [_ Hi]. done.
  - intros i c Hi Hlt. rewrite length_app in Hlt. simpl in Hlt.
    rewrite lookup_app_l in Hi by lia.
    destruct (decide (S i < length po)%nat) as [Hlt'|Hlt']; [by eapply Houtside|].
    replace i with (pred (length po)) in Hi by lia. congruence.
  - intros i c c' Hi Hsi.
    assert (i < length po)%nat as Hilt.
    { apply lookup_lt_Some in Hsi. rewrite length_app in Hsi. simpl in Hsi. lia. }
    rewrite lookup_app_l in Hi by done.
    destruct (decide (S i < length po)%nat) as [Hlt'|Hlt'].
    + rewrite lookup_app_l in Hsi by done.
      destruct (Hnext i c c' Hi Hsi) as (n' & d' & Hpn & Hd' & Hc').
      exists n', d'. split; [|done].
      rewrite lookup_insert_ne; [done|]. intros ->.
      pose proof (NoDup_lookup _ _ _ _ Hnodup Hi Hcur). lia.
    + replace (S i) with (length po + 0)%nat in Hsi by lia.
      rewrite lookup_app_r in Hsi by lia.
      replace (length po + 0 - length po)%nat with 0%nat in Hsi by lia.
      simpl in Hsi. injection Hsi as <-.
      replace i with (pred (length po)) in Hi by lia.
      assert (c = cur) as -> by congruence.
      exists n, d. by rewrite lookup_insert_eq.
Qed.

Lemma wilson_walk_spec w h in_maze root :
  rect w h in_maze → inb w h root → marks in_maze root = true →
  ∀ fuel cur po pn viw r,
    WalkInv w h in_maze cur po pn viw →
    wilson_walk fuel w h in_maze cur.1 cur.2 po pn viw r = OutOfFuel
    ∨ ∃ po' pn' viw' cur' r',
        wilson_walk fuel w h in_maze cur.1 cur.2 po pn viw r = Ret (po', pn', r')
        ∧ WalkInv w h in_maze cur' po' pn' viw'
        ∧ marks in_maze cur' = true
        ∧ head po' = head po.
Proof.
  intros Hr Hroot Hvroot.
  induction fuel as [|fuel IH]; intros [cx cy] po pn viw r Hinv;
    assert (inb w h (cx, cy)) as Hcur
      by (destruct Hinv as [Hlast Hinb _ _ _ _];
          by apply Hinb, last_Some_elem_of);
    pose proof (getitem2_rect false w h in_maze (cx, cy) Hr Hcur) as Hget;
    simpl in Hget; simpl; rewrite Hget; simpl;
    fold (marks in_maze (cx, cy));
    destruct (marks in_maze (cx, cy)) eqn:Hv.
  - right. by exists po, pn, viw, (cx, cy), r.
  - by left.
  - right. by exists po, pn, viw, (cx, cy), r.
  - destruct (choice_spec (_neighbors cx cy w h) r) as ([[nx ny] d] & -> & Hnb).
    { apply (neighbors_nonempty w h (cx, cy) root); [done..|]. intros <-. congruence. }
    simpl.
    destruct (neighbors_target w h (cx, cy) _ Hcur Hnb) as (Hd & Ht & Hn).
    unfold target in *. simpl in *.
    assert (po ≠ []) as Hpo.
    { destruct Hinv as [Hlast _ _ _ _ _]. by intros ->. }
    destruct (viw !! (nx, ny)) as [idx|] eqn:Hidx.
    + destruct (IH (nx, ny) (take (idx + 1) po) (<[(cx, cy) := (nx, ny, d)]> pn)
                  (forget (drop (idx + 1) po) viw) (Random.advance r))
        as [Hout|(po' & pn' & viw' & cur' & r' & Hrun & Hinv' & Hv' & Hhead)].
      { by apply walk_erase. }
      { by left. }
      right. exists po', pn', viw', cur', r'. rewrite Hhead.
      split; [done|]. split; [done|]. split; [done|].
      destruct po; [done|]. by rewrite Nat.add_1_r.
    + destruct (IH (nx, ny) (po ++ [(nx, ny)]) (<[(cx, cy) := (nx, ny, d)]> pn)
                  (<[(nx, ny) := (length (po ++ [(nx, ny)]) - 1)%nat]> viw)
                  (Random.advance r))
        as [Hout|(po' & pn' & viw' & cur' & r' & Hrun & Hinv' & Hv' & Hhead)].
      { by apply walk_extend. }
      { by left. }
      right. exists po', pn', viw', cur', r'. rewrite Hhead.
      split; [done|]. split; [done|]. split; [done|].
      by destruct po.
Qed.

(** ** Wilson: carving the loop-erased path *)

Lemma Grown_ext w h root m v m' v' :
  (∀ c, inb w h c → m' c = m c) → (∀ c, inb w h c → v' c = v c) →
  Grown w h root m v → Grown w h root m' v'.
Proof.
  intros Hm Hv [[Hroot Hvroot] Hsym Hblank Hconn Hcount].
  assert (∀ a b, passage w h m a b → passage w h m' a b) as Hpass.
  { intros a b (Ha & Hb & d & Hd & Hopen & ->). split; [done|]. split; [done|].
    exists d. split; [done|]. split; [|done]. unfold open_to. by rewrite Hm. }
  split.
  - split; [done|]. by rewrite Hv.
  - intros c d Hc Hd Hopen. unfold open_to in Hopen. rewrite Hm in Hopen by done.
    destruct (Hsym c d Hc Hd Hopen) as (Hn & od & Hod & Hback).
    split; [done|]. exists od. split; [done|]. unfold open_to. by rewrite Hm.
  - intros c Hc Hvc. rewrite Hv in Hvc by done. rewrite Hm by done. auto.
  - intros c Hc Hvc. rewrite Hv in Hvc by done.
    eapply rtc_subrel; [exact Hpass|]. auto.
  - rewrite (ecount_ext w h m m') by done. by rewrite (vcount_ext w h v v').
Qed.

Lemma ebits_comm a d b od c : ebits a d b od c = ebits b od a d c.
Proof. unfold ebits. apply Z.lor_comm. Qed.

Lemma linked_of_index pn (path : list cell) :
  (∀ i c c', path !! i = Some c → path !! S i = Some c' →
     ∃ n d, pn !! c = Some (n, d) ∧ d ∈ directions ∧ c' = step c d) →
  linked pn path.
Proof.
  induction path as [|p0 path IH]; [done|]. intros Hnext.
  destruct path as [|p1 rest]; [done|]. split.
  - by apply (Hnext 0%nat).
  - apply IH. intros i c c' Hi Hsi. by apply (Hnext (S i)).
Qed.

Lemma wilson_carve_cons x0 y0 x1 y1 rest pn g in_maze :
  wilson_carve ((x0, y0) :: (x1, y1) :: rest) pn g in_maze
  = '(_, d) ← subscript (pn !! (x0, y0));
    grid1 ← ior g x0 y0 (Ret d);
    grid2 ← ior grid1 x1 y1 (subscript (OPPOSITE d));
    in_maze1 ← Py.setitem2 in_maze x0 y0 true;
    in_maze2 ← Py.setitem2 in_maze1 x1 y1 true;
    wilson_carve ((x1, y1) :: rest) pn grid2 in_maze2.
Proof. done. Qed.

Lemma wilson_carve_spec w h pn :
  ∀ (path : list cell) (g : Grid) (in_maze : list (list bool)),
    rect w h g → rect w h in_maze → (∀ c, c ∈ path → inb w h c) →
    linked pn path → (∀ l, last path = Some l → marks in_maze l = true) →
    ∃ g' in_maze',
      wilson_carve path pn g in_maze = Ret (g', in_maze')
      ∧ rect w h g' ∧ rect w h in_maze'
      ∧ (∀ c, inb w h c → mask g' c = Z.lor (mask g c) (pbits pn path c))
      ∧ (∀ c, inb w h c →
           marks in_maze' c = marks in_maze c || bool_decide (c ∈ path)).
Proof.
  induction path as [|[x0 y0] path IH]; intros g in_maze Hrg Hrv Hinb Hlinked Hlast.
  { exists g, in_maze. split; [done|]. split; [done|]. split; [done|]. split.
    - intros c _. simpl. by rewrite Z.lor_0_r.
    - intros c _. rewrite bool_decide_eq_false_2 by apply not_elem_of_nil.
      by rewrite orb_false_r. }
  destruct path as [|[x1 y1] rest].
  { exists g, in_maze. split; [done|]. split; [done|]. split; [done|]. split.
    - intros c _. simpl. by rewrite Z.lor_0_r.
    - intros c _. case_bool_decide as Hc; [|by rewrite orb_false_r].
      apply list_elem_of_singleton in Hc as ->. by rewrite Hlast. }
  destruct Hlinked as [(n & d & Hpn & Hd & Hstep) Hlinked].
  destruct (OPPOSITE_is_Some d Hd) as [od Hod].
  assert (inb w h (x0, y0)) as H0 by (apply Hinb; left).
  assert (inb w h (x1, y1)) as H1 by (apply Hinb; right; left).
  assert ((x0, y0) ≠ (x1, y1)) as Hne.
  { rewrite Hstep. intros Heq. by apply (step_ne (x0, y0) d). }
  rewrite wilson_carve_cons, Hpn. simpl.
  pose proof (ior_rect w h g (x0, y0) d Hrg H0) as Hior1. simpl in Hior1.
  rewrite Hior1. simpl.
  set (g1 := put2 g (x0, y0) (Z.lor (at2 0 g (x0, y0)) d)).
  assert (rect w h g1) as Hrg1 by by apply rect_put2.
  rewrite Hod. simpl.
  pose proof (ior_rect w h g1 (x1, y1) od Hrg1 H1) as Hior2. simpl in Hior2.
  rewrite Hior2. simpl.
  set (g2 := put2 g1 (x1, y1) (Z.lor (at2 0 g1 (x1, y1)) od)).
  pose proof (setitem2_rect w h in_maze (x0, y0) true Hrv H0) as Hset1.
  simpl in Hset1. rewrite Hset1. simpl.
  set (in_maze1 := put2 in_maze (x0, y0) true).
  assert (rect w h in_maze1) as Hrv1 by by apply rect_put2.
  pose proof (setitem2_rect w h in_maze1 (x1, y1) true Hrv1 H1) as Hset2.
  simpl in Hset2. rewrite Hset2. simpl.
  set (in_maze2 := put2 in_maze1 (x1, y1) true).
  assert (∀ c, inb w h c →
            marks in_maze2 c = if decide (c = (x1, y1)) then true
                               else if decide (c = (x0, y0)) then true
                               else marks in_maze c) as Hmarks2.
  { intros c Hc. unfold in_maze2. rewrite (marks_put2 w h) by done.
    case_decide; [done|]. unfold in_maze1. by rewrite (marks_put2 w h). }
  destruct (IH g2 in_maze2) as (g' & in_maze' & Hrun & Hrg' & Hrv' & Hmask & Hmarks).
  { by apply rect_put2. }
  { by apply rect_put2. }
  { intros c Hc. apply Hinb. by right. }
  { done. }
  { intros l Hl. rewrite Hmarks2.
    - repeat case_decide; try done. apply Hlast. by rewrite last_cons_cons.
    - apply Hinb. right. by apply last_Some_elem_of. }
  exists g', in_maze'. split; [done|]. split; [done|]. split; [done|]. split.
  - intros c Hc. rewrite Hmask by done.
    unfold g2, g1. fold (mask g (x0, y0)).
    fold (mask (put2 g (x0, y0) (Z.lor (mask g (x0, y0)) d)) (x1, y1)).
    rewrite (mask_carved w h) by done.
    cbn [pbits]. rewrite Hpn, Hod. simpl. by rewrite Z.lor_assoc.
  - intros c Hc. rewrite Hmarks, Hmarks2 by done.
    destruct (decide (c = (x1, y1))) as [->|Hc1].
    { rewrite (bool_decide_eq_true_2 (_ ∈ (x0, y0) :: _)) by (right; left).
      by rewrite orb_true_r. }
    destruct (decide (c = (x0, y0))) as [->|Hc0].
    { rewrite (bool_decide_eq_true_2 (_ ∈ (x0, y0) :: _)) by left.
      by rewrite orb_true_r. }
    f_equal. apply bool_decide_ext. rewrite (elem_of_cons _ c (x0, y0)).
    split; [by right|by intros [?|?]].
Qed.

Lemma Grown_path w h root pn :
  ∀ (path : list cell) m v,
    Grown w h root m v → NoDup path → (∀ c, c ∈ path → inb w h c) →
    linked pn path →
    (∀ c l, c ∈ path → last path = Some l → c ≠ l → v c = false) →
    (∀ l, last path = Some l → v l = true) →
    ∀ m' v',
      (∀ c, inb w h c → m' c = Z.lor (m c) (pbits pn path c)) →
      (∀ c, inb w h c → v' c = v c || bool_decide (c ∈ path)) →
      Grown w h root m' v'.
Proof.
  induction path as [|p0 path IH];
    intros m v Hgrown Hnodup Hinb Hlinked Hout Hlast m' v' Hm' Hv'.
  { eapply Grown_ext; [| |done].
    - intros c Hc. rewrite Hm' by done. simpl. by rewrite Z.lor_0_r.
    - intros c Hc. rewrite Hv' by done.
      rewrite bool_decide_eq_false_2 by apply not_elem_of_nil.
      by rewrite orb_false_r. }
  destruct path as [|p1 rest].
  { eapply Grown_ext; [| |done].
    - intros c Hc. rewrite Hm' by done. simpl. by rewrite Z.lor_0_r.
    - intros c Hc. rewrite Hv' by done.
      case_bool_decide as Hin; [|by rewrite orb_false_r].
      apply list_elem_of_singleton in Hin as ->. by rewrite Hlast. }
  destruct Hlinked as [(n & d & Hpn & Hd & Hstep) Hlinked].
  destruct (OPPOSITE_is_Some d Hd) as [od Hod].
  apply NoDup_cons in Hnodup as [Hnotin Hnodup].
  assert (is_Some (last (p1 :: rest))) as [l Hl] by by apply last_is_Some.
  assert (l ∈ p1 :: rest) as Hlin by by apply last_Some_elem_of.
  set (m1 := fun c => Z.lor (m c) (pbits pn (p1 :: rest) c)).
  set (v1 := fun c => v c || bool_decide (c ∈ p1 :: rest)).
  assert (Grown w h root m1 v1) as Hgrown1.
  { apply (IH m v); try done.
    - intros c Hc. apply Hinb. by right.
    - intros c l' Hc Hl' Hne. apply (Hout c l'); [by right|by rewrite last_cons_cons|done]. }
  apply (Grown_carve w h root m1 v1 p1 od p0 d m' v'); try done.
  - apply Hinb. right. left.
  - unfold v1. rewrite (bool_decide_eq_true_2 (p1 ∈ p1 :: rest)) by left.
    by rewrite orb_true_r.
  - by eapply OPPOSITE_directions.
  - rewrite Hstep. by rewrite (step_OPPOSITE _ _ _ Hod).
  - apply Hinb. left.
  - by apply OPPOSITE_involutive.
  - unfold v1. rewrite (bool_decide_eq_false_2 (p0 ∈ p1 :: rest)) by done.
    rewrite orb_false_r. apply (Hout p0 l); [left|by rewrite last_cons_cons|].
    intros ->. done.
  - intros c Hc. rewrite Hm' by done. unfold m1. cbn [pbits].
    rewrite Hpn, Hod. simpl. rewrite (ebits_comm p1 od p0 d).
    rewrite <- !Z.lor_assoc. f_equal. apply Z.lor_comm.
  - intros c Hc. rewrite Hv' by done. unfold v1.
    case_decide as Hc0.
    + subst c. rewrite (bool_decide_eq_true_2 (p0 ∈ p0 :: _)) by left.
      by rewrite orb_true_r.
    + f_equal. apply bool_decide_ext. rewrite (elem_of_cons _ c p0).
      split; [by intros [?|?]|by right].
Qed.

(** ** Wilson: the outer loop *)

Lemma remaining_cells_spec w h (in_maze : list (list bool)) (cs : list cell) :
  rect w h in_maze → (∀ c, c ∈ cs → inb w h c) →
  remaining_cells in_maze cs = Ret (filter (fun c => marks in_maze c = false) cs).
Proof.
  intros Hr. induction cs as [|[x y] cs IH]; intros Hcs; [done|].
  simpl. pose proof (getitem2_rect false w h in_maze (x, y) Hr) as Hget.
  simpl in Hget. rewrite Hget by (apply Hcs; left). simpl.
  rewrite IH by (intros c Hc; apply Hcs; by right). simpl.
  rewrite filter_cons. unfold marks.
  destruct (at2 false in_maze (x, y)); simpl; repeat case_decide; done.
Qed.

Lemma vcount_mono w h (v v' : cell → bool) :
  (∀ c, inb w h c → v c = true → v' c = true) →
  (vcount w h v <= vcount w h v')%nat.
Proof.
  intros Hv. unfold vcount.
  assert (∀ c, c ∈ cells w h → v c = true → v' c = true) as Hall.
  { intros c Hc%elem_of_cells. auto. }
  induction (cells w h) as [|c l IH]; simpl; [lia|].
  assert (sum_list_with (fun c => if v c then 1 else 0) l
          <= sum_list_with (fun c => if v' c then 1 else 0) l)%nat as Hle.
  { apply IH. intros c' Hc'. apply Hall. by right. }
  destruct (v c) eqn:Hvc.
  - rewrite (Hall c) by (done || left). lia.
  - destruct (v' c); lia.
Qed.

Lemma pending_grow w h (v v' : cell → bool) s :
  (∀ c, inb w h c → v c = true → v' c = true) →
  inb w h s → v s = false → v' s = true →
  (pending w h v' < pending w h v)%nat.
Proof.
  intros Hv Hs Hvs Hv's.
  set (v1 := fun c => if decide (c = s) then true else v c).
  pose proof (vcount_mark w h v v1 s Hs Hvs (fun _ _ => eq_refl)) as Hmark.
  pose proof (vcount_mono w h v1 v') as Hmono.
  ospecialize* Hmono.
  { intros c Hc. unfold v1. case_decide; [by subst|auto]. }
  pose proof (vcount_le w h v'). unfold pending. lia.
Qed.

Lemma wilson_loop_spec w h root :
  0 < w → 0 < h →
  ∀ fuel walk_fuel g in_maze r,
    rect w h g → rect w h in_maze →
    Grown w h root (mask g) (marks in_maze) →
    (pending w h (marks in_maze) <= fuel)%nat →
    wilson_loop fuel walk_fuel w h g in_maze r = OutOfFuel
    ∨ ∃ g', wilson_loop fuel walk_fuel w h g in_maze r = Ret g'
            ∧ perfect w h g' ∧ symmetric w h (mask g').
Proof.
  intros Hw Hh.
  induction fuel as [|fuel IH]; intros walk_fuel g in_maze r Hrg Hrv Hgrown Hfuel;
    simpl; (rewrite (remaining_cells_spec w h);
              [|done|intros c; by rewrite elem_of_cells]); simpl;
    destruct (filter (fun c => marks in_maze c = false) (cells w h))
      as [|s pool] eqn:Hpool.
  1,3: right; exists g; split; [done|]; split; [|by destruct Hgrown];
    eapply Grown_full_perfect; [done..|];
    intros c Hc; destruct (marks in_maze c) eqn:Hm; [done|];
    assert (c ∈ filter (fun c => marks in_maze c = false) (cells w h)) as Hin
      by (by apply list_elem_of_filter; split; [|apply elem_of_cells]);
    rewrite Hpool in Hin; by apply elem_of_nil in Hin.
  - exfalso.
    assert (s ∈ filter (fun c => marks in_maze c = false) (cells w h)) as Hin
      by (rewrite Hpool; left).
    apply list_elem_of_filter in Hin as [Hvs Hs%elem_of_cells].
    pose proof (vcount_missing w h (marks in_maze) s Hs Hvs).
    unfold pending in Hfuel. lia.
  - destruct (choice_spec (s :: pool) r) as ([sx sy] & -> & Hchosen); [done|].
    rewrite <- Hpool in Hchosen.
    apply list_elem_of_filter in Hchosen as [Hvs Hs%elem_of_cells]. simpl.
    destruct Hgrown as [[Hroot Hvroot] Hsym Hblank Hconn Hcount].
    destruct (wilson_walk_spec w h in_maze root Hrv Hroot Hvroot walk_fuel
                (sx, sy) [(sx, sy)] ∅ {[ (sx, sy) := 0%nat ]} (Random.advance r))
      as [Hout|(po & pn & viw & cur & r' & Hrun & Hinv & Hvcur & Hhead)].
    { split.
      - done.
      - by intros c ->%list_elem_of_singleton.
      - apply NoDup_singleton.
      - intros c i. rewrite lookup_singleton_Some, list_lookup_singleton_Some.
        split; [intros [<- <-]|intros [-> <-]]; done.
      - intros i c Hi Hlt. simpl in Hlt. lia.
      - intros i c c' Hi Hsi. done. }
    { simpl in Hout. rewrite Hout. by left. }
    simpl in Hrun. rewrite Hrun. simpl.
    destruct Hinv as [Hlast Hinb Hnodup Hindex Houtside Hnext].
    assert (∀ c l, c ∈ po → last po = Some l → c ≠ l → marks in_maze c = false)
      as Hout.
    { intros c l (i & Hi)%list_elem_of_lookup Hl Hne.
      apply (Houtside i c Hi).
      destruct (decide (S i < length po)%nat) as [|Hge]; [done|].
      exfalso. apply Hne. rewrite last_lookup in Hl.
      pose proof (lookup_lt_Some _ _ _ Hi).
      replace (pred (length po)) with i in Hl by lia. congruence. }
    destruct (wilson_carve_spec w h pn po g in_maze) as
      (g' & in_maze' & Hcarve & Hrg' & Hrv' & Hmask & Hmarks); try done.
    { by apply linked_of_index. }
    { intros l Hl. congruence. }
    rewrite Hcarve. simpl.
    apply IH; try done.
    + eapply (Grown_path w h root pn po (mask g) (marks in_maze)); try done.
      * by apply linked_of_index.
      * intros l Hl. congruence.
    + assert (pending w h (marks in_maze') < pending w h (marks in_maze))%nat;
        [|lia].
      apply (pending_grow w h _ _ (sx, sy)); try done.
      * intros c Hc Hvc. rewrite Hmarks by done. by rewrite Hvc.
      * rewrite Hmarks by done. rewrite bool_decide_eq_true_2; [by rewrite orb_true_r|].
        simpl in Hhead. destruct po as [|p0 po]; [done|].
        injection Hhead as ->. left.
Qed.

Lemma generate_maze_wilson_spec seeded fuel w h seed g :
  0 < w → 0 < h → (Z.to_nat (w * h) <= fuel)%nat →
  generate_maze_wilson seeded fuel w h seed g = OutOfFuel
  ∨ ∃ grid, generate_maze_wilson seeded fuel w h seed g = Ret grid
            ∧ perfect w h grid ∧ symmetric w h (mask grid).
Proof.
  intros Hw Hh Hfuel. unfold generate_maze_wilson.
  destruct (Z.leb_spec w 0); [lia|]. destruct (Z.leb_spec h 0); [lia|]. simpl.
  destruct (randrange_spec w (reseed seeded seed g) Hw) as (x & -> & Hx). simpl.
  destruct (randrange_spec h (Random.advance (reseed seeded seed g)) Hh)
    as (y & -> & Hy). simpl.
  assert (inb w h (x, y)) as Hroot by done.
  pose proof (setitem2_rect w h (fresh w h false) (x, y) true) as Hset.
  simpl in Hset. rewrite Hset; [|apply rect_fresh; lia|done]. simpl.
  apply (wilson_loop_spec w h (x, y)); try done.
  - apply rect_fresh; lia.
  - apply rect_put2, rect_fresh; lia.
  - by apply Grown_init.
  - pose proof (pending_init w h (x, y) Hroot).
    pose proof (length_cells w h). lia.
Qed.

(** ** The priority queue *)

Lemma item_leb_true a b : Heapq.item_leb a b = true → by_dist a b.
Proof.
  unfold Heapq.item_leb, by_dist.
  intros [H%Z.ltb_lt|[H%Z.eqb_eq _]%andb_true_iff]%orb_true_iff; lia.
Qed.

Lemma item_leb_false a b : Heapq.item_leb a b = false → by_dist b a.
Proof.
  unfold Heapq.item_leb, by_dist.
  intros [H%Z.ltb_ge _]%orb_false_iff. lia.
Qed.

Lemma heappush_perm pq a : Heapq.heappush pq a ≡ₚ a :: pq.
Proof.
  induction pq as [|b pq IH]; simpl; [done|].
  destruct (Heapq.item_leb a b); [done|]. rewrite IH. apply Permutation_swap.
Qed.

Lemma heappush_sorted pq a :
  StronglySorted by_dist pq → StronglySorted by_dist (Heapq.heappush pq a).
Proof.
  induction pq as [|b pq IH]; simpl; intros Hs.
  { constructor; [constructor|done]. }
  apply StronglySorted_inv in Hs as [Hs Hb].
  destruct (Heapq.item_leb a b) eqn:Hab.
  - apply item_leb_true in Hab. constructor; [by constructor|].
    constructor; [done|]. eapply Forall_impl; [done|].
    intros x Hx. unfold by_dist in *. lia.
  - apply item_leb_false in Hab. constructor; [auto|].
    rewrite heappush_perm. by constructor.
Qed.

Lemma elem_of_heappush pq a x : x ∈ Heapq.heappush pq a ↔ x = a ∨ x ∈ pq.
Proof. by rewrite heappush_perm, elem_of_cons. Qed.

Lemma length_heappush pq a : length (Heapq.heappush pq a) = S (length pq).
Proof. by rewrite heappush_perm. Qed.

(** ** One round of relaxation, in closed form *)

Lemma inbb_spec w h n : inbb w h n = true ↔ inb w h n.
Proof.
  unfold inbb, inb. rewrite !andb_true_iff, !Z.leb_le, !Z.ltb_lt. tauto.
Qed.

Lemma DX_DY_directions d :
  d ∈ directions → ∃ dx dy, DX d = Some dx ∧ DY d = Some dy.
Proof. intros Hd. dir_cases Hd; by eexists _, _. Qed.

Lemma relax_spec w h (grid : Grid) c cd ds st :
  rect w h grid → inb w h c → (∀ d, d ∈ ds → d ∈ directions) →
  relax grid w h c.1 c.2 cd ds st
  = Ret (foldl (relax_step (mask grid) w h c cd) st ds).
Proof.
  intros Hr Hc. revert st. induction ds as [|d ds IH]; intros st Hds; [done|].
  destruct (DX_DY_directions d) as (dx & dy & Hdx & Hdy); [apply Hds; left|].
  pose proof (getitem2_rect 0 w h grid c Hr Hc) as Hget.
  destruct c as [x y]. simpl in *. rewrite Hget. simpl.
  unfold relax_step at 2. unfold mask, step, inbb. rewrite Hdx, Hdy. simpl.
  destruct (decide (Z.land (at2 0 grid (x, y)) d ≠ 0)); simpl;
    [|apply IH; intros; apply Hds; by right].
  destruct ((0 <=? x + dx) && (x + dx <? w) && (0 <=? y + dy)
            && (y + dy <? h)); simpl;
    [|apply IH; intros; apply Hds; by right].
  destruct (dist st !! (x + dx, y + dy)) as [old|]; simpl.
  - destruct (cd + 1 <? old); apply IH; intros; apply Hds; by right.
  - apply IH; intros; apply Hds; by right.
Qed.

Lemma relax_same (grid : Grid) w h x y cd ds st1 st2 :
  same st1 st2 →
  same_outcome (relax grid w h x y cd ds st1) (relax grid w h x y cd ds st2).
Proof.
  revert st1 st2. induction ds as [|d ds IH]; intros st1 st2 Hsame; [done|].
  simpl. destruct (Py.getitem2 grid x y) as [c| |]; simpl; try done.
  destruct (decide (Z.land c d ≠ 0)); [|by apply IH].
  destruct (DX d) as [dx|]; simpl; [|done].
  destruct (DY d) as [dy|]; simpl; [|done].
  destruct ((0 <=? x + dx) && (x + dx <? w) && (0 <=? y + dy) && (y + dy <? h));
    [|by apply IH].
  destruct Hsame as (Hd & Hp & Hq). rewrite Hd.
  destruct (dist st2 !! (x + dx, y + dy)) as [old|]; simpl.
  - destruct (cd + 1 <? old); apply IH; [|done].
    split; simpl; [|split]; congruence.
  - apply IH. split; simpl; [|split]; congruence.
Qed.

(** ** The breadth-first invariant *)

Lemma queued_entry st c : queued st c → ∃ d, (d, c) ∈ pq st.
Proof.
  unfold queued. intros ([d c'] & -> & Hin)%list_elem_of_fmap. by exists d.
Qed.

Lemma entry_queued st d c : (d, c) ∈ pq st → queued st c.
Proof.
  intros Hin. unfold queued. apply list_elem_of_fmap. by exists (d, c).
Qed.

Lemma disc_true st c : disc st c = true ↔ is_Some (dist st !! c).
Proof. unfold disc. by rewrite bool_decide_eq_true. Qed.

Lemma disc_false st c : disc st c = false ↔ dist st !! c = None.
Proof.
  unfold disc. rewrite bool_decide_eq_false. by rewrite eq_None_not_Some.
Qed.

Section Discover.
Context (w h : Z) (mk : cell → Z) (start c : cell) (m : Z) (st : search).
Context (n : cell).
Hypothesis Hinv : BfsInv w h mk start (Some c) m st.
Hypothesis Hc : dist st !! c = Some m.
Hypothesis Hpass : passage w h mk c n.
Hypothesis Hnew : dist st !! n = None.

Let st' : search :=
  Search (<[n := m + 1]> (dist st)) (<[n := Some c]> (prev st))
         (Heapq.heappush (pq st) (m + 1, n)) (visited st).

Local Lemma discover_queued x : queued st' x ↔ x = n ∨ queued st x.
Proof.
  unfold queued, st'. simpl. rewrite heappush_perm. simpl.
  by rewrite elem_of_cons.
Qed.

Local Lemma discover_disc x :
  inb w h x → disc st' x = if decide (x = n) then true else disc st x.
Proof.
  intros _. unfold disc, st'. simpl. case_decide as Hx.
  - subst x. rewrite lookup_insert_eq. by apply bool_decide_eq_true_2.
  - by rewrite lookup_insert_ne.
Qed.

Lemma discover_inv : BfsInv w h mk start (Some c) m st'.
Proof.
  destruct Hinv as [[Hs0 Hsp] Hinb Hprev Hdom Hpq Hnodup Hsorted Hsettled
                    Hclosed Hcomplete Hsound Hdepth].
  destruct Hpass as (Hcb & Hnb & _).
  assert (0 <= m) as Hm by (destruct (Hinb c m Hc); lia).
  assert (n ≠ start) as Hns by (intros ->; congruence).
  assert (n ≠ c) as Hnc by (intros ->; congruence).
  assert (∀ x d, dist st !! x = Some d → x ≠ n) as Hold
    by (intros x d Hx ->; congruence).
  split.
  - unfold st'; simpl. by rewrite !lookup_insert_ne.
  - unfold st'; simpl. intros x d. destruct (decide (x = n)) as [->|Hx].
    + rewrite lookup_insert_eq. intros [= <-]. split; [done|lia].
    + rewrite lookup_insert_ne by done. apply Hinb.
  - unfold st'; simpl. intros x d. destruct (decide (x = n)) as [->|Hx].
    + rewrite !lookup_insert_eq. intros [= <-] _. exists c.
      rewrite lookup_insert_ne by done. replace (m + 1 - 1) with m by lia. done.
    + rewrite !lookup_insert_ne by done. intros Hxd Hxs.
      destruct (Hprev x d Hxd Hxs) as (p & Hp & Hpd & Hpp).
      exists p. rewrite lookup_insert_ne; [done|]. intros <-. congruence.
  - unfold st'; simpl. intros x. destruct (decide (x = n)) as [->|Hx].
    + by rewrite !lookup_insert_eq.
    + rewrite !lookup_insert_ne by done. apply Hdom.
  - unfold st'; simpl. intros d x [[= -> ->]|Hin]%elem_of_heappush.
    + rewrite lookup_insert_eq. split; [done|lia].
    + destruct (Hpq d x Hin) as [Hxd Hmd].
      rewrite lookup_insert_ne; [done|]. intros <-. congruence.
  - unfold st'; simpl. rewrite heappush_perm. simpl. apply NoDup_cons. split; [|done].
    intros [d Hin]%(queued_entry st). apply Hpq in Hin as [Hin _]. congruence.
  - unfold st'; simpl. by apply heappush_sorted.
  - intros x d Hxd Hq. rewrite (discover_queued x) in Hq.
    unfold st' in *; simpl in *.
    destruct (decide (x = n)) as [->|Hx]; [tauto|].
    rewrite lookup_insert_ne in Hxd by done. apply (Hsettled x d Hxd). tauto.
  - intros x y [d Hxd] Hq Hbusy Hxy. rewrite (discover_queued x) in Hq.
    unfold st' in *; simpl in *.
    destruct (decide (x = n)) as [->|Hx]; [tauto|].
    rewrite lookup_insert_ne in Hxd by done.
    destruct (Hclosed x y) as [dy Hy]; [by eexists|tauto|done..|].
    exists dy. rewrite lookup_insert_ne; [done|]. intros <-. congruence.
  - unfold st'; simpl. intros k x Hk Hkm. destruct (Hcomplete k x Hk Hkm) as (d & Hxd & Hdk).
    exists d. rewrite lookup_insert_ne; [done|]. intros <-. congruence.
  - unfold st'; simpl. intros x d. destruct (decide (x = n)) as [->|Hx].
    + rewrite lookup_insert_eq. intros [= <-].
      replace (Z.to_nat (m + 1)) with (S (Z.to_nat m)) by lia.
      eapply nsteps_r; [by apply Hsound|done].
    + rewrite lookup_insert_ne by done. apply Hsound.
  - intros x d Hxd.
    rewrite (vcount_mark w h (disc st) (disc st') n Hnb);
      [|by apply disc_false|apply discover_disc].
    unfold st' in Hxd; simpl in Hxd.
    destruct (decide (x = n)) as [->|Hx].
    + rewrite lookup_insert_eq in Hxd. injection Hxd as <-.
      pose proof (Hdepth c m Hc). lia.
    + rewrite lookup_insert_ne in Hxd by done.
      pose proof (Hdepth x d Hxd). lia.
Qed.

Lemma discover_load : load w h st' = load w h st.
Proof.
  destruct Hpass as (_ & Hnb & _). unfold load.
  rewrite <- (pending_mark w h (disc st) (disc st') n Hnb);
    [|by apply disc_false|apply discover_disc].
  unfold st' at 1. simpl. rewrite length_heappush. lia.
Qed.

End Discover.

Lemma Ext_refl w h st : Ext w h st st.
Proof.
  split; try done. intros x Hx [d Hd]. congruence.
Qed.

Lemma Ext_trans w h st1 st2 st3 :
  Ext w h st1 st2 → Ext w h st2 st3 → Ext w h st1 st3.
Proof.
  intros [Hd1 Ho1 Hn1 Hv1 Hl1] [Hd2 Ho2 Hn2 Hv2 Hl2]. split.
  - auto.
  - intros x [d Hx]. rewrite Ho2 by (exists d; auto). apply Ho1. by exists d.
  - intros x Hx Hx3. destruct (dist st2 !! x) as [d|] eqn:Hx2.
    + apply Ho2; [by exists d|]. apply Hn1; [done|by exists d].
    + by apply Hn2.
  - congruence.
  - congruence.
Qed.

Lemma Ext_settled w h st st' x :
  Ext w h st st' →
  (is_Some (dist st' !! x) ∧ ¬ queued st' x)
  ↔ (is_Some (dist st !! x) ∧ ¬ queued st x).
Proof.
  intros [Hd Ho Hn _ _]. split.
  - intros [Hx Hq]. destruct (dist st !! x) as [d|] eqn:Hdx.
    + split; [by exists d|]. rewrite <- Ho; [done|by exists d].
    + exfalso. by apply Hq, Hn.
  - intros [[d Hx] Hq]. split; [exists d; auto|]. rewrite Ho; [done|by exists d].
Qed.

Lemma relax_step_inv w h mk start c m st d :
  BfsInv w h mk start (Some c) m st → dist st !! c = Some m → inb w h c →
  d ∈ directions →
  BfsInv w h mk start (Some c) m (relax_step mk w h c m st d)
  ∧ Ext w h st (relax_step mk w h c m st d)
  ∧ (open_to mk c d → inb w h (step c d) →
     is_Some (dist (relax_step mk w h c m st d) !! step c d)).
Proof.
  intros Hinv Hc Hcb Hd. unfold relax_step.
  destruct (decide (Z.land (mk c) d ≠ 0)) as [Hopen|Hclosed];
    [|split; [done|split; [apply Ext_refl|done]]].
  destruct (inbb w h (step c d)) eqn:Hn;
    [|split; [done|split; [apply Ext_refl|]];
      intros _ Hnb%inbb_spec; congruence].
  apply inbb_spec in Hn.
  destruct (dist st !! step c d) as [old|] eqn:Hold.
  - destruct (bfs_inb _ _ _ _ _ _ _ Hinv _ _ Hold) as [_ Hle].
    destruct (Z.ltb_spec (m + 1) old); [lia|].
    split; [done|split; [apply Ext_refl|]]. intros _ _. by exists old.
  - assert (passage w h mk c (step c d)) as Hpass.
    { split; [done|]. split; [done|]. by exists d. }
    split; [by apply discover_inv|]. split.
    + split; simpl.
      * intros x dx Hx. rewrite lookup_insert_ne; [done|]. intros <-. congruence.
      * intros x [dx Hx]. unfold queued. simpl. rewrite heappush_perm. simpl.
        rewrite elem_of_cons. split; [|by right].
        intros [->|?]; [congruence|done].
      * intros x Hx. unfold queued. simpl. rewrite heappush_perm. simpl.
        destruct (decide (x = step c d)) as [->|Hne]; [left|].
        rewrite lookup_insert_ne by done. intros [? ?]. congruence.
      * done.
      * by eapply discover_load.
    + intros _ _. simpl. rewrite lookup_insert_eq. by eexists.
Qed.

Lemma relax_fold_inv w h mk start c m :
  inb w h c →
  ∀ ds st,
    BfsInv w h mk start (Some c) m st → dist st !! c = Some m →
    (∀ d, d ∈ ds → d ∈ directions) →
    BfsInv w h mk start (Some c) m (foldl (relax_step mk w h c m) st ds)
    ∧ Ext w h st (foldl (relax_step mk w h c m) st ds)
    ∧ (∀ d, d ∈ ds → open_to mk c d → inb w h (step c d) →
       is_Some (dist (foldl (relax_step mk w h c m) st ds) !! step c d)).
Proof.
  intros Hcb. induction ds as [|d ds IH]; intros st Hinv Hc Hds.
  { split; [done|]. split; [apply Ext_refl|]. by intros d ?%elem_of_nil. }
  simpl.
  destruct (relax_step_inv w h mk start c m st d Hinv Hc Hcb) as (Hinv1 & Hext1 & Hd1).
  { apply Hds. left. }
  destruct (IH (relax_step mk w h c m st d)) as (Hinv2 & Hext2 & Hd2).
  { done. }
  { by apply (ext_dist _ _ _ _ Hext1). }
  { intros d' Hd'. apply Hds. by right. }
  split; [done|]. split; [by eapply Ext_trans|].
  intros d' [->|Hd']%elem_of_cons Hopen Hnb; [|by apply Hd2].
  destruct (Hd1 Hopen Hnb) as [dx Hdx]. exists dx.
  by apply (ext_dist _ _ _ _ Hext2).
Qed.

Lemma BfsInv_idle w h mk start c m st :
  BfsInv w h mk start (Some c) m st →
  (∀ n, passage w h mk c n → is_Some (dist st !! n)) →
  BfsInv w h mk start None m st.
Proof.
  intros [Hs Hinb Hprev Hdom Hpq Hnodup Hsorted Hsettled Hclosed Hcomplete
          Hsound Hdepth] Hc.
  split; try done.
  intros x y Hx Hq _ Hxy. destruct (decide (x = c)) as [->|Hne]; [by apply Hc|].
  apply (Hclosed x y); try done. congruence.
Qed.

Lemma pop_inv w h mk start m st d c rest :
  BfsInv w h mk start None m st → pq st = (d, c) :: rest →
  BfsInv w h mk start (Some c) d
    (Search (dist st) (prev st) rest (visited st))
  ∧ dist st !! c = Some d ∧ ¬ (c ∈ snd <$> rest) ∧ inb w h c
  ∧ S (load w h (Search (dist st) (prev st) rest (visited st))) = load w h st.
Proof.
  intros [Hs Hinb Hprev Hdom Hpq Hnodup Hsorted Hsettled Hclosed Hcomplete
          Hsound Hdepth] Hpop.
  rewrite Hpop in Hpq, Hnodup, Hsorted.
  destruct (Hpq d c) as [Hc Hmd]; [left|].
  destruct (Hinb c d Hc) as [Hcb Hdm].
  apply StronglySorted_inv in Hsorted as [Hsorted Hmin].
  simpl in Hnodup. apply NoDup_cons in Hnodup as [Hnotin Hnodup].
  assert (∀ x, ¬ queued (Search (dist st) (prev st) rest (visited st)) x →
               x ≠ c → ¬ queued st x) as Hunq.
  { intros x Hq Hne. unfold queued in *. rewrite Hpop. simpl in *.
    by intros [?|?]%elem_of_cons. }
  split; [|split; [done|split; [done|split; [done|]]]].
  - split; simpl; try done.
    + intros x dx Hx. destruct (Hinb x dx Hx). split; [done|lia].
    + intros dx x Hin. destruct (Hpq dx x) as [Hx _]; [by right|].
      split; [done|]. rewrite Forall_forall in Hmin. by apply (Hmin (dx, x)).
    + intros x dx Hx Hq. destruct (decide (x = c)) as [->|Hne]; [by simplify_eq|].
      pose proof (Hsettled x dx Hx (Hunq x Hq Hne)). lia.
    + intros x y Hx Hq Hbusy Hxy. apply (Hclosed x y); try done.
      apply Hunq; [done|congruence].
    + intros k x Hk Hkd. destruct (decide (Z.of_nat k <= m)) as [|Hkm]; [auto|].
      destruct k as [|k].
      { inversion Hk; subst. exists 0. split; [apply Hs|lia]. }
      apply nsteps_inv_r in Hk as (p & Hp & Hpx).
      destruct (Hcomplete k p Hp) as (dp & Hdp & Hdpk); [lia|].
      assert (¬ queued st p) as Hpq'.
      { intros [dp' Hin]%queued_entry. rewrite Hpop in Hin.
        destruct (Hpq dp' p Hin) as [Hdp' _].
        assert (d <= dp'); [|simplify_eq; lia].
        apply elem_of_cons in Hin as [[= -> ->]|Hin]; [lia|].
        rewrite Forall_forall in Hmin. by apply (Hmin (dp', p)). }
      destruct (Hclosed p x) as [dx Hdx]; [by eexists|done..|].
      exists dx. split; [done|]. destruct (Hinb x dx Hdx). lia.
  - unfold load. rewrite Hpop. simpl. done.
Qed.

Lemma BfsInv_same w h mk start busy m st1 st2 :
  same st1 st2 → BfsInv w h mk start busy m st1 → BfsInv w h mk start busy m st2.
Proof.
  destruct st1 as [d1 p1 q1 v1], st2 as [d2 p2 q2 v2].
  intros (Hd & Hp & Hq). simpl in *. subst.
  intros [? ? ? ? ? ? ? ? ? ? ? ?]. by split.
Qed.

Lemma same_refl st : same st st.
Proof. done. Qed.

Lemma BfsInv_init w h mk start :
  inb w h start → BfsInv w h mk start None 0 (init start).
Proof.
  intros Hs.
  assert (∀ c, inb w h c →
            disc (init start) c = if decide (c = start) then true else false)
    as Hdisc.
  { intros c _. unfold disc, init. simpl. case_decide as Hc.
    - subst. rewrite lookup_singleton_eq. by apply bool_decide_eq_true_2.
    - rewrite lookup_singleton_ne by done. apply bool_decide_eq_false_2.
      by intros [? ?]. }
  split.
  - unfold init; simpl. by rewrite !lookup_singleton_eq.
  - unfold init; simpl. intros c d [<- <-]%lookup_singleton_Some. split; [done|lia].
  - unfold init; simpl. intros c d [<- <-]%lookup_singleton_Some. done.
  - unfold init; simpl. intros c. rewrite !lookup_singleton_None. done.
  - unfold init; simpl. intros d c [= -> ->]%list_elem_of_singleton.
    by rewrite lookup_singleton_eq.
  - unfold init; simpl. apply NoDup_singleton.
  - unfold init; simpl. repeat constructor.
  - unfold init; simpl. intros c d [<- <-]%lookup_singleton_Some. done.
  - unfold init; simpl. intros c n [d [<- <-]%lookup_singleton_Some] Hq. exfalso. apply Hq.
    unfold queued. simpl. by left.
  - unfold init; simpl. intros k c Hk Hk0. assert (k = 0%nat) as -> by lia.
    inversion Hk; subst. exists 0. by rewrite lookup_singleton_eq.
  - unfold init; simpl. intros c d [<- <-]%lookup_singleton_Some. constructor.
  - intros c d Hcd. unfold init in Hcd. simpl in Hcd.
    apply lookup_singleton_Some in Hcd as [<- <-].
    rewrite (vcount_mark w h (fun _ => false) _ start Hs eq_refl Hdisc). lia.
Qed.

Lemma load_init w h start :
  inb w h start → load w h (init start) = length (cells w h).
Proof.
  intros Hs.
  pose proof (pending_mark w h (fun _ => false) (disc (init start)) start Hs eq_refl)
    as Hp.
  ospecialize* Hp.
  { intros c _. unfold disc, init. simpl. case_decide as Hc.
    - subst. rewrite lookup_singleton_eq. by apply bool_decide_eq_true_2.
    - rewrite lookup_singleton_ne by done. apply bool_decide_eq_false_2.
      by intros [? ?]. }
  unfold load. change (pq (init start)) with [(0, start)].
  unfold pending in Hp at 2. rewrite vcount_none in Hp by done.
  simpl length. lia.
Qed.

Lemma VisOK_init start : VisOK (init start).
Proof.
  intros c. unfold init, queued. simpl. split; [by intros ?%elem_of_empty|].
  intros [[d [<- <-]%lookup_singleton_Some] Hq]. exfalso. apply Hq. by left.
Qed.

(** ** The two search loops *)

Lemma bind_Ret {A B} (a : A) (f : A → outcome B) : (Ret a ≫= f) = f a.
Proof. done. Qed.

Lemma backup_loop_nil fuel grid w h end_ st :
  pq st = [] → backup_loop fuel grid w h end_ st = Ret st.
Proof. intros Hpq. destruct fuel; simpl; by rewrite Hpq. Qed.

Lemma solve_loop_nil fuel grid w h end_ st :
  pq st = [] → solve_loop fuel grid w h end_ st = Ret st.
Proof. intros Hpq. destruct fuel; simpl; by rewrite Hpq. Qed.

Lemma backup_loop_cons fuel grid w h end_ st d x y rest :
  pq st = (d, (x, y)) :: rest →
  backup_loop (S fuel) grid w h end_ st
  = if decide ((x, y) = end_)
    then Ret (Search (dist st) (prev st) rest (visited st))
    else
      best ← subscript (dist st !! (x, y));
      if best <? d
      then backup_loop fuel grid w h end_
             (Search (dist st) (prev st) rest (visited st))
      else
        st' ← relax grid w h x y d directions
                (Search (dist st) (prev st) rest (visited st));
        backup_loop fuel grid w h end_ st'.
Proof. intros Hpq. simpl. by rewrite Hpq. Qed.

Lemma solve_loop_cons fuel grid w h end_ st d x y rest :
  pq st = (d, (x, y)) :: rest →
  solve_loop (S fuel) grid w h end_ st
  = if decide ((x, y) = end_)
    then Ret (Search (dist st) (prev st) rest (visited st))
    else if decide ((x, y) ∈ visited st)
    then solve_loop fuel grid w h end_
           (Search (dist st) (prev st) rest (visited st))
    else
      st' ← relax grid w h x y d directions
              (Search (dist st) (prev st) rest ({[(x, y)]} ∪ visited st));
      solve_loop fuel grid w h end_ st'.
Proof. intros Hpq. simpl. by rewrite Hpq. Qed.

Lemma loop_out_of_fuel_solve grid w h end_ st e rest :
  pq st = e :: rest → solve_loop 0 grid w h end_ st = OutOfFuel.
Proof. intros Hpq. simpl. rewrite Hpq. by destruct e as [? [? ?]]. Qed.

Lemma loop_out_of_fuel_backup grid w h end_ st e rest :
  pq st = e :: rest → backup_loop 0 grid w h end_ st = OutOfFuel.
Proof. intros Hpq. simpl. rewrite Hpq. by destruct e as [? [? ?]]. Qed.

Lemma passage_relaxed w h mk c st :
  (∀ d, d ∈ directions → open_to mk c d → inb w h (step c d) →
        is_Some (dist st !! step c d)) →
  ∀ n, passage w h mk c n → is_Some (dist st !! n).
Proof. intros Hall n (_ & Hn & d & Hd & Hopen & ->). by apply Hall. Qed.

Lemma backup_loop_spec w h (grid : Grid) start end_ :
  rect w h grid →
  ∀ fuel st m,
    BfsInv w h (mask grid) start None m st → (load w h st <= fuel)%nat →
    ∃ st' m' busy,
      backup_loop fuel grid w h end_ st = Ret st'
      ∧ BfsInv w h (mask grid) start busy m' st'
      ∧ ((pq st' = [] ∧ busy = None) ∨ is_Some (dist st' !! end_)).
Proof.
  intros Hr. induction fuel as [|fuel IH]; intros st m Hinv Hfuel.
  - destruct (pq st) as [|e rest] eqn:Hpq; [|unfold load in Hfuel; rewrite Hpq in Hfuel;
                                             simpl in Hfuel; lia].
    exists st, m, None. rewrite backup_loop_nil by done. split; [done|].
    split; [done|]. by left.
  - destruct (pq st) as [|[d [x y]] rest] eqn:Hpq.
    { exists st, m, None. rewrite backup_loop_nil by done. split; [done|].
      split; [done|]. by left. }
    destruct (pop_inv w h (mask grid) start m st d (x, y) rest Hinv Hpq)
      as (Hinv1 & Hc & Hnq & Hcb & Hload).
    rewrite (backup_loop_cons _ _ _ _ _ _ _ _ _ _ Hpq).
    destruct (decide ((x, y) = end_)) as [<-|Hne].
    { eexists _, d, (Some (x, y)). split; [done|]. split; [done|]. right. by eexists. }
    rewrite Hc. cbn [subscript]. rewrite bind_Ret, Z.ltb_irrefl.
    pose proof (relax_spec w h grid (x, y) d directions
                  (Search (dist st) (prev st) rest (visited st)) Hr Hcb) as Hrelax.
    cbn [fst snd] in Hrelax. rewrite Hrelax by done. rewrite bind_Ret.
    destruct (relax_fold_inv w h (mask grid) start (x, y) d Hcb directions
                (Search (dist st) (prev st) rest (visited st)) Hinv1 Hc)
      as (Hinv2 & Hext & Hall); [done|].
    eapply IH.
    + eapply BfsInv_idle; [done|]. apply passage_relaxed. intros d' Hd'. by apply Hall.
    + rewrite (ext_load _ _ _ _ Hext). lia.
Qed.

Lemma loops_same w h (grid : Grid) start end_ :
  rect w h grid →
  ∀ fuel st1 st2 m,
    BfsInv w h (mask grid) start None m st1 → VisOK st1 → same st1 st2 →
    same_outcome (solve_loop fuel grid w h end_ st1)
                 (backup_loop fuel grid w h end_ st2).
Proof.
  intros Hr. induction fuel as [|fuel IH]; intros st1 st2 m Hinv Hvis Hsame;
    pose proof Hsame as (Hd & Hp & Hq);
    destruct (pq st1) as [|[d [x y]] rest] eqn:Hpq.
  - rewrite solve_loop_nil, backup_loop_nil by done. done.
  - rewrite (loop_out_of_fuel_solve _ _ _ _ _ _ _ Hpq).
    rewrite (loop_out_of_fuel_backup _ _ _ _ _ (d, (x, y)) rest) by done.
    done.
  - rewrite solve_loop_nil, backup_loop_nil by done. done.
  - destruct (pop_inv w h (mask grid) start m st1 d (x, y) rest Hinv Hpq)
      as (Hinv1 & Hc & Hnq & Hcb & Hload).
    rewrite (solve_loop_cons _ _ _ _ _ _ _ _ _ _ Hpq).
    rewrite (backup_loop_cons _ _ _ _ _ _ d x y rest) by done.
    destruct (decide ((x, y) = end_)) as [<-|Hne]; [by split; [|split]|].
    rewrite decide_False; cycle 1.
    { intros [_ Hnot]%Hvis. apply Hnot. unfold queued. rewrite Hpq. by left. }
    rewrite <- Hd, Hc. cbn [subscript]. rewrite bind_Ret, Z.ltb_irrefl.
    pose proof (relax_spec w h grid (x, y) d directions) as Hrelax.
    cbn [fst snd] in Hrelax. rewrite !Hrelax by done. rewrite !bind_Ret.
    set (A := Search (dist st1) (prev st1) rest ({[(x, y)]} ∪ visited st1)).
    set (B := Search (dist st1) (prev st2) rest (visited st2)).
    assert (same A B) as HAB by (by split; [|split]).
    assert (BfsInv w h (mask grid) start (Some (x, y)) d A) as HinvA.
    { eapply BfsInv_same; [|exact Hinv1]. done. }
    destruct (relax_fold_inv w h (mask grid) start (x, y) d Hcb directions A HinvA Hc)
      as (Hinv2 & Hext & Hall); [done|].
    pose proof (relax_same grid w h x y d directions A B HAB) as Hsame'.
    rewrite !Hrelax in Hsame' by done.
    eapply IH; [| |exact Hsame'].
    + eapply BfsInv_idle; [done|]. apply passage_relaxed. intros d' Hd'. by apply Hall.
    + intros c. rewrite (Ext_settled w h A _ c Hext), (ext_visited _ _ _ _ Hext).
      unfold A, queued. simpl. rewrite elem_of_union, elem_of_singleton, (Hvis c).
      unfold queued. rewrite Hpq. simpl. rewrite elem_of_cons. split.
      * intros [->|[Hc' Hq']].
        -- split; [by eexists|done].
        -- split; [done|]. intros ?. apply Hq'. by right.
      * intros [Hc' Hq']. destruct (decide (c = (x, y))) as [->|Hcne]; [by left|].
        right. split; [done|]. by intros [?|?].
Qed.

(** ** Reading the path off the predecessor links *)

Lemma walk_snoc w h mk (l : list cell) p c :
  walk w h mk l → last l = Some p → passage w h mk p c → walk w h mk (l ++ [c]).
Proof.
  induction l as [|a l IH]; [done|]. intros Hwalk Hlast Hpc.
  destruct l as [|b l].
  - simpl in *. injection Hlast as ->. done.
  - destruct Hwalk as [Hab Hwalk]. split; [done|]. apply IH; [done| |done].
    by rewrite last_cons_cons in Hlast.
Qed.

Lemma walk_nsteps w h mk (q : list cell) a b :
  head q = Some a → last q = Some b → walk w h mk q →
  nsteps (passage w h mk) (length q - 1) a b.
Proof.
  revert a. induction q as [|x q IH]; [done|]. intros a [= ->] Hlast Hwalk.
  destruct q as [|y q].
  - simpl in *. injection Hlast as ->. constructor.
  - destruct Hwalk as [Hay Hwalk]. rewrite last_cons_cons in Hlast.
    specialize (IH y eq_refl Hlast Hwalk). simpl in *.
    rewrite Nat.sub_0_r in IH. by econstructor.
Qed.

Lemma BfsInv_minimal w h mk start busy m st c d k :
  BfsInv w h mk start busy m st → dist st !! c = Some d →
  nsteps (passage w h mk) k start c → d <= Z.of_nat k.
Proof.
  intros Hinv Hc Hk. destruct (decide (Z.of_nat k <= m)) as [Hkm|Hkm].
  - destruct (bfs_complete _ _ _ _ _ _ _ Hinv k c Hk Hkm) as (d' & Hd' & Hle).
    by simplify_eq.
  - destruct (bfs_inb _ _ _ _ _ _ _ Hinv c d Hc). lia.
Qed.

Lemma BfsInv_exhausted w h mk start m st k c :
  BfsInv w h mk start None m st → pq st = [] →
  nsteps (passage w h mk) k start c → is_Some (dist st !! c).
Proof.
  intros Hinv Hpq. revert c. induction k as [|k IH]; intros c Hk.
  - inversion Hk; subst. destruct (bfs_start _ _ _ _ _ _ _ Hinv) as [Hs _].
    by eexists.
  - apply nsteps_inv_r in Hk as (p & Hp & Hpc).
    apply (bfs_closed _ _ _ _ _ _ _ Hinv p c); [by apply IH| |done..].
    unfold queued. rewrite Hpq. by intros ?%elem_of_nil.
Qed.

Lemma trace_spec w h mk start busy m st :
  BfsInv w h mk start busy m st →
  ∀ n c d acc fuel,
    dist st !! c = Some d → Z.to_nat d = n → (n < fuel)%nat →
    ∃ chain,
      trace_get fuel (prev st) (Some c) acc = Ret (acc ++ chain)
      ∧ trace_subscript fuel (prev st) (Some c) acc = Ret (acc ++ chain)
      ∧ length chain = S n ∧ head chain = Some c ∧ last chain = Some start
      ∧ walk w h mk (reverse chain)
      ∧ (∀ i x, chain !! i = Some x → dist st !! x = Some (d - Z.of_nat i)).
Proof.
  intros Hinv. destruct (bfs_start _ _ _ _ _ _ _ Hinv) as [Hs0 Hsp].
  induction n as [|n IH]; intros c d acc fuel Hc Hn Hfuel;
    (destruct fuel as [|fuel]; [lia|]);
    destruct (bfs_inb _ _ _ _ _ _ _ Hinv c d Hc) as [_ Hd].
  - assert (d = 0) as -> by lia.
    assert (c = start) as ->.
    { destruct (decide (c = start)) as [|Hne]; [done|].
      destruct (bfs_prev _ _ _ _ _ _ _ Hinv c 0 Hc Hne) as (p & _ & Hp & _).
      destruct (bfs_inb _ _ _ _ _ _ _ Hinv p _ Hp). lia. }
    exists [start]. simpl. unfold prev_get. rewrite Hsp. simpl.
    split; [by destruct fuel|]. split; [by destruct fuel|].
    split; [done|]. split; [done|]. split; [done|]. split; [done|].
    intros [|i] x; [|done]. intros [= <-]. by rewrite Z.sub_0_r.
  - assert (c ≠ start) as Hne by (intros ->; simplify_eq; lia).
    destruct (bfs_prev _ _ _ _ _ _ _ Hinv c d Hc Hne) as (p & Hpp & Hp & Hpc).
    destruct (IH p (d - 1) (acc ++ [c]) fuel Hp) as
      (chain & Hg & Hsub & Hlen & Hhead & Hlast & Hwalk & Hidx); [lia..|].
    exists (c :: chain). simpl. unfold prev_get. rewrite Hpp. simpl.
    rewrite <- app_assoc in Hg, Hsub. simpl in Hg, Hsub.
    fold (prev_get (prev st) p) in *.
    split; [done|]. split; [done|]. split; [by rewrite Hlen|]. split; [done|].
    split.
    { destruct chain; [done|]. by rewrite last_cons_cons. }
    split.
    { rewrite reverse_cons. eapply walk_snoc; [done| |done].
      rewrite last_reverse. done. }
    intros [|i] x; simpl.
    + intros [= <-]. by rewrite Z.sub_0_r.
    + intros Hx. rewrite (Hidx i x Hx). f_equal. lia.
Qed.

(** ** The solvers *)

Lemma dimensions_rect w h (grid : Grid) :
  0 < h → rect w h grid → dimensions grid = Ret (h, w).
Proof.
  intros Hh Hr. unfold dimensions.
  destruct (rect_row w h grid 0 Hr) as (row & Hrow & Hlen); [lia|].
  destruct Hr as [Hlg _].
  destruct (getitem_in_range grid 0) as (row' & Hrow' & ->); [lia|].
  rewrite Hrow in Hrow'. injection Hrow' as <-. simpl. by rewrite Hlg, Hlen.
Qed.

(** The state in which either loop stops, on a rectangular grid and from
    an in-bounds start. *)
Lemma loops_stop w h (grid : Grid) start end_ fuel :
  rect w h grid → inb w h start → (Z.to_nat (w * h) <= fuel)%nat →
  ∃ st1 st2 m busy,
    solve_loop fuel grid w h end_ (init start) = Ret st1
    ∧ backup_loop fuel grid w h end_ (init start) = Ret st2
    ∧ same st1 st2
    ∧ BfsInv w h (mask grid) start busy m st2
    ∧ ((pq st2 = [] ∧ busy = None) ∨ is_Some (dist st2 !! end_)).
Proof.
  intros Hr Hs Hfuel.
  assert (0 <= w ∧ 0 <= h) as [Hw Hh] by (unfold inb in Hs; lia).
  destruct (backup_loop_spec w h grid start end_ Hr fuel (init start) 0)
    as (st2 & m & busy & Hrun & Hinv & Hpost).
  { by apply BfsInv_init. }
  { rewrite load_init by done. pose proof (length_cells w h). lia. }
  pose proof (loops_same w h grid start end_ Hr fuel (init start) (init start) 0)
    as Hsame.
  ospecialize* Hsame.
  { by apply BfsInv_init. }
  { apply VisOK_init. }
  { done. }
  rewrite Hrun in Hsame.
  destruct (solve_loop fuel grid w h end_ (init start)) as [st1| |]; try done.
  by exists st1, st2, m, busy.
Qed.

Lemma solvers_reachable w h (grid : Grid) start end_ fuel k :
  rect w h grid → 0 < h → inb w h start →
  nsteps (passage w h (mask grid)) k start end_ →
  (Z.to_nat (w * h) <= fuel)%nat →
  ∃ path,
    dijkstra_solve fuel grid start end_ = Ret path
    ∧ solve_maze_dijkstra fuel grid start end_ = Ret (Some path)
    ∧ joins w h (mask grid) start end_ path
    ∧ NoDup path
    ∧ (∀ n, nsteps (passage w h (mask grid)) n start end_ →
            (length path - 1 <= n)%nat).
Proof.
  intros Hr Hh Hs Hk Hfuel.
  destruct (loops_stop w h grid start end_ fuel Hr Hs Hfuel)
    as (st1 & st2 & m & busy & Hrun1 & Hrun2 & (Hd & Hp & Hq) & Hinv & Hpost).
  assert (is_Some (dist st2 !! end_)) as [d Hend].
  { destruct Hpost as [[Hpq ->]|]; [|done]. by eapply BfsInv_exhausted. }
  destruct (bfs_inb _ _ _ _ _ _ _ Hinv _ _ Hend) as [_ Hd0].
  pose proof (bfs_depth _ _ _ _ _ _ _ Hinv _ _ Hend) as Hdepth.
  pose proof (vcount_le w h (disc st2)) as Hvc.
  assert (0 <= w) as Hw by (unfold inb in Hs; lia).
  pose proof (length_cells w h Hw).
  destruct (trace_spec w h (mask grid) start busy m st2 Hinv (Z.to_nat d) end_ d
              [] fuel Hend eq_refl)
    as (chain & Hget & Hsub & Hlen & Hhead & Hlast & Hwalk & Hidx); [lia|].
  exists (reverse chain).
  unfold dijkstra_solve, solve_maze_dijkstra.
  rewrite (dimensions_rect w h) by done. rewrite !bind_Ret.
  rewrite Hrun1, Hrun2, !bind_Ret, Hp, Hget, bind_Ret.
  rewrite decide_True; cycle 1.
  { apply elem_of_dom. apply not_eq_None_Some.
    rewrite (bfs_dom _ _ _ _ _ _ _ Hinv). congruence. }
  rewrite Hsub, bind_Ret. split; [done|]. split; [done|]. split.
  { split; [|split; [|done]].
    - by rewrite head_reverse.
    - by rewrite last_reverse. }
  split.
  { rewrite reverse_Permutation. apply NoDup_alt. intros i j x Hi Hj.
    pose proof (Hidx i x Hi). pose proof (Hidx j x Hj). simplify_eq. lia. }
  intros n Hn. rewrite length_reverse, Hlen.
  pose proof (BfsInv_minimal _ _ _ _ _ _ _ _ _ _ Hinv Hend Hn). lia.
Qed.

Lemma solvers_unreachable w h (grid : Grid) start end_ fuel :
  rect w h grid → inb w h start →
  (∀ k, ¬ nsteps (passage w h (mask grid)) k start end_) →
  (Z.to_nat (w * h) <= fuel)%nat →
  dijkstra_solve fuel grid start end_ = Ret [end_]
  ∧ solve_maze_dijkstra fuel grid start end_ = Ret None.
Proof.
  intros Hr Hs Hno Hfuel.
  assert (0 < w ∧ 0 < h) as [Hw Hh] by (unfold inb in Hs; lia).
  destruct (loops_stop w h grid start end_ fuel Hr Hs Hfuel)
    as (st1 & st2 & m & busy & Hrun1 & Hrun2 & (Hd & Hp & Hq) & Hinv & Hpost).
  assert (dist st2 !! end_ = None) as Hend.
  { destruct (dist st2 !! end_) as [d|] eqn:Hd'; [|done].
    by apply (bfs_sound _ _ _ _ _ _ _ Hinv), Hno in Hd'. }
  assert (prev st2 !! end_ = None) as Hpend
    by by apply (bfs_dom _ _ _ _ _ _ _ Hinv).
  unfold dijkstra_solve, solve_maze_dijkstra.
  rewrite (dimensions_rect w h) by done. rewrite !bind_Ret.
  rewrite Hrun1, Hrun2, !bind_Ret, Hp.
  rewrite decide_False by (by apply not_elem_of_dom).
  split; [|done].
  destruct fuel as [|fuel]; [lia|]. simpl. unfold prev_get. rewrite Hpend.
  by destruct fuel.
Qed.

(** ** Trees: a connected graph with one edge less than vertices *)

Section Tree.
Context {V : Type} `{EqDecision V}.
Implicit Types (es : list (V * V)) (p q : list V) (a b u v : V).

Lemma adj_sym es a b : adj es a b → adj es b a.
Proof. unfold adj. tauto. Qed.

Lemma rtc_adj_sym es a b : rtc (adj es) a b → rtc (adj es) b a.
Proof.
  induction 1 as [|a b c Hab _ IH]; [done|].
  eapply rtc_r; [done|]. by apply adj_sym.
Qed.

Lemma chain_rtc (R : V → V → Prop) p a b :
  chain R p → head p = Some a → last p = Some b → rtc R a b.
Proof.
  revert a. induction p as [|x p IH]; [done|]. intros a Hchain [= ->] Hlast.
  destruct p as [|y p].
  - simpl in Hlast. by injection Hlast as ->.
  - destruct Hchain as [Hxy Hchain]. rewrite last_cons_cons in Hlast.
    eapply rtc_l; [done|]. by apply IH.
Qed.

Lemma chain_impl (R R' : V → V → Prop) p :
  (∀ i x y, p !! i = Some x → p !! S i = Some y → R x y → R' x y) →
  chain R p → chain R' p.
Proof.
  induction p as [|x p IH]; [done|]. intros Himpl Hchain.
  destruct p as [|y p]; [done|]. destruct Hchain as [Hxy Hchain]. split.
  - by apply (Himpl 0%nat).
  - apply IH; [|done]. intros i x' y' Hi Hsi. by apply (Himpl (S i)).
Qed.

(** *** Counting components *)

Lemma reps_edge es a b : (a, b) ∈ es → reps es a = reps es b.
Proof.
  induction es as [|[a' b'] es IH]; [by intros ?%elem_of_nil|].
  intros [[= -> ->]|Hin]%elem_of_cons; simpl.
  - unfold collapse. rewrite decide_True by done. by case_decide.
  - by rewrite IH.
Qed.

Lemma reps_rtc es a b : rtc (adj es) a b → reps es a = reps es b.
Proof.
  induction 1 as [|a b c [Hab|Hab] _ IH]; [done| |].
  - by rewrite (reps_edge es a b).
  - by rewrite <- (reps_edge es b a).
Qed.

Lemma filter_ne_absent (l : list V) x :
  x ∉ l → filter (fun y => y ≠ x) l = l.
Proof.
  induction l as [|y l IH]; [done|].
  intros [Hne Hl]%not_elem_of_cons. rewrite filter_cons.
  rewrite decide_True by done. by rewrite IH.
Qed.

Lemma length_filter_ne (l : list V) x :
  NoDup l → (length l <= S (length (filter (fun y => y ≠ x) l)))%nat.
Proof.
  induction l as [|y l IH]; [simpl; lia|].
  intros [Hy Hl]%NoDup_cons. rewrite filter_cons.
  destruct (decide (y ≠ x)) as [Hne|Heq]; simpl.
  - specialize (IH Hl). lia.
  - assert (y = x) as -> by (by destruct (decide (y = x))).
    rewrite filter_ne_absent by done. lia.
Qed.

Lemma classes_collapse (l : list V) ra rb :
  (length (remove_dups l)
   <= S (length (remove_dups (collapse ra rb <$> l))))%nat.
Proof.
  etrans; [apply (length_filter_ne _ ra), NoDup_remove_dups|].
  apply le_n_S, submseteq_length, NoDup_submseteq.
  - apply NoDup_filter, NoDup_remove_dups.
  - intros x [Hx Hin]%list_elem_of_filter. rewrite elem_of_remove_dups in Hin.
    apply elem_of_remove_dups, list_elem_of_fmap. exists x. split; [|done].
    unfold collapse. by rewrite decide_False.
Qed.

Lemma classes_lower (vs : list V) es :
  NoDup vs →
  (length vs <= length (remove_dups (reps es <$> vs)) + length es)%nat.
Proof.
  intros Hvs. induction es as [|[a b] es IH]; simpl.
  - rewrite list_fmap_id.
    rewrite (Permutation_length (NoDup_Permutation vs (remove_dups vs) Hvs
               (NoDup_remove_dups vs) (fun x => symmetry (elem_of_remove_dups vs x)))) at 1.
    lia.
  - pose proof (classes_collapse (reps es <$> vs) (reps es a) (reps es b)) as Hc.
    rewrite <- list_fmap_compose in Hc. unfold compose in Hc. lia.
Qed.

Lemma classes_connected (vs : list V) es :
  (∀ a b, a ∈ vs → b ∈ vs → rtc (adj es) a b) →
  (length (remove_dups (reps es <$> vs)) <= 1)%nat.
Proof.
  intros Hconn.
  pose proof (NoDup_remove_dups (reps es <$> vs)) as Hnd.
  assert (∀ x y, x ∈ remove_dups (reps es <$> vs) →
                 y ∈ remove_dups (reps es <$> vs) → x = y) as Heq.
  { intros x y Hx Hy. rewrite elem_of_remove_dups in Hx, Hy.
    apply list_elem_of_fmap in Hx as (a & -> & Ha).
    apply list_elem_of_fmap in Hy as (b & -> & Hb).
    by apply reps_rtc, Hconn. }
  destruct (remove_dups (reps es <$> vs)) as [|x [|y l]]; simpl; [lia..|].
  apply NoDup_cons in Hnd as [Hx _]. exfalso. apply Hx.
  rewrite (Heq x y); [left|left|right; left].
Qed.

Lemma connected_edges (vs : list V) es :
  NoDup vs → (∀ a b, a ∈ vs → b ∈ vs → rtc (adj es) a b) →
  (length vs <= S (length es))%nat.
Proof.
  intros Hvs Hconn. pose proof (classes_lower vs es Hvs).
  pose proof (classes_connected vs es Hconn). lia.
Qed.

(** *** An edge with a detour can be dropped *)

Lemma adj_without u v es a b :
  adj es a b → ¬ (a = u ∧ b = v) → ¬ (a = v ∧ b = u) →
  adj (without u v es) a b.
Proof.
  unfold adj, without. intros [Hab|Hab] H1 H2; [left|right];
    apply list_elem_of_filter; (split; [|done]); split; intros [= -> ->]; tauto.
Qed.

Lemma without_connected (vs : list V) es u v :
  (∀ a b, a ∈ vs → b ∈ vs → rtc (adj es) a b) →
  rtc (adj (without u v es)) u v →
  ∀ a b, a ∈ vs → b ∈ vs → rtc (adj (without u v es)) a b.
Proof.
  intros Hconn Hdetour a b Ha Hb. specialize (Hconn a b Ha Hb).
  clear Ha Hb. induction Hconn as [|a b c Hab _ IH]; [done|].
  etrans; [|exact IH].
  destruct (decide (a = u ∧ b = v)) as [[-> ->]|H1]; [done|].
  destruct (decide (a = v ∧ b = u)) as [[-> ->]|H2]; [by apply rtc_adj_sym|].
  apply rtc_once. by apply adj_without.
Qed.

Lemma length_without es u v :
  adj es u v → (length (without u v es) < length es)%nat.
Proof.
  intros [Huv|Hvu]; unfold without.
  - apply (length_filter_lt _ _ (u, v)); [done|]. tauto.
  - apply (length_filter_lt _ _ (v, u)); [done|]. tauto.
Qed.

(** *** Simple paths in a tree *)

Lemma tree_unique (vs : list V) es :
  NoDup vs → (∀ a b, a ∈ vs → b ∈ vs → rtc (adj es) a b) →
  length vs = S (length es) →
  ∀ p q a b,
    chain (adj es) p → chain (adj es) q → NoDup p → NoDup q →
    head p = Some a → head q = Some a → last p = Some b → last q = Some b →
    p = q.
Proof.
  intros Hvs Hconn Hlen.
  induction p as [|a0 p IH]; [done|].
  intros q a b Hp Hq Hndp Hndq [= ->] Hhq Hlp Hlq.
  destruct q as [|a1 q]; [done|]. injection Hhq as ->.
  destruct p as [|v p], q as [|v' q].
  - done.
  - exfalso. simpl in Hlp. injection Hlp as <-.
    apply NoDup_cons in Hndq as [Ha _]. apply Ha.
    rewrite last_cons_cons in Hlq. by apply last_Some_elem_of.
  - exfalso. simpl in Hlq. injection Hlq as <-.
    apply NoDup_cons in Hndp as [Ha _]. apply Ha.
    rewrite last_cons_cons in Hlp. by apply last_Some_elem_of.
  - destruct Hp as [Hav Hp], Hq as [Hav' Hq].
    rewrite last_cons_cons in Hlp, Hlq.
    apply NoDup_cons in Hndp as [Hap Hndp], Hndq as [Haq Hndq].
    destruct (decide (v = v')) as [<-|Hne].
    { f_equal. by apply (IH (v :: q) v b). }
    exfalso.
    assert (chain (adj (without a v es)) (v' :: q)) as Hq'.
    { eapply chain_impl; [|exact Hq]. intros i y z Hy Hz Hyz.
      apply adj_without; [done| |]; intros [-> ->]; apply Haq;
        by eapply list_elem_of_lookup_2. }
    assert (chain (adj (without a v es)) (v :: p)) as Hp'.
    { eapply chain_impl; [|exact Hp]. intros i y z Hy Hz Hyz.
      apply adj_without; [done| |]; intros [-> ->]; apply Hap;
        by eapply list_elem_of_lookup_2. }
    assert (rtc (adj (without a v es)) a v) as Hdetour.
    { etrans; [apply rtc_once, (adj_without a v es a v'); [done|..]|].
      - intros [_ ->]. done.
      - intros [-> _]. apply Hap. left.
      - etrans; [by apply (chain_rtc _ (v' :: q) v' b)|].
        apply rtc_adj_sym. by apply (chain_rtc _ (v :: p) v b). }
    pose proof (connected_edges vs (without a v es) Hvs
                  (without_connected vs es a v Hconn Hdetour)).
    pose proof (length_without es a v Hav). lia.
Qed.

End Tree.

(** ** The passage graph as an edge list *)

Lemma cell_edges_eq w h c m acc :
  inb w h c →
  cell_edges w h c.1 c.2 m [Dir.N; Dir.E; Dir.S; Dir.W] acc
  = Ret (acc ++ cedges w h c m).
Proof.
  destruct c as [x y]. unfold inb. simpl. intros [Hx Hy].
  unfold cell_edges, cedges, tuple_ltb, Dir.N, Dir.E, Dir.S, Dir.W. simpl.
  replace (x + 0) with x by lia. replace (y + 0) with y by lia.
  rewrite !Z.ltb_irrefl, !Z.eqb_refl. simpl.
  replace (x + -1 <? x) with true by (symmetry; apply Z.ltb_lt; lia).
  replace (x <? x + -1) with false by (symmetry; apply Z.ltb_ge; lia).
  replace (y <? y + -1) with false by (symmetry; apply Z.ltb_ge; lia).
  replace (x <? x + 1) with true by (symmetry; apply Z.ltb_lt; lia).
  replace (y <? y + 1) with true by (symmetry; apply Z.ltb_lt; lia).
  replace (x + -1 =? x) with false by (symmetry; apply Z.eqb_neq; lia).
  replace (0 <=? x) with true by (symmetry; apply Z.leb_le; lia).
  replace (0 <=? y) with true by (symmetry; apply Z.leb_le; lia).
  replace (0 <=? x + 1) with true by (symmetry; apply Z.leb_le; lia).
  replace (0 <=? y + 1) with true by (symmetry; apply Z.leb_le; lia).
  replace (x <? w) with true by (symmetry; apply Z.ltb_lt; lia).
  replace (y <? h) with true by (symmetry; apply Z.ltb_lt; lia).
  simpl. rewrite !andb_false_r, ?andb_true_r. simpl.
  repeat case_decide; repeat case_bool_decide; try done; simpl;
    destruct (x + 1 <? w), (y + 1 <? h); simpl;
    rewrite ?app_nil_r, <- ?app_assoc; done.
Qed.

Lemma edges_from_eq w h (g : Grid) (cs : list cell) acc :
  rect w h g → (∀ c, c ∈ cs → inb w h c) →
  edges_from g w h cs acc
  = Ret (acc ++ (c ← cs; cedges w h c (mask g c))).
Proof.
  intros Hr. revert acc. induction cs as [|c cs IH]; intros acc Hcs.
  { simpl. by rewrite app_nil_r. }
  assert (inb w h c) as Hc by (apply Hcs; left).
  pose proof (getitem2_rect 0 w h g c Hr Hc) as Hget.
  pose proof (cell_edges_eq w h c (at2 0 g c) acc Hc) as Hce.
  destruct c as [x y]. simpl in *. rewrite Hget, bind_Ret, Hce, bind_Ret.
  rewrite IH by (intros c' Hc'; apply Hcs; by right).
  by rewrite <- app_assoc.
Qed.

Lemma to_edges_eq w h (g : Grid) :
  0 < w → 0 < h → rect w h g → to_edges g = Ret (edges_of w h (mask g)).
Proof.
  intros Hw Hh Hr. unfold to_edges.
  destruct (rect_row w h g 0 Hr) as (row & Hrow & Hlen); [lia|].
  pose proof Hr as [Hlg Hrows].
  rewrite decide_True by lia.
  destruct (getitem_in_range g 0) as (row' & Hrow' & ->); [lia|].
  rewrite Hrow in Hrow'. injection Hrow' as <-. simpl. rewrite Hlg, Hlen.
  rewrite (edges_from_eq w h); [done..|]. intros c. by rewrite elem_of_cells.
Qed.

Lemma elem_of_edges_of w h m a b :
  (a, b) ∈ edges_of w h m ↔
  inb w h a ∧
  ((Z.land (m a) Dir.E ≠ 0 ∧ a.1 + 1 < w ∧ b = (a.1 + 1, a.2))
   ∨ (Z.land (m a) Dir.S ≠ 0 ∧ a.2 + 1 < h ∧ b = (a.1, a.2 + 1))).
Proof.
  unfold edges_of. rewrite list_elem_of_bind. split.
  - intros (c & Hin & Hc%elem_of_cells). unfold cedges in Hin.
    apply elem_of_app in Hin as [Hin|Hin];
      destruct (bool_decide _ && _) eqn:Hcond; try (by apply elem_of_nil in Hin);
      apply list_elem_of_singleton in Hin; injection Hin as -> ->;
      apply andb_true_iff in Hcond as [Hbit%bool_decide_eq_true Hlt%Z.ltb_lt];
      (split; [done|]); [left|right]; done.
  - intros [Ha [(Hbit & Hlt & ->)|(Hbit & Hlt & ->)]]; exists a;
      (split; [|by apply elem_of_cells]); unfold cedges; apply elem_of_app;
      [left|right]; rewrite bool_decide_eq_true_2 by done.
    + destruct (Z.ltb_spec (a.1 + 1) w); [|lia]. simpl. by left.
    + destruct (Z.ltb_spec (a.2 + 1) h); [|lia]. simpl. by left.
Qed.

Lemma adj_passage w h m a b :
  symmetric w h m → adj (edges_of w h m) a b ↔ passage w h m a b.
Proof.
  intros Hsym.
  assert (∀ a b, (a, b) ∈ edges_of w h m → passage w h m a b) as Hedge.
  { intros x y [Hx [(Hbit & Hlt & ->)|(Hbit & Hlt & ->)]]%elem_of_edges_of.
    - split; [done|]. split; [unfold inb in *; simpl; lia|].
      exists Dir.E. split; [apply elem_of_directions; tauto|]. split; [done|].
      unfold step. simpl. f_equal. lia.
    - split; [done|]. split; [unfold inb in *; simpl; lia|].
      exists Dir.S. split; [apply elem_of_directions; tauto|]. split; [done|].
      unfold step. simpl. f_equal. lia. }
  assert (∀ a b d, inb w h a → inb w h b → open_to m a d → b = step a d →
            d = Dir.E ∨ d = Dir.S → (a, b) ∈ edges_of w h m) as Hfwd.
  { intros x y d Hx Hy Hopen -> Hd. apply elem_of_edges_of. split; [done|].
    destruct Hd as [Hd|Hd]; subst d.
    - left. split; [done|]. unfold inb, step in *. simpl in *.
      split; [lia|]. f_equal. lia.
    - right. split; [done|]. unfold inb, step in *. simpl in *.
      split; [lia|]. f_equal. lia. }
  split.
  - intros [Hab|Hba]; [by apply Hedge|]. apply passage_sym; [done|]. by apply Hedge.
  - intros (Ha & Hb & d & Hd & Hopen & Hstep).
    destruct (Hsym a d Ha Hd Hopen) as (_ & od & Hod & Hback).
    pose proof (step_OPPOSITE a d od Hod) as Hrev. rewrite <- Hstep in Hrev, Hback.
    apply elem_of_directions in Hd as [-> | [-> | [-> | ->]]].
    + right. apply (Hfwd b a od); try done. vm_compute in Hod.
      injection Hod as <-. by right.
    + left. apply (Hfwd a b Dir.S); try done. by right.
    + left. apply (Hfwd a b Dir.E); try done. by left.
    + right. apply (Hfwd b a od); try done. vm_compute in Hod.
      injection Hod as <-. by left.
Qed.

Lemma length_edges_of w h m : length (edges_of w h m) = ecount w h m.
Proof.
  unfold edges_of, ecount. induction (cells w h) as [|c cs IH]; [done|].
  rewrite bind_cons, length_app, IH. simpl. f_equal.
  unfold cedges, ecount_cell. rewrite length_app.
  by repeat destruct (bool_decide _ && _).
Qed.

Lemma walk_chain w h m (p : list cell) :
  walk w h m p ↔ chain (passage w h m) p.
Proof.
  induction p as [|a p IH]; [done|]. destruct p as [|b p]; [done|].
  simpl in *. by rewrite IH.
Qed.

(** In a perfect maze with symmetric masks there is one simple path between
    two cells. *)
Lemma perfect_unique w h (g : Grid) :
  0 < w → 0 < h → perfect w h g → symmetric w h (mask g) →
  ∀ p q a b,
    joins w h (mask g) a b p → joins w h (mask g) a b q →
    NoDup p → NoDup q → p = q.
Proof.
  intros Hw Hh (Hr & Hconn & es & Hes & Hlen) Hsym p q a b
    (Hhp & Hlp & Hwp) (Hhq & Hlq & Hwq) Hndp Hndq.
  rewrite (to_edges_eq w h) in Hes by done. injection Hes as <-.
  apply (tree_unique (cells w h) (edges_of w h (mask g))) with a b; try done.
  - apply NoDup_cells.
  - intros x y Hx%elem_of_cells Hy%elem_of_cells.
    eapply rtc_subrel; [|by apply Hconn]. intros ??. by apply adj_passage.
  - pose proof (length_cells w h). lia.
  - eapply chain_impl; [|by apply walk_chain]. intros. by apply adj_passage.
  - eapply chain_impl; [|by apply walk_chain]. intros. by apply adj_passage.
Qed.

(** ** More fuel changes nothing once a loop has stopped *)

Lemma dfs_loop_eq fuel w h g vis x y below r :
  dfs_loop (S fuel) w h g vis ((x, y) :: below) r
  = (options ← unvisited vis (_neighbors x y w h);
     match options with
     | [] => dfs_loop fuel w h g vis below r
     | _ :: _ =>
         '(nx, ny, d, r') ← Random.choice options r;
         match OPPOSITE d with
         | None => Raise RuntimeError
         | Some od =>
             grid1 ← ior g x y (Ret d);
             grid2 ← ior grid1 nx ny (Ret od);
             visited' ← Py.setitem2 vis nx ny true;
             dfs_loop fuel w h grid2 visited' ((nx, ny) :: (x, y) :: below) r'
         end
     end).
Proof. done. Qed.

Ltac bind_case :=
  match goal with
  | |- context [@mbind outcome _ _ _ _ ?o] =>
      lazymatch o with
      | Ret _ => fail
      | Raise _ => fail
      | OutOfFuel => fail
      | _ => destruct o eqn:?
      end
  end; cbn [mbind outcome_bind] in *.

Lemma dfs_loop_mono fuel w h g vis stack r o :
  dfs_loop fuel w h g vis stack r = o → o ≠ OutOfFuel →
  dfs_loop (S fuel) w h g vis stack r = o.
Proof.
  revert g vis stack r. induction fuel as [|fuel IH]; intros g vis stack r H Hne;
    destruct stack as [|[x y] below]; try done.
  rewrite dfs_loop_eq in H |- *. revert H.
  bind_case; [|done..].
  destruct a as [|o' opts]; [intros H; by apply IH|].
  bind_case; [|done..]. destruct a as [[[nx ny] d] r'].
  destruct (OPPOSITE d); [|done].
  repeat (bind_case; [|done..]).
  intros H. by apply IH.
Qed.

Lemma prim_loop_eq fuel w h g in_maze e fr r :
  prim_loop (S fuel) w h g in_maze (e :: fr) r
  = ('(i, r') ← Random.randrange (Z.of_nat (length (e :: fr))) r;
     '(x, y, nx, ny, d, frontier') ← pop_at (e :: fr) i;
     absorbed ← Py.getitem2 in_maze nx ny;
     if absorbed : bool
     then prim_loop fuel w h g in_maze frontier' r'
     else
       match OPPOSITE d with
       | None => Raise RuntimeError
       | Some od =>
           in_maze' ← Py.setitem2 in_maze nx ny true;
           grid1 ← ior g x y (Ret d);
           grid2 ← ior grid1 nx ny (Ret od);
           frontier'' ← extend_frontier in_maze' nx ny
                          (_neighbors nx ny w h) frontier';
           prim_loop fuel w h grid2 in_maze' frontier'' r'
       end).
Proof. done. Qed.

Lemma prim_loop_mono fuel w h g in_maze frontier r o :
  prim_loop fuel w h g in_maze frontier r = o → o ≠ OutOfFuel →
  prim_loop (S fuel) w h g in_maze frontier r = o.
Proof.
  revert g in_maze frontier r.
  induction fuel as [|fuel IH]; intros g in_maze frontier r H Hne;
    destruct frontier as [|e fr]; try done.
  rewrite prim_loop_eq in H |- *. revert H.
  bind_case; [|done..]. destruct a as [i r'].
  bind_case; [|done..]. destruct a as [[[[[x y] nx] ny] d] frontier'].
  bind_case; [|done..]. destruct a; [intros H; by apply IH|].
  destruct (OPPOSITE d); [|done].
  repeat (bind_case; [|done..]).
  intros H. by apply IH.
Qed.

Lemma wilson_walk_eq fuel w h in_maze cx cy po pn viw r :
  wilson_walk (S fuel) w h in_maze cx cy po pn viw r
  = (reached ← Py.getitem2 in_maze cx cy;
     if reached : bool then Ret (po, pn, r)
     else
       '(nx, ny, d, r') ← Random.choice (_neighbors cx cy w h) r;
       let '(po', viw') :=
         match viw !! (nx, ny) with
         | Some idx => (take (idx + 1) po, forget (drop (idx + 1) po) viw)
         | None =>
             (po ++ [(nx, ny)],
              <[(nx, ny) := (length (po ++ [(nx, ny)]) - 1)%nat]> viw)
         end in
       wilson_walk fuel w h in_maze nx ny po'
         (<[(cx, cy) := ((nx, ny), d)]> pn) viw' r').
Proof. done. Qed.

Lemma wilson_walk_mono fuel w h in_maze cx cy po pn viw r o :
  wilson_walk fuel w h in_maze cx cy po pn viw r = o → o ≠ OutOfFuel →
  wilson_walk (S fuel) w h in_maze cx cy po pn viw r = o.
Proof.
  revert cx cy po pn viw r.
  induction fuel as [|fuel IH]; intros cx cy po pn viw r H Hne.
  - simpl in H. rewrite wilson_walk_eq. revert H.
    bind_case; [|done..]. destruct a; [done|]. congruence.
  - rewrite wilson_walk_eq in H |- *. revert H.
    bind_case; [|done..]. destruct a; [done|].
    bind_case; [|done..]. destruct a as [[[nx ny] d] r'].
    destruct (viw !! (nx, ny)); intros H; by apply IH.
Qed.

Lemma wilson_loop_eq fuel walk_fuel w h g in_maze r :
  wilson_loop (S fuel) walk_fuel w h g in_maze r
  = (pool ← remaining_cells in_maze (cells w h);
     match pool with
     | [] => Ret g
     | _ :: _ =>
         '(sx, sy, r1) ← Random.choice pool r;
         '(path_order, path_next, r2) ←
           wilson_walk walk_fuel w h in_maze sx sy [(sx, sy)] ∅
             {[ (sx, sy) := 0%nat ]} r1;
         '(grid', in_maze') ← wilson_carve path_order path_next g in_maze;
         wilson_loop fuel walk_fuel w h grid' in_maze' r2
     end).
Proof. done. Qed.

Lemma wilson_loop_mono fuel walk_fuel w h g in_maze r o :
  wilson_loop fuel walk_fuel w h g in_maze r = o → o ≠ OutOfFuel →
  wilson_loop (S fuel) walk_fuel w h g in_maze r = o
  ∧ wilson_loop fuel (S walk_fuel) w h g in_maze r = o.
Proof.
  revert g in_maze r.
  induction fuel as [|fuel IH]; intros g in_maze r H Hne.
  - simpl in H. rewrite wilson_loop_eq. simpl. revert H.
    bind_case; [|done..]. destruct a; [done|]. congruence.
  - rewrite !wilson_loop_eq in *. revert H.
    bind_case; [|done..]. destruct a as [|s pool]; [done|].
    bind_case; [|done..]. destruct a as [[sx sy] r1].
    destruct (wilson_walk walk_fuel w h in_maze sx sy [(sx, sy)] ∅
                {[ (sx, sy) := 0%nat ]} r1) as [[[po pn] r2]| |] eqn:Hwalk;
      cbn [mbind outcome_bind]; [| |congruence].
    + rewrite (wilson_walk_mono _ _ _ _ _ _ _ _ _ _ _ Hwalk) by done.
      cbn [mbind outcome_bind].
      bind_case; [|done..]. destruct a as [g' in_maze']. intros H.
      by apply IH.
    + intros <-. by rewrite (wilson_walk_mono _ _ _ _ _ _ _ _ _ _ _ Hwalk).
Qed.

(** ** Wilson returns on suitable random sequences *)









(** ** The generators under any amount of fuel *)

Lemma dfs_loop_mono_le fuel fuel' w h g vis stack r o :
  (fuel <= fuel')%nat →
  dfs_loop fuel w h g vis stack r = o → o ≠ OutOfFuel →
  dfs_loop fuel' w h g vis stack r = o.
Proof.
  intros Hle Hrun Ho. induction Hle as [|fuel' _ IH]; [done|].
  by apply dfs_loop_mono.
Qed.

Lemma prim_loop_mono_le fuel fuel' w h g in_maze frontier r o :
  (fuel <= fuel')%nat →
  prim_loop fuel w h g in_maze frontier r = o → o ≠ OutOfFuel →
  prim_loop fuel' w h g in_maze frontier r = o.
Proof.
  intros Hle Hrun Ho. induction Hle as [|fuel' _ IH]; [done|].
  by apply prim_loop_mono.
Qed.

Lemma wilson_loop_mono_le fuel fuel' walk_fuel walk_fuel' w h g in_maze r o :
  (fuel <= fuel')%nat → (walk_fuel <= walk_fuel')%nat →
  wilson_loop fuel walk_fuel w h g in_maze r = o → o ≠ OutOfFuel →
  wilson_loop fuel' walk_fuel' w h g in_maze r = o.
Proof.
  intros Hle Hle' Hrun Ho.
  induction Hle as [|fuel' _ IH].
  - induction Hle' as [|walk_fuel' _ IH]; [done|].
    by apply wilson_loop_mono.
  - by apply wilson_loop_mono.
Qed.

Lemma generate_maze_dfs_mono seeded fuel fuel' w h seed g o :
  (fuel <= fuel')%nat →
  generate_maze_dfs seeded fuel w h seed g = o → o ≠ OutOfFuel →
  generate_maze_dfs seeded fuel' w h seed g = o.
Proof.
  unfold generate_maze_dfs. intros Hle.
  destruct ((w <=? 0) || (h <=? 0)); [done|]. cbv zeta.
  destruct (Random.randrange w _) as [[x r1]| |]; cbn [mbind outcome_bind]; try done.
  destruct (Random.randrange h _) as [[y r2]| |]; cbn [mbind outcome_bind]; try done.
  destruct (Py.setitem2 _ _ _ _); cbn [mbind outcome_bind]; try done.
  by apply dfs_loop_mono_le.
Qed.

Lemma generate_maze_prim_mono seeded fuel fuel' w h seed g o :
  (fuel <= fuel')%nat →
  generate_maze_prim seeded fuel w h seed g = o → o ≠ OutOfFuel →
  generate_maze_prim seeded fuel' w h seed g = o.
Proof.
  unfold generate_maze_prim. intros Hle.
  destruct ((w <=? 0) || (h <=? 0)); [done|]. cbv zeta.
  destruct (Random.randrange w _) as [[x r1]| |]; cbn [mbind outcome_bind]; try done.
  destruct (Random.randrange h _) as [[y r2]| |]; cbn [mbind outcome_bind]; try done.
  destruct (Py.setitem2 _ _ _ _); cbn [mbind outcome_bind]; try done.
  by apply prim_loop_mono_le.
Qed.

Lemma generate_maze_wilson_mono seeded fuel fuel' w h seed g o :
  (fuel <= fuel')%nat →
  generate_maze_wilson seeded fuel w h seed g = o → o ≠ OutOfFuel →
  generate_maze_wilson seeded fuel' w h seed g = o.
Proof.
  unfold generate_maze_wilson. intros Hle.
  destruct ((w <=? 0) || (h <=? 0)); [done|]. cbv zeta.
  destruct (Random.randrange w _) as [[x r1]| |]; cbn [mbind outcome_bind]; try done.
  destruct (Random.randrange h _) as [[y r2]| |]; cbn [mbind outcome_bind]; try done.
  destruct (Py.setitem2 _ _ _ _); cbn [mbind outcome_bind]; try done.
  by apply wilson_loop_mono_le.
Qed.

(** Whatever the fuel, a generator that stops has returned a perfect maze
    with symmetric passages: it has raised nothing. *)
Lemma generate_maze_dfs_stops seeded fuel w h seed g :
  0 < w → 0 < h →
  generate_maze_dfs seeded fuel w h seed g = OutOfFuel
  ∨ ∃ grid, generate_maze_dfs seeded fuel w h seed g = Ret grid
            ∧ perfect w h grid ∧ symmetric w h (mask grid).
Proof.
  intros Hw Hh.
  assert (generate_maze_dfs seeded fuel w h seed g = OutOfFuel
          ∨ generate_maze_dfs seeded fuel w h seed g ≠ OutOfFuel) as [|Hstop]
    by (destruct (generate_maze_dfs seeded fuel w h seed g); auto).
  { by left. }
  right. set (big := (fuel + 2 * Z.to_nat (w * h))%nat).
  destruct (generate_maze_dfs_spec seeded big w h seed g Hw Hh)
    as (grid & Hrun & Hperfect & Hsym); [lia|].
  exists grid. split; [|done]. rewrite <- Hrun. symmetry.
  apply generate_maze_dfs_mono with fuel; [lia|done..].
Qed.

Lemma generate_maze_prim_stops seeded fuel w h seed g :
  0 < w → 0 < h →
  generate_maze_prim seeded fuel w h seed g = OutOfFuel
  ∨ ∃ grid, generate_maze_prim seeded fuel w h seed g = Ret grid
            ∧ perfect w h grid ∧ symmetric w h (mask grid).
Proof.
  intros Hw Hh.
  assert (generate_maze_prim seeded fuel w h seed g = OutOfFuel
          ∨ generate_maze_prim seeded fuel w h seed g ≠ OutOfFuel) as [|Hstop]
    by (destruct (generate_maze_prim seeded fuel w h seed g); auto).
  { by left. }
  right. set (big := (fuel + 4 * Z.to_nat (w * h))%nat).
  destruct (generate_maze_prim_spec seeded big w h seed g Hw Hh)
    as (grid & Hrun & Hperfect & Hsym); [lia|].
  exists grid. split; [|done]. rewrite <- Hrun. symmetry.
  apply generate_maze_prim_mono with fuel; [lia|done..].
Qed.

Lemma generate_maze_wilson_stops seeded fuel w h seed g :
  0 < w → 0 < h →
  generate_maze_wilson seeded fuel w h seed g = OutOfFuel
  ∨ ∃ grid, generate_maze_wilson seeded fuel w h seed g = Ret grid
            ∧ perfect w h grid ∧ symmetric w h (mask grid).
Proof.
  intros Hw Hh.
  assert (generate_maze_wilson seeded fuel w h seed g = OutOfFuel
          ∨ generate_maze_wilson seeded fuel w h seed g ≠ OutOfFuel) as [|Hstop]
    by (destruct (generate_maze_wilson seeded fuel w h seed g); auto).
  { by left. }
  right.
  set (big := (fuel + Z.to_nat (w * h))%nat).
  pose proof (generate_maze_wilson_mono seeded fuel big w h seed g _
                ltac:(lia) eq_refl Hstop) as Hbig.
  destruct (generate_maze_wilson_spec seeded big w h seed g Hw Hh)
    as [Hout|(grid & Hrun & Hperfect & Hsym)]; [lia|congruence|].
  exists grid. split; [congruence|done].
Qed.

(** ** The symmetry checker *)

Lemma symmetricb_spec w h g :
  symmetricb w h g = true → symmetric w h (mask g).
Proof.
  unfold symmetricb. rewrite forallb_forall.
  intros Hall c d Hc Hd Hopen.
  assert (c ∈ cells w h) as Hin by by apply elem_of_cells.
  apply list_elem_of_In, Hall in Hin. rewrite forallb_forall in Hin.
  apply list_elem_of_In, Hin in Hd. unfold open_to in Hopen.
  destruct (Z.eqb_spec (Z.land (mask g c) d) 0); [done|].
  apply andb_prop in Hd as [Hinb Hback]. split; [by apply inbb_spec|].
  destruct (OPPOSITE d) as [od|]; [|done]. exists od. split; [done|].
  unfold open_to. by destruct (Z.eqb_spec (Z.land (mask g (step c d)) od) 0).
Qed.

(** * The claims *)

(** ** Generators *)



(** ** A random source on which Wilson's walk never ends *)




(** C5: every grid that one of the three generators returns, for a width
    and a height of at least one, has symmetric passages: where the mask of
    a cell has a direction bit, the neighbour in that direction is in bounds
    and its mask has the opposite bit. *)
Theorem generators_symmetric seeded (width height : Z) (seed : option Z)
    (g : rng) (fuel : nat) (grid : Grid) :
  1 <= width → 1 <= height →
  generate_maze_dfs seeded fuel width height seed g = Ret grid
  ∨ generate_maze_prim seeded fuel width height seed g = Ret grid
  ∨ generate_maze_wilson seeded fuel width height seed g = Ret grid →
  ∀ c d, inb width height c → d ∈ directions → open_to (mask grid) c d →
    inb width height (step c d)
    ∧ ∃ od, OPPOSITE d = Some od ∧ open_to (mask grid) (step c d) od.
Proof.
  intros Hw Hh Hrun. change (symmetric width height (mask grid)).
  destruct Hrun as [Hrun|[Hrun|Hrun]].
  - destruct (generate_maze_dfs_stops seeded fuel width height seed g)
      as [Hout|(grid' & Hrun' & _ & Hsym)]; [lia..|congruence|].
    assert (grid' = grid) as -> by congruence. exact Hsym.
  - destruct (generate_maze_prim_stops seeded fuel width height seed g)
      as [Hout|(grid' & Hrun' & _ & Hsym)]; [lia..|congruence|].
    assert (grid' = grid) as -> by congruence. exact Hsym.
  - destruct (generate_maze_wilson_stops seeded fuel width height seed g)
      as [Hout|(grid' & Hrun' & _ & Hsym)]; [lia..|congruence|].
    assert (grid' = grid) as -> by congruence. exact Hsym.
Qed.

Lemma generators_symmetric_witness :
  inb 2 2 (0, 0) ∧ open_to (mask [[10; 4]; [9; 4]]) (0, 0) Dir.E
  ∧ inb 2 2 (step (0, 0) Dir.E)
  ∧ ∃ od, OPPOSITE Dir.E = Some od
          ∧ open_to (mask [[10; 4]; [9; 4]]) (step (0, 0) Dir.E) od.
Proof.
  assert (inb 2 2 (0, 0)) as Hc by (unfold inb; simpl; lia).
  assert (open_to (mask [[10; 4]; [9; 4]]) (0, 0) Dir.E) as Hopen
    by (vm_compute; discriminate).
  split; [exact Hc|]. split; [exact Hopen|].
  apply (generators_symmetric sample_source 2 2 (Some 5) (fun _ => O) 8
           [[10; 4]; [9; 4]]).
  - lia.
  - lia.
  - left. vm_compute. reflexivity.
  - exact Hc.
  - apply elem_of_directions. tauto.
  - exact Hopen.
Defined.

(** C7: with an integer seed, what a generator returns depends on the
    width, the height and the seed alone, not on the state in which the call
    finds the random source: for a width and a height of at least one,
    [generate_maze_dfs] and [generate_maze_prim] have one grid that every call
    returns, and two calls of [generate_maze_wilson] that return, return the
    same grid. *)
Theorem generators_deterministic seeded (width height s : Z) :
  1 <= width → 1 <= height →
  (∃ grid, ∀ g fuel, (2 * Z.to_nat (width * height) <= fuel)%nat →
     generate_maze_dfs seeded fuel width height (Some s) g = Ret grid)
  ∧ (∃ grid, ∀ g fuel, (4 * Z.to_nat (width * height) <= fuel)%nat →
       generate_maze_prim seeded fuel width height (Some s) g = Ret grid)
  ∧ (∀ g1 g2 fuel1 fuel2 grid1 grid2,
       generate_maze_wilson seeded fuel1 width height (Some s) g1 = Ret grid1 →
       generate_maze_wilson seeded fuel2 width height (Some s) g2 = Ret grid2 →
       grid1 = grid2).
Proof.
  intros Hw Hh. split; [|split].
  - set (n := (2 * Z.to_nat (width * height))%nat).
    destruct (generate_maze_dfs_spec seeded n width height (Some s) (fun _ => O))
      as (grid & Hrun & _); [lia..|].
    exists grid. intros g fuel Hfuel.
    apply generate_maze_dfs_mono with n; [done| |done]. exact Hrun.
  - set (n := (4 * Z.to_nat (width * height))%nat).
    destruct (generate_maze_prim_spec seeded n width height (Some s) (fun _ => O))
      as (grid & Hrun & _); [lia..|].
    exists grid. intros g fuel Hfuel.
    apply generate_maze_prim_mono with n; [done| |done]. exact Hrun.
  - intros g1 g2 fuel1 fuel2 grid1 grid2 Hrun1 Hrun2.
    apply (generate_maze_wilson_mono seeded fuel1 (fuel1 + fuel2)) in Hrun1;
      [|lia|done].
    apply (generate_maze_wilson_mono seeded fuel2 (fuel1 + fuel2)) in Hrun2;
      [|lia|done].
    change (generate_maze_wilson seeded (fuel1 + fuel2) width height (Some s) g2)
      with (generate_maze_wilson seeded (fuel1 + fuel2) width height (Some s) g1)
      in Hrun2.
    congruence.
Qed.

Lemma generators_deterministic_witness :
  (∀ g, generate_maze_dfs sample_source 8 2 2 (Some 5) g
        = Ret [[10; 4]; [9; 4]])
  ∧ (∀ g, generate_maze_prim sample_source 16 2 2 (Some 5) g
          = Ret [[2; 2]; [9; 5]]).
Proof.
  destruct (generators_deterministic sample_source 2 2 5)
    as ((grid1 & Hdfs) & (grid2 & Hprim) & _); [lia..|].
  split; intros g.
  - rewrite (Hdfs g 8%nat) by (simpl; lia).
    rewrite <- (Hdfs (fun _ => O) 8%nat) by (simpl; lia).
    vm_compute. reflexivity.
  - rewrite (Hprim g 16%nat) by (simpl; lia).
    rewrite <- (Hprim (fun _ => O) 16%nat) by (simpl; lia).
    vm_compute. reflexivity.
Defined.

(** C8: for a width and a height of at least one, no generator raises
    anything, whatever the seed, the random source and the fuel; in
    particular the guard [if d not in OPPOSITE: raise RuntimeError] of
    [generate_maze_dfs] and [generate_maze_prim] never fires and
    [OPPOSITE[d]] in [generate_maze_wilson] never fails.  Every direction
    that [_neighbors] yields is one of the four flags and has an entry in
    [OPPOSITE]. *)
Theorem direction_guard_unreachable seeded (width height : Z)
    (seed : option Z) (g : rng) (fuel : nat) (e : exn) :
  1 <= width → 1 <= height →
  generate_maze_dfs seeded fuel width height seed g ≠ Raise e
  ∧ generate_maze_prim seeded fuel width height seed g ≠ Raise e
  ∧ generate_maze_wilson seeded fuel width height seed g ≠ Raise e
  ∧ (∀ x y nx ny d, inb width height (x, y) →
       (nx, ny, d) ∈ _neighbors x y width height →
       d ∈ directions ∧ is_Some (OPPOSITE d)).
Proof.
  intros Hw Hh. split; [|split; [|split]].
  - destruct (generate_maze_dfs_stops seeded fuel width height seed g)
      as [Hout|(grid' & Hrun' & _)]; [lia..|congruence|congruence].
  - destruct (generate_maze_prim_stops seeded fuel width height seed g)
      as [Hout|(grid' & Hrun' & _)]; [lia..|congruence|congruence].
  - destruct (generate_maze_wilson_stops seeded fuel width height seed g)
      as [Hout|(grid' & Hrun' & _)]; [lia..|congruence|congruence].
  - intros x y nx ny d Hc Hn.
    apply (elem_of_neighbors width height (x, y) (nx, ny) d) in Hn as [Hd _];
      [|done].
    split; [done|by apply OPPOSITE_is_Some].
Qed.

Lemma direction_guard_unreachable_witness :
  generate_maze_dfs sample_source 8 2 2 (Some 5) (fun _ => O)
    ≠ Raise RuntimeError
  ∧ generate_maze_prim sample_source 8 2 2 (Some 5) (fun _ => O)
    ≠ Raise RuntimeError
  ∧ generate_maze_wilson sample_source 8 2 2 (Some 5) (fun _ => O)
    ≠ Raise RuntimeError.
Proof.
  destruct (direction_guard_unreachable sample_source 2 2 (Some 5)
              (fun _ => O) 8 RuntimeError) as (Hdfs & Hprim & Hwilson & _);
    [lia..|].
  split; [exact Hdfs|]. split; [exact Hprim|exact Hwilson].
Defined.

(** ** Solvers *)

Lemma nsteps_inb w h mk k a b :
  nsteps (passage w h mk) k a b → inb w h a → inb w h b.
Proof.
  induction 1 as [|k a c b Hstep _ IH]; [done|].
  intros _. apply IH. by destruct Hstep as (_ & Hc & _).
Qed.

Lemma getitem2_beyond {A} w h (g : list (list A)) x y :
  rect w h g → h <= y ∨ (0 <= y < h ∧ w <= x) →
  Py.getitem2 g x y = Raise IndexError.
Proof.
  intros Hr Hout. unfold Py.getitem2.
  destruct Hout as [Hy|[Hy Hx]].
  - rewrite getitem_out_of_range; [done|]. destruct Hr as [-> _]. lia.
  - destruct (rect_row w h g y Hr Hy) as (row & Hrow & Hlen).
    destruct (getitem_in_range g y) as (row' & Hrow' & ->).
    { destruct Hr as [-> _]. lia. }
    cbn [mbind outcome_bind]. apply getitem_out_of_range.
    assert (row' = row) as -> by congruence. lia.
Qed.

(** C2: on a rectangular grid with symmetric passages, with start and end in
    bounds and end reachable from start, both solvers return a path that
    begins at start, ends at end, steps along carved passages, and has no
    more edges than any walk from start to end; in a perfect maze every
    simple path from start to end is this path. *)
Theorem solver_shortest_path w h (grid : Grid) (start end_ : cell)
    (fuel : nat) :
  rect w h grid → symmetric w h (mask grid) →
  inb w h start → inb w h end_ →
  rtc (passage w h (mask grid)) start end_ →
  (Z.to_nat (w * h) <= fuel)%nat →
  ∃ path,
    dijkstra_solve fuel grid start end_ = Ret path
    ∧ solve_maze_dijkstra fuel grid start end_ = Ret (Some path)
    ∧ head path = Some start
    ∧ last path = Some end_
    ∧ walk w h (mask grid) path
    ∧ (∀ other, joins w h (mask grid) start end_ other →
         (length path - 1 <= length other - 1)%nat)
    ∧ (perfect w h grid →
       ∀ other, joins w h (mask grid) start end_ other → NoDup other →
         other = path).
Proof.
  intros Hr Hsym Hstart Hend [k Hk]%rtc_nsteps Hfuel.
  destruct (solvers_reachable w h grid start end_ fuel k)
    as (path & Hsolve & Hbackup & Hjoins & Hnodup & Hmin); try done.
  { unfold inb in Hstart. lia. }
  exists path. destruct Hjoins as (Hhead & Hlast & Hwalk).
  split; [done|]. split; [done|]. split; [done|]. split; [done|].
  split; [done|]. split.
  - intros other (Hh' & Hl' & Hw'). apply Hmin. by apply walk_nsteps.
  - intros Hperfect other Hother Hsimple.
    apply (perfect_unique w h grid) with start end_; try done.
    + unfold inb in Hstart. lia.
    + unfold inb in Hstart. lia.
Qed.

Lemma solver_shortest_path_witness :
  ∃ path,
    dijkstra_solve 4 [[10; 6]; [1; 1]] (0, 0) (1, 1) = Ret path
    ∧ solve_maze_dijkstra 4 [[10; 6]; [1; 1]] (0, 0) (1, 1) = Ret (Some path)
    ∧ head path = Some (0, 0)
    ∧ last path = Some (1, 1)
    ∧ walk 2 2 (mask [[10; 6]; [1; 1]]) path
    ∧ (∀ other, joins 2 2 (mask [[10; 6]; [1; 1]]) (0, 0) (1, 1) other →
         (length path - 1 <= length other - 1)%nat)
    ∧ (perfect 2 2 [[10; 6]; [1; 1]] →
       ∀ other, joins 2 2 (mask [[10; 6]; [1; 1]]) (0, 0) (1, 1) other →
         NoDup other → other = path).
Proof.
  apply (solver_shortest_path 2 2 [[10; 6]; [1; 1]] (0, 0) (1, 1) 4).
  - split; [reflexivity|]. repeat constructor.
  - apply symmetricb_spec. vm_compute. reflexivity.
  - unfold inb. simpl. lia.
  - unfold inb. simpl. lia.
  - apply rtc_l with (1, 0).
    + split; [unfold inb; simpl; lia|]. split; [unfold inb; simpl; lia|].
      exists Dir.E. split; [apply elem_of_directions; tauto|].
      split; [vm_compute; discriminate|reflexivity].
    + apply rtc_once.
      split; [unfold inb; simpl; lia|]. split; [unfold inb; simpl; lia|].
      exists Dir.S. split; [apply elem_of_directions; tauto|].
      split; [vm_compute; discriminate|reflexivity].
  - simpl. lia.
Defined.

(** C3 (the code departs from the claim): on the one-row grid of two blank
    cells the end [(1, 0)] is not reachable from [(0, 0)]; with any fuel of
    two or more [dijkstra_solve] returns the list [[(1, 0)]], which does not
    begin at start, where [solve_maze_dijkstra] returns [None]. *)
Theorem dijkstra_solve_unreachable_end (fuel : nat) :
  dijkstra_solve (2 + fuel) [[0; 0]] (0, 0) (1, 0) = Ret [(1, 0)]
  ∧ solve_maze_dijkstra (2 + fuel) [[0; 0]] (0, 0) (1, 0) = Ret None.
Proof.
  apply (solvers_unreachable 2 1).
  - split; [reflexivity|]. repeat constructor.
  - unfold inb. simpl. lia.
  - intros k Hk. inversion Hk as [|n a b c Hstep Hrest]; subst.
    destruct Hstep as (_ & _ & d & Hd & Hopen & _).
    apply Hopen. unfold mask, at2. simpl. apply Z.land_0_l.
  - simpl. lia.
Qed.

(** C4, as the code behaves: neither solver checks the coordinates, and no
    error of its own is raised for them.  On a rectangular grid with start
    in bounds and end out of bounds the search runs until the queue is
    empty; [solve_maze_dijkstra] returns [None], its result for an end that
    was not reached, and [dijkstra_solve] returns as well, without an error.
    With a start whose row index is [h] or more, or whose row index is in
    bounds and whose column index is [w] or more, and an end other than
    start, the first read of the grid raises [IndexError] in both. *)
Theorem solver_out_of_bounds w h (grid : Grid) (start end_ : cell)
    (fuel : nat) :
  rect w h grid → 0 < w → 0 < h →
  (Z.to_nat (w * h) <= fuel)%nat →
  (inb w h start → ¬ inb w h end_ →
     solve_maze_dijkstra fuel grid start end_ = Ret None
     ∧ ∃ path, dijkstra_solve fuel grid start end_ = Ret path)
  ∧ (start ≠ end_ → h <= start.2 ∨ (0 <= start.2 < h ∧ w <= start.1) →
     dijkstra_solve fuel grid start end_ = Raise IndexError
     ∧ solve_maze_dijkstra fuel grid start end_ = Raise IndexError).
Proof.
  intros Hr Hw Hh Hfuel. split.
  - intros Hstart Hend.
    destruct (solvers_unreachable w h grid start end_ fuel) as [Hsolve Hbackup];
      try done.
    { intros k Hk. apply Hend. by eapply nsteps_inb. }
    split; [done|]. by eexists.
  - intros Hne Hout. destruct start as [x y]. simpl in Hout.
    pose proof (getitem2_beyond w h grid x y Hr Hout) as Hread.
    destruct fuel as [|fuel]; [nia|].
    unfold dijkstra_solve, solve_maze_dijkstra.
    rewrite (dimensions_rect w h) by done. cbn [mbind outcome_bind].
    rewrite (solve_loop_cons fuel grid w h end_ (init (x, y)) 0 x y [])
      by done.
    rewrite (backup_loop_cons fuel grid w h end_ (init (x, y)) 0 x y [])
      by done.
    destruct (decide ((x, y) = end_)) as [|_]; [done|].
    destruct (decide ((x, y) ∈ visited (init (x, y)))) as [Hin|_].
    { by apply elem_of_empty in Hin. }
    cbn [init dist]. rewrite lookup_singleton_eq. cbn [subscript mbind outcome_bind].
    unfold directions. cbn [relax]. rewrite Hread. done.
Qed.

Lemma solver_out_of_bounds_witness :
  (solve_maze_dijkstra 1 [[0]] (0, 0) (5, 5) = Ret None
   ∧ ∃ path, dijkstra_solve 1 [[0]] (0, 0) (5, 5) = Ret path)
  ∧ (dijkstra_solve 1 [[0]] (5, 5) (0, 0) = Raise IndexError
     ∧ solve_maze_dijkstra 1 [[0]] (5, 5) (0, 0) = Raise IndexError).
Proof.
  assert (rect 1 1 [[0]]) as Hr by (split; [reflexivity|repeat constructor]).
  split.
  - apply (solver_out_of_bounds 1 1 [[0]] (0, 0) (5, 5) 1 Hr); try lia.
    + unfold inb. simpl. lia.
    + unfold inb. simpl. lia.
  - apply (solver_out_of_bounds 1 1 [[0]] (5, 5) (0, 0) 1 Hr); try lia.
    + discriminate.
    + simpl. lia.
Defined.

(** C4, as the claim states it, fails: with the end [(5, 5)] outside the
    one-cell grid [dijkstra_solve] raises nothing and returns [[(5, 5)]];
    with the start [(-1, -1)] it reads [grid[-1][-1]] and returns a path. *)
Lemma solver_accepts_outside_coordinates :
  dijkstra_solve 1 [[0]] (0, 0) (5, 5) = Ret [(5, 5)]
  ∧ dijkstra_solve 1 [[0]] (-1, -1) (0, 0) = Ret [(0, 0)]
  ∧ solve_maze_dijkstra 1 [[0]] (-1, -1) (0, 0) = Ret None.
Proof. split; [|split]; vm_compute; reflexivity. Qed.

(** C9: on a grid of one cell, whatever its mask, with start and end at
    [(0, 0)] and any fuel of at least one, both solvers return the path
    [[(0, 0)]], which has no edge. *)
Theorem solver_single_cell (m : Z) (fuel : nat) :
  dijkstra_solve (S fuel) [[m]] (0, 0) (0, 0) = Ret [(0, 0)]
  ∧ solve_maze_dijkstra (S fuel) [[m]] (0, 0) (0, 0) = Ret (Some [(0, 0)])
  ∧ (length [((0%Z, 0%Z) : cell)] - 1 = 0)%nat.
Proof.
  assert (rect 1 1 [[m]]) as Hr by (split; [reflexivity|repeat constructor]).
  unfold dijkstra_solve, solve_maze_dijkstra.
  rewrite (dimensions_rect 1 1) by (done || lia). cbn [mbind outcome_bind].
  rewrite (solve_loop_cons fuel [[m]] 1 1 (0, 0) (init (0, 0)) 0 0 0 [])
    by done.
  rewrite (backup_loop_cons fuel [[m]] 1 1 (0, 0) (init (0, 0)) 0 0 0 [])
    by done.
  destruct (decide (((0, 0) : cell) = (0, 0))) as [_|]; [|done].
  cbn [mbind outcome_bind prev init].
  split; [|split; [|done]].
  - cbn [trace_get]. unfold prev_get. rewrite lookup_singleton_eq.
    by destruct fuel.
  - destruct (decide ((0, 0) ∈ dom ({[ (0, 0) := None ]} : gmap cell (option cell))))
      as [_|Hout].
    + cbn [trace_subscript]. rewrite lookup_singleton_eq.
      cbn [subscript mbind outcome_bind]. by destruct fuel.
    + exfalso. apply Hout. rewrite dom_singleton_L. by apply elem_of_singleton.
Qed.

(** C10: on a rectangular grid with start and end in bounds and end
    reachable from start along the bits of the cells, [dijkstra_solve] and
    [solve_maze_dijkstra] return the same path. *)
Theorem solvers_agree w h (grid : Grid) (start end_ : cell) (fuel : nat) :
  rect w h grid → inb w h start → inb w h end_ →
  rtc (passage w h (mask grid)) start end_ →
  (Z.to_nat (w * h) <= fuel)%nat →
  ∃ path,
    dijkstra_solve fuel grid start end_ = Ret path
    ∧ solve_maze_dijkstra fuel grid start end_ = Ret (Some path).
Proof.
  intros Hr Hstart Hend [k Hk]%rtc_nsteps Hfuel.
  destruct (solvers_reachable w h grid start end_ fuel k)
    as (path & Hsolve & Hbackup & _); try done.
  { unfold inb in Hstart. lia. }
  by exists path.
Qed.

Lemma solvers_agree_witness :
  ∃ path,
    dijkstra_solve 3 [[8; 12; 4]] (0, 0) (2, 0) = Ret path
    ∧ solve_maze_dijkstra 3 [[8; 12; 4]] (0, 0) (2, 0) = Ret (Some path).
Proof.
  apply (solvers_agree 3 1 [[8; 12; 4]] (0, 0) (2, 0) 3).
  - split; [reflexivity|]. repeat constructor.
  - unfold inb. simpl. lia.
  - unfold inb. simpl. lia.
  - apply rtc_l with (1, 0).
    + split; [unfold inb; simpl; lia|]. split; [unfold inb; simpl; lia|].
      exists Dir.E. split; [apply elem_of_directions; tauto|].
      split; [vm_compute; discriminate|reflexivity].
    + apply rtc_once.
      split; [unfold inb; simpl; lia|]. split; [unfold inb; simpl; lia|].
      exists Dir.E. split; [apply elem_of_directions; tauto|].
      split; [vm_compute; discriminate|reflexivity].
  - simpl. lia.
Defined.

(** * Further properties of the code *)

(** ** From a generator to the solvers *)

(** X1: in a grid that a generator has returned, the solvers join any two
    cells: with start and end in bounds (as [main] passes the two corners)
    both return the same path, it joins start to end along passages, visits
    no cell twice, and is the only such path. *)
Theorem generated_maze_solved seeded (width height : Z) (seed : option Z)
    (g : rng) (fuel search_fuel : nat) (grid : Grid) (start end_ : cell) :
  1 <= width → 1 <= height →
  generate_maze_dfs seeded fuel width height seed g = Ret grid
  ∨ generate_maze_prim seeded fuel width height seed g = Ret grid
  ∨ generate_maze_wilson seeded fuel width height seed g = Ret grid →
  inb width height start → inb width height end_ →
  (Z.to_nat (width * height) <= search_fuel)%nat →
  ∃ path,
    dijkstra_solve search_fuel grid start end_ = Ret path
    ∧ solve_maze_dijkstra search_fuel grid start end_ = Ret (Some path)
    ∧ joins width height (mask grid) start end_ path
    ∧ NoDup path
    ∧ (∀ other, joins width height (mask grid) start end_ other →
         NoDup other → other = path).
Proof.
  intros Hw Hh Hrun Hstart Hend Hfuel.
  assert (perfect width height grid ∧ symmetric width height (mask grid))
    as [Hperfect Hsym].
  { destruct Hrun as [Hrun|[Hrun|Hrun]].
    - destruct (generate_maze_dfs_stops seeded fuel width height seed g)
        as [Hout|(grid' & Hrun' & Hp & Hs)]; [lia..|congruence|].
      assert (grid' = grid) as -> by congruence. done.
    - destruct (generate_maze_prim_stops seeded fuel width height seed g)
        as [Hout|(grid' & Hrun' & Hp & Hs)]; [lia..|congruence|].
      assert (grid' = grid) as -> by congruence. done.
    - destruct (generate_maze_wilson_stops seeded fuel width height seed g)
        as [Hout|(grid' & Hrun' & Hp & Hs)]; [lia..|congruence|].
      assert (grid' = grid) as -> by congruence. done. }
  pose proof Hperfect as (Hr & Hconn & _).
  destruct (rtc_nsteps_1 _ _ (Hconn start end_ Hstart Hend)) as [k Hk].
  destruct (solvers_reachable width height grid start end_ search_fuel k)
    as (path & Hsolve & Hbackup & Hjoins & Hnodup & _); try done; [lia|].
  exists path. split; [done|]. split; [done|]. split; [done|]. split; [done|].
  intros other Hother Hsimple.
  apply (perfect_unique width height grid) with start end_; try done; lia.
Qed.

Lemma generated_maze_solved_witness :
  ∃ path,
    dijkstra_solve 4 [[10; 4]; [9; 4]] (0, 0) (1, 1) = Ret path
    ∧ solve_maze_dijkstra 4 [[10; 4]; [9; 4]] (0, 0) (1, 1) = Ret (Some path)
    ∧ joins 2 2 (mask [[10; 4]; [9; 4]]) (0, 0) (1, 1) path
    ∧ NoDup path
    ∧ (∀ other, joins 2 2 (mask [[10; 4]; [9; 4]]) (0, 0) (1, 1) other →
         NoDup other → other = path).
Proof.
  apply (generated_maze_solved sample_source 2 2 (Some 5) (fun _ => O) 8 4).
  - lia.
  - lia.
  - left. vm_compute. reflexivity.
  - unfold inb. simpl. lia.
  - unfold inb. simpl. lia.
  - simpl. lia.
Defined.

(** ** The solvers at the edges of their domain *)

(** X2: on a rectangular grid with start in bounds, when no sequence of
    passages leads from start to end, [dijkstra_solve] returns the list
    [[end]] and [solve_maze_dijkstra] returns [None]; neither raises. *)
Theorem unreachable_end_results w h (grid : Grid) (start end_ : cell)
    (fuel : nat) :
  rect w h grid → inb w h start →
  ¬ rtc (passage w h (mask grid)) start end_ →
  (Z.to_nat (w * h) <= fuel)%nat →
  dijkstra_solve fuel grid start end_ = Ret [end_]
  ∧ solve_maze_dijkstra fuel grid start end_ = Ret None.
Proof.
  intros Hr Hstart Hnone Hfuel. apply (solvers_unreachable w h); try done.
  intros k Hk. apply Hnone. by eapply rtc_nsteps_2.
Qed.

Lemma unreachable_end_results_witness :
  dijkstra_solve 4 [[2; 0]; [1; 0]] (0, 0) (1, 1) = Ret [(1, 1)]
  ∧ solve_maze_dijkstra 4 [[2; 0]; [1; 0]] (0, 0) (1, 1) = Ret None.
Proof.
  apply (unreachable_end_results 2 2).
  - split; [reflexivity|]. repeat constructor.
  - unfold inb. simpl. lia.
  - intros Hpath. apply rtc_inv_r in Hpath as [Heq|(c & _ & Hstep)].
    + discriminate Heq.
    + destruct Hstep as (Hc & _ & d & Hd & Hopen & Hto).
      destruct c as [x y]. unfold inb in Hc. simpl in Hc.
      apply elem_of_directions in Hd.
      unfold step, Dir.N, Dir.S, Dir.E, Dir.W in *.
      destruct Hd as [-> |[-> |[-> | ->]]]; simpl in Hto;
        injection Hto as Hx Hy;
        (assert (x = 1 ∧ y = 0 ∨ x = 0 ∧ y = 1 ∨ x = 1 ∧ y = 2 ∨ x = 2 ∧ y = 1)
           as Hc' by lia);
        destruct Hc' as [[-> ->]|[[-> ->]|[[-> ->]|[-> ->]]]]; try lia;
        apply Hopen; reflexivity.
  - simpl. lia.
Defined.

(** X3: the path that the solvers return for a reachable end visits no
    cell twice, stays in bounds, and so has at most [w * h] cells. *)
Theorem solver_path_simple w h (grid : Grid) (start end_ : cell)
    (fuel : nat) :
  rect w h grid → inb w h start →
  rtc (passage w h (mask grid)) start end_ →
  (Z.to_nat (w * h) <= fuel)%nat →
  ∃ path,
    dijkstra_solve fuel grid start end_ = Ret path
    ∧ NoDup path
    ∧ (∀ c, c ∈ path → inb w h c)
    ∧ Z.of_nat (length path) <= w * h.
Proof.
  intros Hr Hstart [k Hk]%rtc_nsteps_1 Hfuel.
  destruct (solvers_reachable w h grid start end_ fuel k)
    as (path & Hsolve & _ & (Hhead & Hlast & Hwalk) & Hnodup & _); try done.
  { unfold inb in Hstart. lia. }
  assert (∀ c, c ∈ path → inb w h c) as Hin.
  { clear Hsolve Hlast Hnodup Hk. revert start Hstart Hhead Hwalk.
    induction path as [|a path IH]; intros start Hstart Hhead Hwalk c Hc.
    - by apply elem_of_nil in Hc.
    - injection Hhead as ->. apply elem_of_cons in Hc as [-> |Hc]; [done|].
      destruct path as [|b path]; [by apply elem_of_nil in Hc|].
      destruct Hwalk as [(_ & Hb & _) Hwalk]. by apply (IH b). }
  exists path. split; [done|]. split; [done|]. split; [done|].
  assert (length path <= length (cells w h))%nat as Hle.
  { apply submseteq_length, NoDup_submseteq; [done|].
    intros c Hc. by apply elem_of_cells, Hin. }
  pose proof (length_cells w h). unfold inb in Hstart. lia.
Qed.

Lemma solver_path_simple_witness :
  ∃ path,
    dijkstra_solve 4 [[10; 6]; [1; 1]] (0, 0) (1, 1) = Ret path
    ∧ NoDup path
    ∧ (∀ c, c ∈ path → inb 2 2 c)
    ∧ Z.of_nat (length path) <= 2 * 2.
Proof.
  apply (solver_path_simple 2 2 [[10; 6]; [1; 1]] (0, 0) (1, 1) 4).
  - split; [reflexivity|]. repeat constructor.
  - unfold inb. simpl. lia.
  - apply rtc_l with (1, 0).
    + split; [unfold inb; simpl; lia|]. split; [unfold inb; simpl; lia|].
      exists Dir.E. split; [apply elem_of_directions; tauto|].
      split; [vm_compute; discriminate|reflexivity].
    + apply rtc_once.
      split; [unfold inb; simpl; lia|]. split; [unfold inb; simpl; lia|].
      exists Dir.S. split; [apply elem_of_directions; tauto|].
      split; [vm_compute; discriminate|reflexivity].
  - simpl. lia.
Defined.

(** X4: with end equal to start the solvers return [[start]] on every grid
    that has a first row, without reading a cell: the masks, the shape of
    the other rows and the position of start do not matter.  On the empty
    grid both raise [IndexError], from [len(grid[0])]. *)
Theorem solver_start_is_end (row : list Z) (rest : Grid) (start end_ : cell)
    (fuel : nat) :
  dijkstra_solve (S fuel) (row :: rest) start start = Ret [start]
  ∧ solve_maze_dijkstra (S fuel) (row :: rest) start start
    = Ret (Some [start])
  ∧ dijkstra_solve fuel [] start end_ = Raise IndexError
  ∧ solve_maze_dijkstra fuel [] start end_ = Raise IndexError.
Proof.
  split; [|split; [|done]].
  - unfold dijkstra_solve.
    assert (dimensions (row :: rest)
            = Ret (Z.of_nat (length (row :: rest)), Z.of_nat (length row)))
      as -> by done.
    cbn [mbind outcome_bind]. destruct start as [x y].
    rewrite (solve_loop_cons fuel _ _ _ (x, y) (init (x, y)) 0 x y []) by done.
    destruct (decide ((x, y) = (x, y))) as [_|]; [|done].
    cbn [mbind outcome_bind prev init trace_get]. unfold prev_get.
    rewrite lookup_singleton_eq. by destruct fuel.
  - unfold solve_maze_dijkstra.
    assert (dimensions (row :: rest)
            = Ret (Z.of_nat (length (row :: rest)), Z.of_nat (length row)))
      as -> by done.
    cbn [mbind outcome_bind]. destruct start as [x y].
    rewrite (backup_loop_cons fuel _ _ _ (x, y) (init (x, y)) 0 x y []) by done.
    destruct (decide ((x, y) = (x, y))) as [_|]; [|done].
    cbn [mbind outcome_bind prev init].
    destruct (decide ((x, y) ∈ dom ({[ (x, y) := None ]} : gmap cell (option cell))))
      as [_|Hout].
    + cbn [trace_subscript]. rewrite lookup_singleton_eq.
      cbn [subscript mbind outcome_bind]. by destruct fuel.
    + exfalso. apply Hout. rewrite dom_singleton_L. by apply elem_of_singleton.
Qed.

(** ** Neighbours, directions and edges *)

(** X5: for a cell in bounds, [_neighbors] yields exactly the in-bounds
    cells one step away, each once and each with the direction that leads
    to it; it yields at most four. *)
Theorem neighbors_exact w h (x y : Z) :
  inb w h (x, y) →
  NoDup (_neighbors x y w h)
  ∧ (length (_neighbors x y w h) <= 4)%nat
  ∧ ∀ nx ny d,
      (nx, ny, d) ∈ _neighbors x y w h ↔
      d ∈ directions ∧ (nx, ny) = step (x, y) d ∧ inb w h (nx, ny).
Proof.
  intros Hc. split; [|split].
  - unfold _neighbors, Dir.N, Dir.S, Dir.W, Dir.E.
    destruct (0 <? y), (y <? h - 1), (0 <? x), (x <? w - 1); simpl;
      repeat (apply NoDup_cons; split;
              [rewrite ?elem_of_cons, elem_of_nil; intros Hin;
               repeat (destruct Hin as [Hin|Hin]; [discriminate Hin|]);
               exact Hin|]);
      apply NoDup_nil_2.
  - apply neighbors_length.
  - intros nx ny d. apply (elem_of_neighbors w h (x, y) (nx, ny) d Hc).
Qed.

Lemma neighbors_exact_witness :
  NoDup (_neighbors 0 1 3 3)
  ∧ (length (_neighbors 0 1 3 3) <= 4)%nat
  ∧ ∀ nx ny d,
      (nx, ny, d) ∈ _neighbors 0 1 3 3 ↔
      d ∈ directions ∧ (nx, ny) = step (0, 1) d ∧ inb 3 3 (nx, ny).
Proof.
  apply (neighbors_exact 3 3 0 1). unfold inb. simpl. lia.
Defined.

(** X6: the three dictionaries [DX], [DY] and [OPPOSITE] have the same four
    keys; [OPPOSITE] maps each direction to one whose offsets are the
    negated ones and back again, every offset is one step along one axis,
    and two different directions share no bit. *)
Theorem direction_tables_consistent (d : Z) :
  (is_Some (DX d) ↔ d ∈ directions)
  ∧ (is_Some (DY d) ↔ d ∈ directions)
  ∧ (is_Some (OPPOSITE d) ↔ d ∈ directions)
  ∧ (∀ od, OPPOSITE d = Some od →
       OPPOSITE od = Some d
       ∧ DX od = Z.opp <$> DX d ∧ DY od = Z.opp <$> DY d
       ∧ Z.land d od = 0)
  ∧ (∀ dx dy, DX d = Some dx → DY d = Some dy → Z.abs dx + Z.abs dy = 1)
  ∧ (∀ d', d ∈ directions → d' ∈ directions → d ≠ d' → Z.land d d' = 0).
Proof.
  assert (∀ k, is_Some (DX k) ∨ is_Some (DY k) ∨ is_Some (OPPOSITE k) →
               k ∈ directions) as Hkeys.
  { intros k Hk. apply elem_of_directions.
    unfold DX, DY, OPPOSITE in Hk.
    repeat case_decide; try tauto.
    destruct Hk as [[? Hk]|[[? Hk]|[? Hk]]]; discriminate Hk. }
  split; [|split; [|split; [|split; [|split]]]].
  - split; [by auto|]. intros Hd. dir_cases Hd; by eexists.
  - split; [by auto|]. intros Hd. dir_cases Hd; by eexists.
  - split; [by auto|]. apply OPPOSITE_is_Some.
  - intros od Hod. destruct (OPPOSITE_directions d od Hod) as [Hd _].
    dir_cases Hd; vm_compute in Hod; injection Hod as <-; done.
  - intros dx dy Hdx Hdy.
    assert (d ∈ directions) as Hd by (apply Hkeys; left; by eexists).
    dir_cases Hd; vm_compute in Hdx, Hdy; by simplify_eq.
  - intros d' Hd Hd' Hne. dir_cases Hd; dir_cases Hd'; done.
Qed.

(** X7: on a rectangular grid [to_edges] raises nothing and lists, each
    once, the pairs [(a, b)] of cells in bounds such that the mask of [a]
    has the bit of the direction from [a] to [b] and [a] is the smaller
    tuple; the empty grid gives the empty list. *)
Theorem to_edges_exact w h (grid : Grid) :
  rect w h grid →
  ∃ es,
    to_edges grid = Ret es
    ∧ NoDup es
    ∧ (∀ a b, (a, b) ∈ es ↔
              passage w h (mask grid) a b ∧ tuple_ltb a b = true)
    ∧ (grid = [] → es = []).
Proof.
  intros Hr.
  assert (∀ a b, (a, b) ∈ edges_of w h (mask grid) ↔
                 passage w h (mask grid) a b ∧ tuple_ltb a b = true) as Hiff.
  { intros [ax ay] [bx by_]. rewrite elem_of_edges_of.
    unfold passage, open_to, tuple_ltb, inb. simpl. split.
    - intros [Ha [(Hbit & Hlt & Hb)|(Hbit & Hlt & Hb)]];
        injection Hb as -> ->.
      + split; [|apply orb_true_iff; left; lia].
        split; [done|]. split; [lia|]. exists Dir.E.
        split; [apply elem_of_directions; tauto|]. split; [done|].
        unfold step. simpl. f_equal; lia.
      + split; [|apply orb_true_iff; right; apply andb_true_iff; lia].
        split; [done|]. split; [lia|]. exists Dir.S.
        split; [apply elem_of_directions; tauto|]. split; [done|].
        unfold step. simpl. f_equal; lia.
    - intros [(Ha & Hb & d & Hd & Hbit & Hto) Hlt]. split; [done|].
      apply orb_true_iff in Hlt. unfold step in Hto.
      dir_cases Hd; simpl in Hto; injection Hto as -> ->.
      + exfalso. destruct Hlt as [Hlt|Hlt]; [lia|].
        apply andb_true_iff in Hlt. lia.
      + right. split; [done|]. split; [lia|]. f_equal; lia.
      + left. split; [done|]. split; [lia|]. f_equal; lia.
      + exfalso. destruct Hlt as [Hlt|Hlt]; [lia|].
        apply andb_true_iff in Hlt. lia. }
  assert (NoDup (edges_of w h (mask grid))) as Hnodup.
  { assert (∀ c e, e ∈ cedges w h c (mask grid c) → e.1 = c) as Hfst.
    { intros c e. unfold cedges. rewrite elem_of_app.
      destruct (_ && _), (_ && _);
        rewrite ?elem_of_nil, ?list_elem_of_singleton;
        intros [Hin|Hin]; by subst. }
    unfold edges_of. apply NoDup_bind; [| |apply NoDup_cells].
    - intros c1 c2 e _ _ H1 H2.
      by rewrite <- (Hfst c1 e), <- (Hfst c2 e).
    - intros c _. unfold cedges.
      destruct (_ && _), (_ && _); simpl;
        repeat (apply NoDup_cons; split;
                [rewrite ?elem_of_cons, elem_of_nil; intros Hin;
                 repeat (destruct Hin as [Hin|Hin];
                         [injection Hin; lia|]);
                 exact Hin|]);
        apply NoDup_nil_2. }
  destruct (decide (0 < w ∧ 0 < h)) as [[Hw Hh]|Hsmall].
  - exists (edges_of w h (mask grid)).
    split; [by apply to_edges_eq|]. split; [done|]. split; [done|].
    intros ->. destruct Hr as [Hlen _]. simpl in Hlen. lia.
  - assert (to_edges grid = Ret []) as Hrun.
    { destruct Hr as [Hlen Hrows]. destruct grid as [|row grid].
      - done.
      - apply Forall_cons in Hrows as [Hrow _].
        assert (w = 0) as -> by (simpl in Hlen; lia).
        unfold to_edges. rewrite decide_True by (simpl; lia).
        assert (Py.getitem (row :: grid) 0 = Ret row) as -> by done.
        cbn [mbind outcome_bind]. rewrite Hrow.
        assert (cells 0 (Z.of_nat (length (row :: grid))) = []) as ->; [|done].
        apply elem_of_nil_inv. intros c [Hc _]%elem_of_cells. lia. }
    exists []. split; [done|]. split; [apply NoDup_nil_2|]. split; [|done].
    intros a b. split; [by intros ?%elem_of_nil|].
    intros [(Ha & _) _]. unfold inb in Ha. lia.
Qed.

Lemma to_edges_exact_witness :
  ∃ es,
    to_edges [[10; 6]; [1; 1]] = Ret es
    ∧ NoDup es
    ∧ (∀ a b, (a, b) ∈ es ↔
              passage 2 2 (mask [[10; 6]; [1; 1]]) a b ∧ tuple_ltb a b = true)
    ∧ ([[10; 6]; [1; 1]] = [] → es = []).
Proof.
  apply (to_edges_exact 2 2 [[10; 6]; [1; 1]]).
  split; [reflexivity|]. repeat constructor.
Defined.

(** ** What the generators write into the grid *)

Lemma getitem_Ret_elem {A} (l : list A) i a : Py.getitem l i = Ret a → a ∈ l.
Proof.
  unfold Py.getitem. destruct (_ && _); [|done].
  destruct (l !! _) as [a'|] eqn:Hl; [|done].
  intros [= ->]. by eapply list_elem_of_lookup_2.
Qed.

Lemma setitem_Ret {A} (l l' : list A) i v :
  Py.setitem l i v = Ret l' → ∃ j, l' = <[j := v]> l.
Proof.
  unfold Py.setitem. destruct (_ && _); [|done]. intros [= <-]. by eexists.
Qed.

Lemma lor_flag m d : 0 <= m <= 15 → d ∈ directions → 0 <= Z.lor m d <= 15.
Proof.
  intros Hm Hd.
  assert (m ∈ seqZ 0 16) as Hin by (apply elem_of_seqZ; lia).
  dir_cases Hd; vm_compute seqZ in Hin;
    repeat (apply elem_of_cons in Hin as [-> |Hin]; [vm_compute; split; discriminate|]);
    by apply elem_of_nil in Hin.
Qed.

Lemma ior_flags (g g' : Grid) x y d :
  ior g x y (Ret d) = Ret g' → d ∈ directions → flags_only g → flags_only g'.
Proof.
  unfold ior. intros Hrun Hd Hg.
  destruct (Py.getitem g y) as [row| |] eqn:Hrow; [|done..].
  cbn [mbind outcome_bind] in Hrun.
  destruct (Py.getitem row x) as [old| |] eqn:Hold; [|done..].
  cbn [mbind outcome_bind] in Hrun.
  destruct (Py.setitem row x (Z.lor old d)) as [row'| |] eqn:Hrow'; [|done..].
  cbn [mbind outcome_bind] in Hrun.
  apply setitem_Ret in Hrun as [j ->]. apply setitem_Ret in Hrow' as [i ->].
  apply getitem_Ret_elem in Hrow, Hold.
  unfold flags_only in *. rewrite Forall_forall in Hg.
  pose proof (Hg row Hrow) as Hr. apply Forall_insert; [by apply Forall_forall|].
  apply Forall_insert; [done|]. rewrite Forall_forall in Hr.
  apply lor_flag; [by apply Hr|done].
Qed.

Lemma fresh_flags w h : flags_only (fresh w h 0).
Proof.
  unfold flags_only, fresh. apply Forall_fmap, Forall_forall. intros y _.
  simpl. apply Forall_fmap, Forall_forall. intros x _. simpl. lia.
Qed.

Lemma dfs_loop_flags fuel w h g vis stack r g' :
  dfs_loop fuel w h g vis stack r = Ret g' → flags_only g → flags_only g'.
Proof.
  revert g vis stack r. induction fuel as [|fuel IH]; intros g vis stack r Hrun Hg;
    destruct stack as [|[x y] below]; try (simpl in Hrun; congruence).
  rewrite dfs_loop_eq in Hrun.
  destruct (unvisited vis (_neighbors x y w h)) as [opts| |]; [|done..].
  cbn [mbind outcome_bind] in Hrun.
  destruct opts as [|o opts]; [by eapply IH|].
  destruct (Random.choice (o :: opts) r) as [[[[nx ny] d] r']| |]; [|done..].
  cbn [mbind outcome_bind] in Hrun.
  destruct (OPPOSITE d) as [od|] eqn:Hod; [|done].
  destruct (OPPOSITE_directions d od Hod) as [Hd Hod'].
  destruct (ior g x y (Ret d)) as [g1| |] eqn:Hg1; [|done..].
  cbn [mbind outcome_bind] in Hrun.
  destruct (ior g1 nx ny (Ret od)) as [g2| |] eqn:Hg2; [|done..].
  cbn [mbind outcome_bind] in Hrun.
  destruct (Py.setitem2 vis nx ny true) as [vis'| |]; [|done..].
  cbn [mbind outcome_bind] in Hrun.
  eapply IH; [exact Hrun|]. eapply ior_flags; [exact Hg2|done|].
  by eapply ior_flags.
Qed.

Lemma prim_loop_flags fuel w h g in_maze frontier r g' :
  prim_loop fuel w h g in_maze frontier r = Ret g' →
  flags_only g → flags_only g'.
Proof.
  revert g in_maze frontier r.
  induction fuel as [|fuel IH]; intros g in_maze frontier r Hrun Hg;
    destruct frontier as [|e fr]; try (simpl in Hrun; congruence).
  rewrite prim_loop_eq in Hrun.
  destruct (Random.randrange _ r) as [[i r']| |]; [|done..].
  cbn [mbind outcome_bind] in Hrun.
  destruct (pop_at (e :: fr) i) as [[[[[[x y] nx] ny] d] frontier']| |];
    [|done..].
  cbn [mbind outcome_bind] in Hrun.
  destruct (Py.getitem2 in_maze nx ny) as [absorbed| |]; [|done..].
  cbn [mbind outcome_bind] in Hrun.
  destruct absorbed; [by eapply IH|].
  destruct (OPPOSITE d) as [od|] eqn:Hod; [|done].
  destruct (OPPOSITE_directions d od Hod) as [Hd Hod'].
  destruct (Py.setitem2 in_maze nx ny true) as [in_maze'| |]; [|done..].
  cbn [mbind outcome_bind] in Hrun.
  destruct (ior g x y (Ret d)) as [g1| |] eqn:Hg1; [|done..].
  cbn [mbind outcome_bind] in Hrun.
  destruct (ior g1 nx ny (Ret od)) as [g2| |] eqn:Hg2; [|done..].
  cbn [mbind outcome_bind] in Hrun.
  destruct (extend_frontier _ _ _ _ _) as [frontier''| |]; [|done..].
  cbn [mbind outcome_bind] in Hrun.
  eapply IH; [exact Hrun|]. eapply ior_flags; [exact Hg2|done|].
  by eapply ior_flags.
Qed.

Lemma wilson_carve_flags pn path g in_maze g' in_maze' :
  wilson_carve path pn g in_maze = Ret (g', in_maze') →
  flags_only g → flags_only g'.
Proof.
  revert g in_maze. induction path as [|[x0 y0] path IH]; intros g in_maze Hrun Hg.
  { simpl in Hrun. congruence. }
  destruct path as [|[x1 y1] rest]; [simpl in Hrun; congruence|].
  rewrite wilson_carve_cons in Hrun.
  destruct (subscript (pn !! (x0, y0))) as [[n d]| |]; [|done..].
  cbn [mbind outcome_bind] in Hrun.
  destruct (ior g x0 y0 (Ret d)) as [g1| |] eqn:Hg1; [|done..].
  cbn [mbind outcome_bind] in Hrun.
  destruct (OPPOSITE d) as [od|] eqn:Hod.
  - destruct (OPPOSITE_directions d od Hod) as [Hd Hod'].
    cbn [subscript] in Hrun.
    destruct (ior g1 x1 y1 (Ret od)) as [g2| |] eqn:Hg2; [|done..].
    cbn [mbind outcome_bind] in Hrun.
    destruct (Py.setitem2 in_maze x0 y0 true) as [in_maze1| |]; [|done..].
    cbn [mbind outcome_bind] in Hrun.
    destruct (Py.setitem2 in_maze1 x1 y1 true) as [in_maze2| |]; [|done..].
    cbn [mbind outcome_bind] in Hrun.
    eapply IH; [exact Hrun|]. eapply ior_flags; [exact Hg2|done|].
    by eapply ior_flags.
  - exfalso. cbn [subscript] in Hrun. unfold ior in Hrun.
    destruct (Py.getitem g1 y1) as [row| |]; [|done..].
    cbn [mbind outcome_bind] in Hrun.
    by destruct (Py.getitem row x1).
Qed.

Lemma wilson_loop_flags fuel walk_fuel w h g in_maze r g' :
  wilson_loop fuel walk_fuel w h g in_maze r = Ret g' →
  flags_only g → flags_only g'.
Proof.
  revert g in_maze r. induction fuel as [|fuel IH]; intros g in_maze r Hrun Hg.
  - simpl in Hrun.
    destruct (remaining_cells in_maze (cells w h)) as [pool| |]; [|done..].
    cbn [mbind outcome_bind] in Hrun. destruct pool; [congruence|done].
  - rewrite wilson_loop_eq in Hrun.
    destruct (remaining_cells in_maze (cells w h)) as [pool| |]; [|done..].
    cbn [mbind outcome_bind] in Hrun. destruct pool as [|s pool]; [congruence|].
    destruct (Random.choice (s :: pool) r) as [[[sx sy] r1]| |]; [|done..].
    cbn [mbind outcome_bind] in Hrun.
    destruct (wilson_walk _ _ _ _ _ _ _ _ _ _) as [[[po pn] r2]| |]; [|done..].
    cbn [mbind outcome_bind] in Hrun.
    destruct (wilson_carve po pn g in_maze) as [[g1 in_maze1]| |] eqn:Hcarve;
      [|done..].
    cbn [mbind outcome_bind] in Hrun.
    eapply IH; [exact Hrun|]. by eapply wilson_carve_flags.
Qed.

(** X8: every mask in a grid that a generator returns lies between 0 and
    15: the generators set the four direction flags and no other bit. *)
Theorem generators_masks_in_range seeded (width height : Z)
    (seed : option Z) (g : rng) (fuel : nat) (grid : Grid) :
  generate_maze_dfs seeded fuel width height seed g = Ret grid
  ∨ generate_maze_prim seeded fuel width height seed g = Ret grid
  ∨ generate_maze_wilson seeded fuel width height seed g = Ret grid →
  ∀ row m, row ∈ grid → m ∈ row → 0 <= m <= 15.
Proof.
  intros Hrun.
  assert (flags_only grid) as Hflags.
  { unfold generate_maze_dfs, generate_maze_prim, generate_maze_wilson in Hrun.
    destruct ((width <=? 0) || (height <=? 0)).
    { by destruct Hrun as [?|[?|?]]. }
    cbv zeta in Hrun.
    destruct (Random.randrange width _) as [[x r1]| |];
      [|by destruct Hrun as [?|[?|?]]..].
    cbn [mbind outcome_bind] in Hrun.
    destruct (Random.randrange height _) as [[y r2]| |];
      [|by destruct Hrun as [?|[?|?]]..].
    cbn [mbind outcome_bind] in Hrun.
    destruct (Py.setitem2 _ _ _ _) as [marked| |];
      [|by destruct Hrun as [?|[?|?]]..].
    cbn [mbind outcome_bind] in Hrun.
    destruct Hrun as [Hrun|[Hrun|Hrun]].
    - eapply dfs_loop_flags; [exact Hrun|apply fresh_flags].
    - eapply prim_loop_flags; [exact Hrun|apply fresh_flags].
    - eapply wilson_loop_flags; [exact Hrun|apply fresh_flags]. }
  intros row m Hrow Hm. unfold flags_only in Hflags.
  rewrite Forall_forall in Hflags. pose proof (Hflags row Hrow) as Hr.
  rewrite Forall_forall in Hr. by apply Hr.
Qed.

Lemma generators_masks_in_range_witness :
  generate_maze_dfs sample_source 8 2 2 (Some 5) (fun _ => O)
  = Ret [[10; 4]; [9; 4]]
  ∧ Forall (Forall (fun m => 0 <= m <= 15)) [[10; 4]; [9; 4]].
Proof.
  assert (generate_maze_dfs sample_source 8 2 2 (Some 5) (fun _ => O)
          = Ret [[10; 4]; [9; 4]]) as Hrun by (vm_compute; reflexivity).
  split; [exact Hrun|].
  apply Forall_forall. intros row Hrow. apply Forall_forall. intros m Hm.
  apply (generators_masks_in_range sample_source 2 2 (Some 5) (fun _ => O) 8
           [[10; 4]; [9; 4]] (or_introl Hrun) row m Hrow Hm).
Defined.

(** X9: for the grid of one cell every generator returns [[[0]]], the cell
    without a passage, whatever the seed and the random source. *)
Theorem generators_single_cell seeded (seed : option Z) (g : rng)
    (fuel : nat) :
  generate_maze_dfs seeded (S fuel) 1 1 seed g = Ret [[0]]
  ∧ generate_maze_prim seeded fuel 1 1 seed g = Ret [[0]]
  ∧ generate_maze_wilson seeded fuel 1 1 seed g = Ret [[0]].
Proof.
  assert (∀ r, Random.randrange 1 r = Ret (0, Random.advance r)) as Hdraw.
  { intros r. unfold Random.randrange, Random.randbelow. simpl.
    by rewrite Z.mod_1_r. }
  unfold generate_maze_dfs, generate_maze_prim, generate_maze_wilson.
  cbv zeta. simpl orb. cbv iota. rewrite !Hdraw. cbn [mbind outcome_bind].
  rewrite !Hdraw. cbn [mbind outcome_bind].
  assert (Py.setitem2 (fresh 1 1 false) 0 0 true = Ret [[true]]) as -> by done.
  cbn [mbind outcome_bind].
  split; [|split].
  - rewrite dfs_loop_eq.
    assert (unvisited [[true]] (_neighbors 0 0 1 1) = Ret []) as -> by done.
    cbn [mbind outcome_bind]. by destruct fuel.
  - by destruct fuel.
  - by destruct fuel.
Qed.

(** ** Rendering *)

Lemma join_cons_cons sep (p q : list ascii) rest :
  Str.join sep (p :: q :: rest) = p ++ sep ++ Str.join sep (q :: rest).
Proof. done. Qed.

Lemma splitlines_from_plain l rest cur :
  Forall (fun c => Str.linebreak c = false) l →
  Str.splitlines_from (l ++ rest) cur = Str.splitlines_from rest (cur ++ l).
Proof.
  intros Hl. revert cur. induction Hl as [|c l Hc _ IH]; intros cur.
  - by rewrite app_nil_r.
  - simpl. rewrite Hc, IH. by rewrite <- app_assoc.
Qed.

Lemma splitlines_from_newline s cur :
  Str.splitlines_from (Str.newline :: s) cur = cur :: Str.splitlines_from s [].
Proof. by destruct s. Qed.

Lemma splitlines_join lines :
  plain lines → Str.splitlines (Str.join [Str.newline] lines) = lines.
Proof.
  unfold Str.splitlines. induction 1 as [|p rest [Hp Hchars] Hrest IH]; [done|].
  destruct rest as [|q rest].
  - cbn [Str.join]. rewrite <- (app_nil_r p) at 1.
    rewrite splitlines_from_plain by done. cbn [app Str.splitlines_from].
    by destruct p.
  - rewrite join_cons_cons, splitlines_from_plain by done.
    cbn [app]. by rewrite splitlines_from_newline, IH.
Qed.

Lemma render_row_spec w h (grid : Grid) start end_ y :
  rect w h grid → 0 <= y < h →
  ∀ xs line, (∀ x, x ∈ xs → 0 <= x < w) →
    render_row grid h y start end_ xs line
    = Ret (line ++ ((fun x => [cell_char h (mask grid) start end_ (x, y);
                               east_char (mask grid) (x, y)]) <$> xs)).
Proof.
  intros Hr Hy. induction xs as [|x xs IH]; intros line Hxs.
  { simpl. by rewrite app_nil_r. }
  assert (0 <= x < w) as Hx by (apply Hxs; left).
  cbn [render_row].
  pose proof (getitem2_rect 0 w h grid (x, y) Hr) as Hget. simpl in Hget.
  rewrite Hget by done. cbn [mbind outcome_bind].
  fold (mask grid (x, y)).
  assert ((if y + 1 <? h
           then below ← Py.getitem2 grid x (y + 1);
                Ret (if decide (Z.land below Dir.N ≠ 0)
                     then if decide (Z.land (mask grid (x, y)) Dir.S ≠ 0)
                          then Str.space else Str.underscore
                     else Str.underscore)
           else Ret (if decide (Z.land (mask grid (x, y)) Dir.S ≠ 0)
                     then Str.space else Str.underscore))
          = Ret (floor_char h (mask grid) (x, y))) as ->.
  { unfold floor_char. simpl. destruct (Z.ltb_spec (y + 1) h); [|done].
    pose proof (getitem2_rect 0 w h grid (x, y + 1) Hr) as Hbelow.
    simpl in Hbelow. rewrite Hbelow by (split; simpl; lia). done. }
  cbn [mbind outcome_bind]. rewrite IH by (intros x' Hx'; apply Hxs; by right).
  rewrite <- app_assoc. done.
Qed.

Lemma render_rows_spec w h (grid : Grid) start end_ :
  rect w h grid →
  ∀ ys out, (∀ y, y ∈ ys → 0 <= y < h) →
    render_rows grid h w start end_ ys out
    = Ret (out ++ (row_text w h (mask grid) start end_ <$> ys)).
Proof.
  intros Hr. induction ys as [|y ys IH]; intros out Hys.
  { simpl. by rewrite app_nil_r. }
  cbn [render_rows].
  rewrite (render_row_spec w h) by
    (done || (by apply Hys; left) || (intros x Hx; apply elem_of_seqZ in Hx; lia)).
  cbn [mbind outcome_bind]. rewrite IH by (intros y' Hy'; apply Hys; by right).
  rewrite <- app_assoc. done.
Qed.

Lemma render_lines_spec w h (grid : Grid) start end_ :
  rect w h grid → (h = 0 → w = 0) →
  render_lines grid start end_
  = Ret (top_line w :: (row_text w h (mask grid) start end_ <$> Py.range h)).
Proof.
  intros Hr Hempty. unfold render_lines. pose proof Hr as [Hlen Hrows].
  rewrite Hlen. destruct (decide (h ≠ 0)) as [Hh|Hh].
  - destruct grid as [|row grid]; [simpl in Hlen; lia|].
    apply Forall_cons in Hrows as [Hrow _].
    assert (Py.getitem (row :: grid) 0 = Ret row) as -> by done.
    cbn [mbind outcome_bind]. rewrite Hrow.
    rewrite (render_rows_spec w h) by
      (done || (intros y Hy; apply elem_of_seqZ in Hy; lia)).
    done.
  - assert (h = 0) as -> by lia. rewrite Hempty by done. done.
Qed.

Lemma pairs_lookup (f g : Z → ascii) (n : nat) (k : Z) :
  let l := concat ((fun x => [f x; g x]) <$> seqZ k (Z.of_nat n)) in
  length l = (2 * n)%nat
  ∧ ∀ i, (i < n)%nat →
      l !! (2 * i)%nat = Some (f (k + Z.of_nat i))
      ∧ l !! (2 * i + 1)%nat = Some (g (k + Z.of_nat i)).
Proof.
  revert k. induction n as [|n IH]; intros k.
  { split; [done|]. intros i Hi. lia. }
  rewrite seqZ_cons by lia.
  replace (Z.pred (Z.of_nat (S n))) with (Z.of_nat n) by lia.
  cbn [fmap list_fmap concat app]. destruct (IH (Z.succ k)) as [Hlen Hl].
  split; [simpl; rewrite Hlen; lia|].
  intros [|i] Hi.
  - simpl. by rewrite Z.add_0_r.
  - replace (2 * S i)%nat with (S (S (2 * i))) by lia.
    replace (S (S (2 * i)) + 1)%nat with (S (S (2 * i + 1))) by lia.
    cbn [lookup list_lookup]. destruct (Hl i) as [Hf Hg]; [lia|].
    split; [etrans; [exact Hf|]|etrans; [exact Hg|]]; do 2 f_equal; lia.
Qed.

Lemma lookup_cons_S {A} (x : A) (l : list A) (i : nat) :
  (x :: l) !! S i = l !! i.
Proof. done. Qed.

Lemma Shaped_ext w h cc cc' ec lines :
  (∀ c, inb w h c → cc c = cc' c) →
  Shaped w h cc ec lines → Shaped w h cc' ec lines.
Proof.
  intros Heq [Hlen Htop Hrow]. split; [done..|].
  intros y Hy. destruct (Hrow y Hy) as (line & Hline & Hl & Hbar & Hcells).
  exists line. split; [done|]. split; [done|]. split; [done|].
  intros x Hx. destruct (Hcells x Hx) as [Hc He].
  split; [|done]. rewrite Hc. f_equal. by apply Heq.
Qed.

Lemma rendered_shaped w h m start end_ :
  0 <= w → 0 <= h →
  Shaped w h (cell_char h m start end_) (east_char m)
    (top_line w :: (row_text w h m start end_ <$> Py.range h)).
Proof.
  intros Hw Hh. split.
  - cbn [length]. rewrite length_fmap. unfold Py.range. rewrite length_seqZ. lia.
  - done.
  - intros y Hy. exists (row_text w h m start end_ y).
    replace (Z.to_nat (y + 1)) with (S (Z.to_nat y)) by lia.
    rewrite lookup_cons_S.
    split.
    { rewrite list_lookup_fmap. unfold Py.range.
      rewrite lookup_seqZ_lt by lia. simpl. f_equal. f_equal. lia. }
    unfold row_text, Py.range. cbn [concat app].
    pose proof (pairs_lookup (fun x => cell_char h m start end_ (x, y))
                  (fun x => east_char m (x, y)) (Z.to_nat w) 0) as Hpairs.
    rewrite Z2Nat.id in Hpairs by done. simpl in Hpairs.
    destruct Hpairs as [Hlen Hl].
    split; [cbn [length]; rewrite Hlen; lia|]. split; [done|].
    intros x Hx. destruct (Hl (Z.to_nat x)) as [Hf Hg]; [lia|].
    rewrite Z2Nat.id in Hf, Hg by lia.
    replace (Z.to_nat (1 + 2 * x)) with (S (2 * Z.to_nat x)) by lia.
    replace (Z.to_nat (2 + 2 * x)) with (S (2 * Z.to_nat x + 1)) by lia.
    rewrite !lookup_cons_S. split; [exact Hf|exact Hg].
Qed.

Lemma cell_char_plain h m start end_ c :
  Str.linebreak (cell_char h m start end_ c) = false.
Proof.
  unfold cell_char, floor_char.
  repeat case_decide; try done; by destruct (_ <? _).
Qed.

Lemma east_char_plain m c : Str.linebreak (east_char m c) = false.
Proof. unfold east_char. by case_decide. Qed.

Lemma rendered_plain w h m start end_ :
  plain (top_line w :: (row_text w h m start end_ <$> Py.range h)).
Proof.
  apply Forall_cons. split.
  - split; [done|]. apply Forall_cons. split; [done|]. by apply Forall_replicate.
  - apply Forall_fmap, Forall_forall. intros y _. split; [done|].
    unfold row_text. cbn [concat app]. apply Forall_cons. split; [done|].
    apply Forall_concat, Forall_fmap, Forall_forall. intros x _.
    apply Forall_cons. split; [apply cell_char_plain|].
    apply Forall_cons. split; [apply east_char_plain|]. apply Forall_nil_2.
Qed.

(** ** Marking the path in the rendering *)

Lemma setitem_same {A} (l : list A) i a :
  Py.getitem l i = Ret a → Py.setitem l i a = Ret l.
Proof.
  unfold Py.getitem, Py.setitem. destruct (_ && _); [|done].
  destruct (l !! _) as [a'|] eqn:Hl; [|done].
  intros [= ->]. by rewrite list_insert_id.
Qed.

Lemma loops_agree cs lines : mark_loop cs lines = save_loop cs lines.
Proof.
  revert lines. induction cs as [|[x y] cs IH]; intros lines; [done|].
  cbn [mark_loop save_loop].
  destruct (Py.getitem lines (y + 1)) as [row| |] eqn:Hrow; [|done..].
  cbn [mbind outcome_bind].
  destruct (1 + 2 * x <? Z.of_nat (length row)).
  - destruct (Py.getitem row (1 + 2 * x)) as [c| |]; [|done..].
    cbn [mbind outcome_bind].
    destruct (if is_floor c then Py.setitem row (1 + 2 * x) Str.dot else Ret row)
      as [line| |]; [|done..].
    cbn [mbind outcome_bind].
    destruct (Py.setitem lines (y + 1) line) as [lines'| |]; [|done..].
    cbn [mbind outcome_bind]. apply IH.
  - cbn [mbind outcome_bind]. rewrite (setitem_same _ _ _ Hrow).
    cbn [mbind outcome_bind]. apply IH.
Qed.

Lemma marked_char_step cc marked c0 c :
  (if decide (c = c0)
   then if is_floor (marked_char cc marked c0) then Str.dot
        else marked_char cc marked c0
   else marked_char cc marked c)
  = marked_char cc (marked ++ [c0]) c.
Proof.
  unfold marked_char. destruct (decide (c = c0)) as [->|Hne].
  - rewrite (bool_decide_eq_true_2 (c0 ∈ marked ++ [c0]))
      by (apply elem_of_app; right; left).
    destruct (is_floor (cc c0)) eqn:Hfloor.
    + rewrite andb_true_r. cbn [andb].
      destruct (bool_decide (c0 ∈ marked)); [done|]. by rewrite Hfloor.
    + rewrite andb_false_r. by rewrite Hfloor.
  - assert (bool_decide (c ∈ marked ++ [c0]) = bool_decide (c ∈ marked)) as ->;
      [|done].
    apply bool_decide_ext. rewrite elem_of_app, list_elem_of_singleton. tauto.
Qed.

Lemma mark_loop_spec w h cc ec :
  ∀ cs marked lines,
    Shaped w h (marked_char cc marked) ec lines →
    (∀ c, c ∈ cs → inb w h c) →
    ∃ lines',
      mark_loop cs lines = Ret lines'
      ∧ Shaped w h (marked_char cc (marked ++ cs)) ec lines'.
Proof.
  induction cs as [|[x y] cs IH]; intros marked lines Hshape Hcs.
  { exists lines. rewrite app_nil_r. done. }
  assert (inb w h (x, y)) as [Hx Hy] by (apply Hcs; left). simpl in Hx, Hy.
  pose proof Hshape as [Hlen Htop Hrows].
  destruct (Hrows y Hy) as (line & Hline & Hl & Hbar & Hcells).
  destruct (Hcells x Hx) as [Hchar _].
  set (cur := marked_char cc marked) in *.
  set (line' := if is_floor (cur (x, y))
                then <[Z.to_nat (1 + 2 * x) := Str.dot]> line else line).
  assert (length line' = length line) as Hl'.
  { unfold line'. destruct (is_floor _); [apply length_insert|done]. }
  set (lines' := <[Z.to_nat (y + 1) := line']> lines).
  assert (mark_loop ((x, y) :: cs) lines = mark_loop cs lines') as Hstep.
  { cbn [mark_loop].
    destruct (getitem_in_range lines (y + 1)) as (row & Hrow & ->); [lia|].
    assert (row = line) as -> by congruence.
    cbn [mbind outcome_bind].
    destruct (Z.ltb_spec (1 + 2 * x) (Z.of_nat (length line))); [|lia].
    destruct (getitem_in_range line (1 + 2 * x)) as (c & Hc & ->); [lia|].
    assert (c = cur (x, y)) as -> by congruence.
    cbn [mbind outcome_bind].
    assert ((if is_floor (cur (x, y))
             then Py.setitem line (1 + 2 * x) Str.dot else Ret line)
            = Ret line') as ->.
    { unfold line'. destruct (is_floor _); [|done].
      apply setitem_in_range. lia. }
    cbn [mbind outcome_bind]. rewrite setitem_in_range by lia. done. }
  rewrite Hstep.
  destruct (IH (marked ++ [(x, y)]) lines') as (final & Hrun & Hfinal).
  - apply Shaped_ext with
      (fun c => if decide (c = (x, y))
                then if is_floor (cur (x, y)) then Str.dot else cur (x, y)
                else cur c).
    { intros c _. apply marked_char_step. }
    split.
    + unfold lines'. by rewrite length_insert.
    + unfold lines'. rewrite list_lookup_insert_ne by lia. done.
    + intros y' Hy'. destruct (decide (y' = y)) as [->|Hne].
      * exists line'. split.
        { unfold lines'. apply list_lookup_insert_eq.
          apply lookup_lt_Some in Hline. done. }
        split; [lia|]. split.
        { unfold line'. destruct (is_floor _); [|done].
          rewrite list_lookup_insert_ne by lia. done. }
        intros x' Hx'. destruct (Hcells x' Hx') as [Hc' He'].
        destruct (decide (x' = x)) as [->|Hnx].
        -- rewrite decide_True by done. unfold line'.
           destruct (is_floor _).
           ++ split; [apply list_lookup_insert_eq; lia|].
              rewrite list_lookup_insert_ne by lia. done.
           ++ done.
        -- rewrite decide_False by congruence. unfold line'.
           destruct (is_floor _); [|done].
           rewrite !list_lookup_insert_ne by lia. done.
      * destruct (Hrows y' Hy') as (other & Hother & Hlo & Hbo & Hco).
        exists other. split.
        { unfold lines'. rewrite list_lookup_insert_ne by lia. done. }
        split; [done|]. split; [done|].
        intros x' Hx'. rewrite decide_False by congruence. by apply Hco.
  - intros c Hc. apply Hcs. by right.
  - exists final. rewrite <- app_assoc in Hfinal. done.
Qed.

Lemma getitem_head {A} (l : list A) a :
  head l = Some a → Py.getitem l 0 = Ret a.
Proof. destruct l; [done|]. by intros [= ->]. Qed.

Lemma getitem_last {A} (l : list A) a :
  last l = Some a → Py.getitem l (-1) = Ret a.
Proof.
  intros Hlast. assert (l ≠ []) as Hne by (by intros ->).
  assert (0 < length l)%nat by (destruct l; [done|simpl; lia]).
  unfold Py.getitem. cbn [Z.ltb Z.compare].
  destruct (Z.leb_spec 0 (-1 + Z.of_nat (length l))); [|lia].
  destruct (Z.ltb_spec (-1 + Z.of_nat (length l)) (Z.of_nat (length l))); [|lia].
  cbn [andb]. rewrite last_lookup in Hlast.
  replace (Z.to_nat (-1 + Z.of_nat (length l))) with (pred (length l)) by lia.
  by rewrite Hlast.
Qed.

Lemma elem_of_inner {A} (l : list A) a : a ∈ inner l → a ∈ l.
Proof. unfold inner. intros Hin. by eapply subseteq_take, subseteq_drop. Qed.

(** X10: on a rectangular grid with at least one row [render_ascii] raises
    nothing and returns the lines of [render_lines] joined by newlines:
    the top line, then one line of [2 * w + 1] characters for each row,
    which begins with a bar and holds the character of the cell [(x, y)]
    ([S] at start, else [E] at end, else the floor) at the index
    [1 + 2 * x] and its east wall after it; [splitlines] gives these lines
    back.  On the empty grid the text is one space. *)
Theorem render_ascii_shape w h (grid : Grid) (start end_ : option cell) :
  rect w h grid → 0 < h →
  ∃ lines,
    render_lines grid start end_ = Ret lines
    ∧ render_ascii grid start end_ = Ret (Str.join [Str.newline] lines)
    ∧ Shaped w h (cell_char h (mask grid) start end_) (east_char (mask grid))
        lines
    ∧ Str.splitlines (Str.join [Str.newline] lines) = lines
    ∧ render_ascii [] start end_ = Ret [Str.space].
Proof.
  intros Hr Hh.
  assert (0 <= w) as Hw.
  { destruct Hr as [Hlen Hrows]. destruct grid as [|row grid];
      [simpl in Hlen; lia|].
    apply Forall_cons in Hrows as [<- _]. lia. }
  exists (top_line w :: (row_text w h (mask grid) start end_ <$> Py.range h)).
  assert (render_lines grid start end_
          = Ret (top_line w
                 :: (row_text w h (mask grid) start end_ <$> Py.range h)))
    as Hlines by (apply render_lines_spec; [done|lia]).
  split; [done|]. split.
  { unfold render_ascii. by rewrite Hlines. }
  split; [apply rendered_shaped; lia|].
  split; [apply splitlines_join, rendered_plain|done].
Qed.

Lemma render_ascii_shape_witness :
  ∃ lines,
    render_lines [[10; 6]; [1; 1]] (Some (0, 0)) (Some (1, 1)) = Ret lines
    ∧ render_ascii [[10; 6]; [1; 1]] (Some (0, 0)) (Some (1, 1))
      = Ret (Str.join [Str.newline] lines)
    ∧ Shaped 2 2 (cell_char 2 (mask [[10; 6]; [1; 1]]) (Some (0, 0))
                    (Some (1, 1)))
        (east_char (mask [[10; 6]; [1; 1]])) lines
    ∧ Str.splitlines (Str.join [Str.newline] lines) = lines
    ∧ render_ascii [] (Some (0, 0)) (Some (1, 1)) = Ret [Str.space].
Proof.
  apply (render_ascii_shape 2 2 [[10; 6]; [1; 1]]).
  - split; [reflexivity|]. repeat constructor.
  - lia.
Defined.

(** X11: on a grid with symmetric passages the floor that [render_ascii]
    draws below a cell depends on the south bit of that cell alone: a space
    when the cell is open to the south, an underscore when it is not; the
    look at the cell below changes nothing. *)
Theorem render_floor_symmetric w h (grid : Grid) (start end_ : option cell)
    (x y : Z) :
  rect w h grid → symmetric w h (mask grid) → inb w h (x, y) →
  start ≠ Some (x, y) → end_ ≠ Some (x, y) →
  ∃ lines line,
    render_lines grid start end_ = Ret lines
    ∧ lines !! Z.to_nat (y + 1) = Some line
    ∧ line !! Z.to_nat (1 + 2 * x)
      = Some (if decide (Z.land (mask grid (x, y)) Dir.S ≠ 0)
              then Str.space else Str.underscore).
Proof.
  intros Hr Hsym Hc Hstart Hend. pose proof Hc as [Hx Hy]. simpl in Hx, Hy.
  assert (render_lines grid start end_
          = Ret (top_line w
                 :: (row_text w h (mask grid) start end_ <$> Py.range h)))
    as Hlines by (apply render_lines_spec; [done|lia]).
  destruct (rendered_shaped w h (mask grid) start end_) as [_ _ Hrows];
    [lia..|].
  destruct (Hrows y Hy) as (line & Hline & _ & _ & Hcells).
  destruct (Hcells x Hx) as [Hchar _].
  eexists _, line. split; [exact Hlines|]. split; [exact Hline|].
  rewrite Hchar. f_equal. unfold cell_char.
  rewrite decide_False by done. rewrite decide_False by done.
  unfold floor_char. cbn [fst snd].
  destruct (Z.ltb_spec (y + 1) h) as [Hbelow|]; [|done].
  destruct (decide (Z.land (mask grid (x, y + 1)) Dir.N ≠ 0)) as [|Hclosed];
    [done|].
  destruct (decide (Z.land (mask grid (x, y)) Dir.S ≠ 0)) as [Hopen|]; [|done].
  exfalso. apply Hclosed.
  destruct (Hsym (x, y) Dir.S) as (_ & od & Hod & Hback); try done.
  { apply elem_of_directions. tauto. }
  vm_compute in Hod. injection Hod as <-.
  unfold open_to, step in Hback. simpl in Hback.
  by rewrite Z.add_0_r in Hback.
Qed.

Lemma render_floor_symmetric_witness :
  ∃ lines line,
    render_lines [[10; 6]; [1; 1]] None None = Ret lines
    ∧ lines !! Z.to_nat (0 + 1) = Some line
    ∧ line !! Z.to_nat (1 + 2 * 1)
      = Some (if decide (Z.land (mask [[10; 6]; [1; 1]] (1, 0)) Dir.S ≠ 0)
              then Str.space else Str.underscore).
Proof.
  apply (render_floor_symmetric 2 2 [[10; 6]; [1; 1]] None None 1 0).
  - split; [reflexivity|]. repeat constructor.
  - apply symmetricb_spec. vm_compute. reflexivity.
  - unfold inb. simpl. lia.
  - discriminate.
  - discriminate.
Defined.

(** X12: [mark_path_in_maze] and [save_text_maze] compute the same text on
    every grid and every path, errors included: skipping a cell whose
    column lies beyond the line and writing the line back unchanged come to
    the same. *)
Theorem overlays_agree (grid : Grid) (path : list cell) :
  mark_path_in_maze grid path = save_text_maze grid path.
Proof.
  unfold mark_path_in_maze, save_text_maze.
  destruct (Py.getitem path 0) as [s| |]; [|done..]. cbn [mbind outcome_bind].
  destruct (Py.getitem path (-1)) as [e| |]; [|done..]. cbn [mbind outcome_bind].
  destruct (render_ascii grid (Some s) (Some e)) as [text| |]; [|done..].
  cbn [mbind outcome_bind]. by rewrite loops_agree.
Qed.

(** X13: on a rectangular grid with at least one row and a non-empty path
    whose cells between the first and the last are in bounds, both overlays
    return the rendering with start at the first and end at the last cell
    of the path, in which the floor (space or underscore) of every cell
    strictly inside the path has become a dot; the marks [S] and [E], the
    walls and the top line stay as rendered. *)
Theorem overlay_marks_path w h (grid : Grid) (path : list cell)
    (s e : cell) :
  rect w h grid → 0 < h →
  head path = Some s → last path = Some e →
  (∀ c, c ∈ inner path → inb w h c) →
  ∃ lines,
    mark_path_in_maze grid path = Ret (Str.join [Str.newline] lines)
    ∧ save_text_maze grid path = Ret (Str.join [Str.newline] lines)
    ∧ Shaped w h
        (marked_char (cell_char h (mask grid) (Some s) (Some e)) (inner path))
        (east_char (mask grid)) lines.
Proof.
  intros Hr Hh Hhead Hlast Hinner.
  assert (0 <= w) as Hw.
  { destruct Hr as [Hlen Hrows]. destruct grid as [|row grid];
      [simpl in Hlen; lia|].
    apply Forall_cons in Hrows as [<- _]. lia. }
  set (rendered := top_line w
         :: (row_text w h (mask grid) (Some s) (Some e) <$> Py.range h)).
  assert (render_ascii grid (Some s) (Some e)
          = Ret (Str.join [Str.newline] rendered)) as Htext.
  { unfold render_ascii. rewrite (render_lines_spec w h) by (done || lia).
    done. }
  destruct (mark_loop_spec w h (cell_char h (mask grid) (Some s) (Some e))
              (east_char (mask grid)) (inner path) [] rendered)
    as (lines & Hrun & Hshape); [|done|].
  { apply Shaped_ext with (cell_char h (mask grid) (Some s) (Some e)).
    - intros c _. unfold marked_char.
      by rewrite bool_decide_eq_false_2 by apply not_elem_of_nil.
    - apply rendered_shaped; lia. }
  exists lines.
  assert (mark_path_in_maze grid path = Ret (Str.join [Str.newline] lines))
    as Hmark.
  { unfold mark_path_in_maze.
    rewrite (getitem_head _ _ Hhead), (getitem_last _ _ Hlast).
    cbn [mbind outcome_bind]. rewrite Htext. cbn [mbind outcome_bind].
    rewrite splitlines_join by apply rendered_plain.
    rewrite Hrun. done. }
  split; [done|]. split; [|done].
  unfold save_text_maze.
  rewrite (getitem_head _ _ Hhead), (getitem_last _ _ Hlast).
  cbn [mbind outcome_bind]. rewrite Htext. cbn [mbind outcome_bind].
  rewrite splitlines_join by apply rendered_plain.
  rewrite <- loops_agree, Hrun. done.
Qed.

Lemma overlay_marks_path_witness :
  ∃ lines,
    mark_path_in_maze [[8; 12; 6]; [0; 0; 1]] [(0, 0); (1, 0); (2, 0); (2, 1)]
    = Ret (Str.join [Str.newline] lines)
    ∧ save_text_maze [[8; 12; 6]; [0; 0; 1]] [(0, 0); (1, 0); (2, 0); (2, 1)]
      = Ret (Str.join [Str.newline] lines)
    ∧ Shaped 3 2
        (marked_char
           (cell_char 2 (mask [[8; 12; 6]; [0; 0; 1]]) (Some (0, 0))
              (Some (2, 1)))
           (inner [(0, 0); (1, 0); (2, 0); (2, 1)]))
        (east_char (mask [[8; 12; 6]; [0; 0; 1]])) lines.
Proof.
  apply (overlay_marks_path 3 2 [[8; 12; 6]; [0; 0; 1]]
           [(0, 0); (1, 0); (2, 0); (2, 1)] (0, 0) (2, 1)).
  - split; [reflexivity|]. repeat constructor.
  - lia.
  - reflexivity.
  - reflexivity.
  - intros c Hc. vm_compute in Hc.
    apply elem_of_cons in Hc as [-> |Hc]; [unfold inb; simpl; lia|].
    apply elem_of_cons in Hc as [-> |Hc]; [unfold inb; simpl; lia|].
    by apply elem_of_nil in Hc.
Defined.

(** ** From the generator to the marked text *)

Lemma generated_perfect seeded (w h : Z) (seed : option Z) (g : rng)
    (fuel : nat) (grid : Grid) :
  0 < w → 0 < h →
  generate_maze_dfs seeded fuel w h seed g = Ret grid
  ∨ generate_maze_prim seeded fuel w h seed g = Ret grid
  ∨ generate_maze_wilson seeded fuel w h seed g = Ret grid →
  perfect w h grid ∧ symmetric w h (mask grid).
Proof.
  intros Hw Hh [Hrun|[Hrun|Hrun]].
  - destruct (generate_maze_dfs_stops seeded fuel w h seed g)
      as [Hout|(grid' & Hrun' & Hp & Hs)]; [done..|congruence|].
    assert (grid' = grid) as -> by congruence. done.
  - destruct (generate_maze_prim_stops seeded fuel w h seed g)
      as [Hout|(grid' & Hrun' & Hp & Hs)]; [done..|congruence|].
    assert (grid' = grid) as -> by congruence. done.
  - destruct (generate_maze_wilson_stops seeded fuel w h seed g)
      as [Hout|(grid' & Hrun' & Hp & Hs)]; [done..|congruence|].
    assert (grid' = grid) as -> by congruence. done.
Qed.

Lemma walk_cells_inb w h mk (path : list cell) a :
  head path = Some a → inb w h a → walk w h mk path →
  ∀ c, c ∈ path → inb w h c.
Proof.
  revert a. induction path as [|b path IH]; intros a Hhead Ha Hwalk c Hc.
  - by apply elem_of_nil in Hc.
  - injection Hhead as ->. apply elem_of_cons in Hc as [-> |Hc]; [done|].
    destruct path as [|b' path]; [by apply elem_of_nil in Hc|].
    destruct Hwalk as [(_ & Hb & _) Hwalk]. by apply (IH b').
Qed.

(** X14: in a grid of more than one cell that a generator has returned,
    no cell is sealed: every cell in bounds has a direction bit whose
    neighbour is in bounds. *)
Theorem generated_cells_open seeded (width height : Z) (seed : option Z)
    (g : rng) (fuel : nat) (grid : Grid) (c : cell) :
  1 <= width → 1 <= height → 1 < width * height →
  generate_maze_dfs seeded fuel width height seed g = Ret grid
  ∨ generate_maze_prim seeded fuel width height seed g = Ret grid
  ∨ generate_maze_wilson seeded fuel width height seed g = Ret grid →
  inb width height c →
  ∃ d, d ∈ directions ∧ open_to (mask grid) c d ∧ inb width height (step c d).
Proof.
  intros Hw Hh Hsize Hrun Hc.
  destruct (generated_perfect seeded width height seed g fuel grid)
    as [(_ & Hconn & _) _]; [lia..|done|].
  assert (∃ c', inb width height c' ∧ c' ≠ c) as (c' & Hc' & Hne).
  { destruct (decide (c = (0, 0))) as [->|Hne].
    - exists (width - 1, height - 1). split; [unfold inb; simpl; lia|].
      intros [= Hx Hy]. nia.
    - exists (0, 0). split; [unfold inb; simpl; lia|done]. }
  destruct (rtc_inv _ _ (Hconn c c' Hc Hc')) as [->|(b & Hstep & _)];
    [done|].
  destruct Hstep as (_ & Hb & d & Hd & Hopen & ->). by exists d.
Qed.

Lemma generated_cells_open_witness :
  ∃ d, d ∈ directions ∧ open_to (mask [[10; 4]; [9; 4]]) (1, 1) d
       ∧ inb 2 2 (step (1, 1) d).
Proof.
  apply (generated_cells_open sample_source 2 2 (Some 5) (fun _ => O) 8).
  - lia.
  - lia.
  - lia.
  - left. vm_compute. reflexivity.
  - unfold inb. simpl. lia.
Defined.

(** X15: the whole chain raises nothing.  For a grid that a generator has
    returned, the solvers called with the corners [(0, 0)] and
    [(width - 1, height - 1)], as the two [main] functions call them, return
    one path, and the overlays return the rendering with [S] and [E] at the
    corners in which the floor of every cell strictly inside the path is a
    dot. *)
Theorem pipeline_total seeded (width height : Z) (seed : option Z)
    (g : rng) (fuel search_fuel : nat) (grid : Grid) :
  1 <= width → 1 <= height →
  generate_maze_dfs seeded fuel width height seed g = Ret grid
  ∨ generate_maze_prim seeded fuel width height seed g = Ret grid
  ∨ generate_maze_wilson seeded fuel width height seed g = Ret grid →
  (Z.to_nat (width * height) <= search_fuel)%nat →
  ∃ path lines,
    dijkstra_solve search_fuel grid (0, 0) (width - 1, height - 1) = Ret path
    ∧ solve_maze_dijkstra search_fuel grid (0, 0) (width - 1, height - 1)
      = Ret (Some path)
    ∧ save_text_maze grid path = Ret (Str.join [Str.newline] lines)
    ∧ mark_path_in_maze grid path = Ret (Str.join [Str.newline] lines)
    ∧ Shaped width height
        (marked_char
           (cell_char height (mask grid) (Some (0, 0))
              (Some (width - 1, height - 1)))
           (inner path))
        (east_char (mask grid)) lines.
Proof.
  intros Hw Hh Hrun Hfuel.
  set (start := ((0, 0) : cell)). set (end_ := ((width - 1, height - 1) : cell)).
  destruct (generated_perfect seeded width height seed g fuel grid)
    as [(Hr & Hconn & _) _]; [lia..|done|].
  assert (inb width height start) as Hstart by (unfold inb; simpl; lia).
  assert (inb width height end_) as Hend by (unfold inb; simpl; lia).
  destruct (rtc_nsteps_1 _ _ (Hconn start end_ Hstart Hend)) as [k Hk].
  destruct (solvers_reachable width height grid start end_ search_fuel k)
    as (path & Hsolve & Hbackup & (Hhead & Hlast & Hwalk) & _); try done;
    [lia|].
  pose proof (walk_cells_inb _ _ _ _ _ Hhead Hstart Hwalk) as Hcells.
  set (rendered := top_line width
         :: (row_text width height (mask grid) (Some start) (Some end_)
             <$> Py.range height)).
  assert (render_ascii grid (Some start) (Some end_)
          = Ret (Str.join [Str.newline] rendered)) as Htext.
  { unfold render_ascii.
    rewrite (render_lines_spec width height) by (done || lia). done. }
  destruct (mark_loop_spec width height
              (cell_char height (mask grid) (Some start) (Some end_))
              (east_char (mask grid)) (inner path) [] rendered)
    as (lines & Hloop & Hshape).
  { apply Shaped_ext with (cell_char height (mask grid) (Some start) (Some end_)).
    - intros c _. unfold marked_char.
      by rewrite bool_decide_eq_false_2 by apply not_elem_of_nil.
    - apply rendered_shaped; lia. }
  { intros c Hc. by apply Hcells, elem_of_inner. }
  exists path, lines. split; [done|]. split; [done|].
  assert (save_text_maze grid path = Ret (Str.join [Str.newline] lines))
    as Hsave.
  { unfold save_text_maze.
    rewrite (getitem_head _ _ Hhead), (getitem_last _ _ Hlast).
    cbn [mbind outcome_bind]. rewrite Htext. cbn [mbind outcome_bind].
    rewrite splitlines_join by apply rendered_plain.
    rewrite <- loops_agree, Hloop. done. }
  split; [done|]. split; [|done].
  unfold mark_path_in_maze.
  rewrite (getitem_head _ _ Hhead), (getitem_last _ _ Hlast).
  cbn [mbind outcome_bind]. rewrite Htext. cbn [mbind outcome_bind].
  rewrite splitlines_join by apply rendered_plain.
  rewrite Hloop. done.
Qed.

Lemma pipeline_total_witness :
  ∃ path lines,
    dijkstra_solve 4 [[10; 4]; [9; 4]] (0, 0) (2 - 1, 2 - 1) = Ret path
    ∧ solve_maze_dijkstra 4 [[10; 4]; [9; 4]] (0, 0) (2 - 1, 2 - 1)
      = Ret (Some path)
    ∧ save_text_maze [[10; 4]; [9; 4]] path
      = Ret (Str.join [Str.newline] lines)
    ∧ mark_path_in_maze [[10; 4]; [9; 4]] path
      = Ret (Str.join [Str.newline] lines)
    ∧ Shaped 2 2
        (marked_char
           (cell_char 2 (mask [[10; 4]; [9; 4]]) (Some (0, 0))
              (Some (2 - 1, 2 - 1)))
           (inner path))
        (east_char (mask [[10; 4]; [9; 4]])) lines.
Proof.
  apply (pipeline_total sample_source 2 2 (Some 5) (fun _ => O) 8 4).
  - lia.
  - lia.
  - left. vm_compute. reflexivity.
  - simpl. lia.
Defined.

(** ** The generators with their effects: same results *)

Lemma eff_lift_bind {A B} (o : outcome A) (k : A → Effects.eff B) σ :
  (Effects.lift o ≫= k) σ
  = match o with
    | Ret a => k a σ
    | Raise e => (Raise e, σ)
    | OutOfFuel => (OutOfFuel, σ)
    end.
Proof. by destruct o. Qed.

Lemma eff_draw_bind {A B} (f : rng → outcome (A * rng))
    (k : A → Effects.eff B) σ :
  (Effects.draw f ≫= k) σ
  = match f (Effects.source σ) with
    | Ret (a, r') => k a (Effects.World r' (Effects.arrays σ))
    | Raise e => (Raise e, σ)
    | OutOfFuel => (OutOfFuel, σ)
    end.
Proof.
  unfold mbind, Effects.eff_bind, Effects.draw.
  by destruct (f (Effects.source σ)) as [[a r']| |].
Qed.

Lemma eff_dfs_loop_result fuel w h g vis stack σ :
  (Effects.dfs_loop fuel w h g vis stack σ).1
  = dfs_loop fuel w h g vis stack (Effects.source σ).
Proof.
  revert g vis stack σ. induction fuel as [|fuel IH]; intros g vis stack σ;
    destruct stack as [|[x y] below]; try done.
  rewrite dfs_loop_eq. cbn [Effects.dfs_loop]. rewrite eff_lift_bind.
  destruct (unvisited vis (_neighbors x y w h)) as [opts| |]; [|done..].
  cbn [mbind outcome_bind]. destruct opts as [|o opts]; [apply IH|].
  unfold Effects.choice. rewrite eff_draw_bind.
  destruct (Random.choice (o :: opts) (Effects.source σ))
    as [[[[nx ny] d] r']| |]; [|done..].
  cbn [mbind outcome_bind]. destruct (OPPOSITE d) as [od|]; [|done].
  rewrite eff_lift_bind.
  destruct (ior g x y (Ret d)) as [g1| |]; [|done..].
  cbn [mbind outcome_bind]. rewrite eff_lift_bind.
  destruct (ior g1 nx ny (Ret od)) as [g2| |]; [|done..].
  cbn [mbind outcome_bind]. rewrite eff_lift_bind.
  destruct (Py.setitem2 vis nx ny true) as [vis'| |]; [|done..].
  cbn [mbind outcome_bind]. apply IH.
Qed.

Lemma eff_prim_loop_result fuel w h g in_maze frontier σ :
  (Effects.prim_loop fuel w h g in_maze frontier σ).1
  = prim_loop fuel w h g in_maze frontier (Effects.source σ).
Proof.
  revert g in_maze frontier σ.
  induction fuel as [|fuel IH]; intros g in_maze frontier σ;
    destruct frontier as [|e fr]; try done.
  rewrite prim_loop_eq. cbn [Effects.prim_loop].
  unfold Effects.randrange. rewrite eff_draw_bind.
  destruct (Random.randrange _ (Effects.source σ)) as [[i r']| |]; [|done..].
  cbn [mbind outcome_bind]. rewrite eff_lift_bind.
  destruct (pop_at (e :: fr) i) as [[[[[[x y] nx] ny] d] frontier']| |];
    [|done..].
  cbn [mbind outcome_bind]. rewrite eff_lift_bind.
  destruct (Py.getitem2 in_maze nx ny) as [absorbed| |]; [|done..].
  cbn [mbind outcome_bind]. destruct absorbed; [apply IH|].
  destruct (OPPOSITE d) as [od|]; [|done].
  rewrite eff_lift_bind.
  destruct (Py.setitem2 in_maze nx ny true) as [in_maze'| |]; [|done..].
  cbn [mbind outcome_bind]. rewrite eff_lift_bind.
  destruct (ior g x y (Ret d)) as [g1| |]; [|done..].
  cbn [mbind outcome_bind]. rewrite eff_lift_bind.
  destruct (ior g1 nx ny (Ret od)) as [g2| |]; [|done..].
  cbn [mbind outcome_bind]. rewrite eff_lift_bind.
  destruct (extend_frontier _ _ _ _ _) as [frontier''| |]; [|done..].
  cbn [mbind outcome_bind]. apply IH.
Qed.

Lemma eff_wilson_walk_result fuel w h in_maze cx cy po pn viw σ :
  match wilson_walk fuel w h in_maze cx cy po pn viw (Effects.source σ) with
  | Ret (po', pn', r') =>
      Effects.wilson_walk fuel w h in_maze cx cy po pn viw σ
      = (Ret (po', pn'), Effects.World r' (Effects.arrays σ))
  | Raise e =>
      (Effects.wilson_walk fuel w h in_maze cx cy po pn viw σ).1 = Raise e
  | OutOfFuel =>
      (Effects.wilson_walk fuel w h in_maze cx cy po pn viw σ).1 = OutOfFuel
  end.
Proof.
  revert cx cy po pn viw σ.
  induction fuel as [|fuel IH]; intros cx cy po pn viw σ.
  - cbn [wilson_walk Effects.wilson_walk]. rewrite eff_lift_bind.
    destruct (Py.getitem2 in_maze cx cy) as [reached| |]; [|done..].
    cbn [mbind outcome_bind]. destruct reached; [|done]. by destruct σ.
  - rewrite wilson_walk_eq. cbn [Effects.wilson_walk]. rewrite eff_lift_bind.
    destruct (Py.getitem2 in_maze cx cy) as [reached| |]; [|done..].
    cbn [mbind outcome_bind]. destruct reached; [by destruct σ|].
    unfold Effects.choice. rewrite eff_draw_bind.
    destruct (Random.choice (_neighbors cx cy w h) (Effects.source σ))
      as [[[[nx ny] d] r']| |]; [|done..].
    cbn [mbind outcome_bind].
    destruct (viw !! (nx, ny)) as [idx|];
      apply (IH _ _ _ _ _ (Effects.World r' (Effects.arrays σ))).
Qed.

Lemma eff_wilson_loop_result fuel walk_fuel w h g in_maze σ :
  (Effects.wilson_loop fuel walk_fuel w h g in_maze σ).1
  = wilson_loop fuel walk_fuel w h g in_maze (Effects.source σ).
Proof.
  revert g in_maze σ. induction fuel as [|fuel IH]; intros g in_maze σ.
  - cbn [wilson_loop Effects.wilson_loop]. rewrite eff_lift_bind.
    destruct (remaining_cells in_maze (cells w h)) as [pool| |]; [|done..].
    cbn [mbind outcome_bind]. by destruct pool.
  - rewrite wilson_loop_eq. cbn [Effects.wilson_loop]. rewrite eff_lift_bind.
    destruct (remaining_cells in_maze (cells w h)) as [pool| |]; [|done..].
    cbn [mbind outcome_bind]. destruct pool as [|s pool]; [done|].
    unfold Effects.choice. rewrite eff_draw_bind.
    destruct (Random.choice (s :: pool) (Effects.source σ))
      as [[[sx sy] r1]| |]; [|done..].
    cbn [mbind outcome_bind].
    pose proof (eff_wilson_walk_result walk_fuel w h in_maze sx sy [(sx, sy)] ∅
                  {[ (sx, sy) := 0%nat ]}
                  (Effects.World r1 (Effects.arrays σ))) as Hwalk.
    cbn [Effects.source Effects.arrays] in Hwalk.
    unfold mbind at 1, Effects.eff_bind at 1.
    destruct (wilson_walk walk_fuel w h in_maze sx sy [(sx, sy)] ∅
                {[ (sx, sy) := 0%nat ]} r1) as [[[po pn] r2]| |].
    + rewrite Hwalk. cbn [mbind outcome_bind]. rewrite eff_lift_bind.
      destruct (wilson_carve po pn g in_maze) as [[g' in_maze']| |]; [|done..].
      apply IH.
    + destruct (Effects.wilson_walk _ _ _ _ _ _ _ _ _ _) as [[[? ?]| |] ?];
        by simplify_eq/=.
    + destruct (Effects.wilson_walk _ _ _ _ _ _ _ _ _ _) as [[[? ?]| |] ?];
        by simplify_eq/=.
Qed.

(** The generators give the same result with and without the account of
    their effects. *)
Lemma eff_generators_result seeded fuel w h seed σ :
  (Effects.generate_maze_dfs seeded fuel w h seed σ).1
  = generate_maze_dfs seeded fuel w h seed (Effects.source σ)
  ∧ (Effects.generate_maze_prim seeded fuel w h seed σ).1
    = generate_maze_prim seeded fuel w h seed (Effects.source σ)
  ∧ (Effects.generate_maze_wilson seeded fuel w h seed σ).1
    = generate_maze_wilson seeded fuel w h seed (Effects.source σ).
Proof.
  unfold Effects.generate_maze_dfs, Effects.generate_maze_prim,
    Effects.generate_maze_wilson, generate_maze_dfs, generate_maze_prim,
    generate_maze_wilson.
  destruct ((w <=? 0) || (h <=? 0)); [done|]. cbv zeta.
  set (σ0 := Effects.World (reseed seeded seed (Effects.source σ))
               (S (S (Effects.arrays σ)))).
  assert (∀ (k : Grid → list (list bool) → Effects.eff Grid),
            (_ ← Effects.reseed seeded seed;
             grid ← Effects.fresh w h 0;
             marks ← Effects.fresh w h false;
             k grid marks) σ
            = k (fresh w h 0) (fresh w h false) σ0) as Hstart.
  { intros k. unfold σ0. by destruct seed. }
  rewrite !Hstart. unfold Effects.randrange. rewrite !eff_draw_bind.
  cbn [Effects.source σ0].
  destruct (Random.randrange w _) as [[x r1]| |]; [|done..].
  cbn [mbind outcome_bind]. rewrite !eff_draw_bind. cbn [Effects.source].
  destruct (Random.randrange h r1) as [[y r2]| |]; [|done..].
  cbn [mbind outcome_bind]. rewrite !eff_lift_bind.
  destruct (Py.setitem2 (fresh w h false) x y true) as [marked| |]; [|done..].
  cbn [mbind outcome_bind].
  split; [apply eff_dfs_loop_result|].
  split; [apply eff_prim_loop_result|apply eff_wilson_loop_result].
Qed.

(** C6: with a width or a height that is zero or negative, each of the
    three generators raises [ValueError] and leaves the world as it found
    it, whatever the seed and the fuel: the [random] module has not been
    reseeded, nothing has been drawn and no array has been built.  The check
    comes before everything else, so the caller can correct the dimensions
    and call again as if the failed call had not been made. *)
Theorem generators_reject_dimensions seeded (width height : Z)
    (seed : option Z) (fuel : nat) (σ : Effects.world) :
  width <= 0 ∨ height <= 0 →
  Effects.generate_maze_dfs seeded fuel width height seed σ
  = (Raise ValueError, σ)
  ∧ Effects.generate_maze_prim seeded fuel width height seed σ
    = (Raise ValueError, σ)
  ∧ Effects.generate_maze_wilson seeded fuel width height seed σ
    = (Raise ValueError, σ)
  ∧ generate_maze_dfs seeded fuel width height seed (Effects.source σ)
    = Raise ValueError
  ∧ generate_maze_prim seeded fuel width height seed (Effects.source σ)
    = Raise ValueError
  ∧ generate_maze_wilson seeded fuel width height seed (Effects.source σ)
    = Raise ValueError.
Proof.
  intros Hbad.
  assert ((width <=? 0) || (height <=? 0) = true) as Hcheck.
  { apply orb_true_iff. destruct Hbad; [left|right]; by apply Z.leb_le. }
  unfold Effects.generate_maze_dfs, Effects.generate_maze_prim,
    Effects.generate_maze_wilson, generate_maze_dfs, generate_maze_prim,
    generate_maze_wilson.
  by rewrite Hcheck.
Qed.

Lemma generators_reject_dimensions_witness :
  (Effects.generate_maze_dfs sample_source 8 0 5 (Some 7)
     (Effects.World (fun _ => O) 0)
   = (Raise ValueError, Effects.World (fun _ => O) 0)
   ∧ Effects.generate_maze_prim sample_source 8 0 5 (Some 7)
       (Effects.World (fun _ => O) 0)
     = (Raise ValueError, Effects.World (fun _ => O) 0)
   ∧ Effects.generate_maze_wilson sample_source 8 0 5 (Some 7)
       (Effects.World (fun _ => O) 0)
     = (Raise ValueError, Effects.World (fun _ => O) 0)
   ∧ generate_maze_dfs sample_source 8 0 5 (Some 7) (fun _ => O)
     = Raise ValueError
   ∧ generate_maze_prim sample_source 8 0 5 (Some 7) (fun _ => O)
     = Raise ValueError
   ∧ generate_maze_wilson sample_source 8 0 5 (Some 7) (fun _ => O)
     = Raise ValueError)
  ∧ Effects.arrays
      (Effects.generate_maze_dfs sample_source 8 2 2 (Some 7)
         (Effects.World (fun _ => O) 0)).2 = 2%nat.
Proof.
  split.
  - apply (generators_reject_dimensions sample_source 0 5 (Some 7) 8
             (Effects.World (fun _ => O) 0)).
    left. lia.
  - vm_compute. reflexivity.
Defined.
